(** * mailflow: the send pipeline of [send_mail_merge.py]

    A shallow embedding of the template renderer, the message builder,
    the delivery engine with its retry policy, and the merge orchestrator
    ([main] from the point where configuration, templates and contacts
    have been loaded), followed by the properties of the specification.
    The configuration loader ([load_env_config]) and the header logic of
    the log file ([log_to_file]) are embedded after them, with the
    properties the code shows beyond the specification.

    Python [str] values are modelled as the byte strings of their UTF-8
    encoding ([string]).  [strip] removes the white space of Unicode in
    that encoding; [upper] and [lower] are exact on ASCII and on what
    the program compares their results with (see [Py.upper]).  Terminal
    output ([print_colored]) is not modelled.

    What lies outside the embedding: a row of the contacts file that is
    shorter than the header (for which [csv.DictReader] gives [None]
    where [Contact] has a string), and the exceptions of the standard
    library while a message is built ([EmailMessage] refuses a header
    value with a line break) or a file is opened.  The properties below
    are stated so that they hold of the program there too: they are
    about runs that come to their end, or they hold whatever is raised. *)

From Stdlib Require Import ZArith Ascii String DecimalString Lia Bool.
From stdpp Require Import base list strings gmap.

Local Open Scope Z_scope.

(** ** Python string primitives *)

Module Py.

(** [s.startswith(p)] *)
Fixpoint startswith (p s : string) : bool :=
  match p, s with
  | EmptyString, _ => true
  | String _ _, EmptyString => false
  | String a p', String b s' => if Ascii.eqb a b then startswith p' s' else false
  end.

(** [sub in s] *)
Fixpoint contains (sub s : string) : bool :=
  startswith sub s ||
  match s with
  | EmptyString => false
  | String _ s' => contains sub s'
  end.

Definition lower_char (c : ascii) : ascii :=
  let n := nat_of_ascii c in
  if ((65 <=? n) && (n <=? 90))%nat then ascii_of_nat (n + 32) else c.

Definition upper_char (c : ascii) : ascii :=
  let n := nat_of_ascii c in
  if ((97 <=? n) && (n <=? 122))%nat then ascii_of_nat (n - 32) else c.

Fixpoint map_chars (f : ascii -> ascii) (s : string) : string :=
  match s with
  | EmptyString => EmptyString
  | String c s' => String (f c) (map_chars f s')
  end.

(** [s.lower()] on ASCII letters.  Outside ASCII two characters have
    a lower case with an ASCII letter in it: the Kelvin sign (k) and the
    dotted capital I (i followed by a combining dot).  The program looks
    for "auth", "recipient" and "address" in the result, and neither a k
    nor an i that is followed by a combining character is part of an
    occurrence of these, so that the answer is the one of Python. *)
Definition lower : string -> string := map_chars lower_char.

(** [s.upper()] on ASCII letters and on the two characters outside ASCII
    whose upper case is an ASCII letter: the long s (U+017F, bytes 197
    191, upper case S) and the dotless i (U+0131, bytes 196 177, upper
    case I).  Every other character outside ASCII is left as it is; its
    upper case in Python has a character outside ASCII or is one of SS,
    FF, FI, FL, FFI, FFL and ST, so that the result is SENT or SKIP
    here exactly when it is in Python, which is all the program asks
    of it. *)
Fixpoint upper (s : string) : string :=
  match s with
  | EmptyString => EmptyString
  | String c s1 =>
      match s1 with
      | String d s2 =>
          if (nat_of_ascii c =? 197)%nat && (nat_of_ascii d =? 191)%nat
          then String "S" (upper s2)
          else if (nat_of_ascii c =? 196)%nat && (nat_of_ascii d =? 177)%nat
          then String "I" (upper s2)
          else String (upper_char c) (upper s1)
      | EmptyString => String (upper_char c) EmptyString
      end
  end.

(** [c.isspace()] for a character of ASCII: tab, newline, vertical tab,
    form feed, carriage return, the four separators 28..31 and the space. *)
Definition isspace (c : ascii) : bool :=
  let n := nat_of_ascii c in
  (((9 <=? n) && (n <=? 13)) || ((28 <=? n) && (n <=? 32)))%nat.

(** The white space of two bytes: U+0085 (194 133) and U+00A0 (194 160). *)
Definition isspace2 (c d : ascii) : bool :=
  let '(m, n) := (nat_of_ascii c, nat_of_ascii d) in
  ((m =? 194) && ((n =? 133) || (n =? 160)))%nat.

(** The white space of three bytes: U+1680 (225 154 128), U+2000 to
    U+200A (226 128 128..138), U+2028 and U+2029 (226 128 168..169),
    U+202F (226 128 175), U+205F (226 129 159) and U+3000 (227 128 128). *)
Definition isspace3 (c d e : ascii) : bool :=
  let '(l, m, n) := (nat_of_ascii c, nat_of_ascii d, nat_of_ascii e) in
  (((l =? 225) && (m =? 154) && (n =? 128))
   || ((l =? 226) && (m =? 128)
       && (((128 <=? n) && (n <=? 138)) || (n =? 168) || (n =? 169) || (n =? 175)))
   || ((l =? 226) && (m =? 129) && (n =? 159))
   || ((l =? 227) && (m =? 128) && (n =? 128)))%nat.

(** [s.lstrip()]: the characters of white space at the start are dropped. *)
Fixpoint lstrip (s : string) : string :=
  match s with
  | EmptyString => EmptyString
  | String c s1 =>
      if isspace c then lstrip s1
      else
        match s1 with
        | String d s2 =>
            if isspace2 c d then lstrip s2
            else
              match s2 with
              | String e s3 => if isspace3 c d e then lstrip s3 else s
              | EmptyString => s
              end
        | EmptyString => s
        end
  end.

(** [s.rstrip()], from the right: what is left of the rest is kept with
    the character before it, unless the two together are white space
    only. *)
Fixpoint rstrip (s : string) : string :=
  match s with
  | EmptyString => EmptyString
  | String c s' =>
      let r := String c (rstrip s') in
      match lstrip r with
      | EmptyString => EmptyString
      | _ => r
      end
  end.

(** [s.strip()] *)
Definition strip (s : string) : string := rstrip (lstrip s).

(** [s.replace(old, new)] for a non-empty [old]: scan from the left;
    at a match emit [new] and jump over the match ([skip] counts the
    characters of the match still to jump over). *)
Fixpoint replace_scan (old new s : string) (skip : nat) : string :=
  match s with
  | EmptyString => EmptyString
  | String c s' =>
      match skip with
      | S k => replace_scan old new s' k
      | O =>
          if startswith old s
          then new +:+ replace_scan old new s' (String.length old - 1)
          else String c (replace_scan old new s' 0)
      end
  end.

(** [s.replace("", new)] puts [new] before every character and at the end. *)
Fixpoint intersperse (new s : string) : string :=
  match s with
  | EmptyString => new
  | String c s' => new +:+ String c (intersperse new s')
  end.

Definition replace (old new s : string) : string :=
  match old with
  | EmptyString => intersperse new s
  | _ => replace_scan old new s 0
  end.

(** [str(n)] for an [int] *)
Definition str_of_int (n : Z) : string := NilZero.string_of_int (Z.to_int n).

(** [range(n)] *)
Definition range (n : Z) : list Z := Z.of_nat <$> seq 0 (Z.to_nat n).

End Py.

(** ** Data model *)

(** One row of the contacts file; [load_contacts] has checked that the
    seven columns are present.  Every field is the string of the row: a
    row with fewer fields than the header, for which [csv.DictReader]
    gives [None], is not a [Contact]. *)
Record Contact := {
  email : string;
  hotel_name : string;
  city : string;
  contact_name : string;
  notes : string;
  status : string;
  sent_at : string
}.

(** The resolved configuration ([env_vars]); [load_env_config] has
    checked the six required variables, [SMTP_SSL] is optional. *)
Record EnvVars := {
  SMTP_HOST : string;
  SMTP_PORT : string;
  SMTP_USER : string;
  SMTP_PASS : string;
  SENDER_NAME : string;
  SENDER_EMAIL : string;
  SMTP_SSL : option string
}.

(** What [create_email_message] puts into the [EmailMessage]. *)
Record EmailMessage := {
  msg_Subject : string;
  msg_From : string;
  msg_To : string;
  msg_content : string;
  msg_html_alternative : string;
  msg_attachment : option (string * string)
}.

(** A row appended by [log_to_file]. *)
Record LogEntry := {
  log_email : string;
  log_hotel_name : string;
  log_city : string;
  log_contact_name : string;
  log_status : string;
  log_info : string;
  log_timestamp : string
}.

(** The command line after [argparse]. *)
Record Args := {
  arg_csv : string;
  arg_attachment : option string;
  arg_sleep : Z;
  arg_dry_run : bool;
  arg_max : option Z;
  arg_from_row : Z;
  arg_update_contacts : bool;
  arg_log : string
}.

(** The [stats] dictionary of [main]. *)
Record Stats := { sent : Z; failed : Z; skipped : Z }.

(** Exceptions, each with its [str(e)], by the first [except] clause of
    [send_email] that catches them; [OtherError] stands for the classes
    that none of the clauses catches. *)
Inductive exception :=
| SMTPAuthenticationError (text : string)
| SMTPRecipientsRefused (text : string)
| SMTPSenderRefused (text : string)
| SSLError (text : string)
| gaierror (text : string)
| ConnectionError (text : string)
| SMTPException (text : string)
| OtherError (text : string).

(** What the [try] block of [send_email] does in one attempt: the
    configuration is read, the SMTP session is opened and the message is
    handed over ([Delivered]), or an exception is raised on the way. *)
Inductive session :=
| Delivered
| Raised (e : exception).

(** The effects of a run, in the order they happen.  [SendAttempt msg]:
    [send_email] enters its [try] block with [msg]; the SMTP operations
    of the program all happen inside that block. *)
Inductive event :=
| SendAttempt (msg : EmailMessage)
| Sleep (seconds : Z)
| ClockRead
| LogRow (log_path : string) (entry : LogEntry)
| SaveContacts (csv_path : string) (contacts : list Contact).

Definition is_attempt (ev : event) : bool :=
  match ev with SendAttempt _ => true | _ => false end.

(** Number of attempts made so far. *)
Fixpoint attempt_count (tr : list event) : nat :=
  match tr with
  | [] => O
  | ev :: tr' => (if is_attempt ev then 1 else 0) + attempt_count tr'
  end%nat.

(** ** Effects: a trace of events, [sys.exit] and uncaught exceptions *)

Inductive result (A : Type) :=
| Return (a : A)
| SysExit (code : Z)
| Raise (e : exception).
Arguments Return {A} a.
Arguments SysExit {A} code.
Arguments Raise {A} e.

Definition M (A : Type) : Type := list event -> result A * list event.

Definition ret {A : Type} (a : A) : M A := fun tr => (Return a, tr).

Definition bind {A B : Type} (m : M A) (k : A -> M B) : M B := fun tr =>
  match m tr with
  | (Return a, tr') => k a tr'
  | (SysExit c, tr') => (SysExit c, tr')
  | (Raise e, tr') => (Raise e, tr')
  end.

Definition emit (ev : event) : M unit := fun tr => (Return tt, tr ++ [ev]).
Definition sys_exit {A} (code : Z) : M A := fun tr => (SysExit code, tr).
Definition raise {A} (e : exception) : M A := fun tr => (Raise e, tr).

Notation "'let*' x := m 'in' k" := (bind m (fun x => k))
  (at level 10, x name, m at level 100, k at level 200).
Notation "'let*' ' pat := m 'in' k" :=
  (bind m (fun x => match x with pat => k end))
  (at level 10, pat pattern, m at level 100, k at level 200).

(** The longest pause [time.sleep] takes as an [int]: the pause is
    turned into nanoseconds in 64 bits, and
    [9223372036 * 10^9 <= 2^63 - 1 < 9223372037 * 10^9]. *)
Definition max_sleep : Z := 9223372036.

(** [time.sleep(seconds)] for an [int]: a negative argument is a
    [ValueError], one above [max_sleep] an [OverflowError]. *)
Definition time_sleep (seconds : Z) : M unit :=
  if seconds <? 0
  then raise (OtherError "ValueError: sleep length must be non-negative")
  else if max_sleep <? seconds
  then raise (OtherError "OverflowError: timestamp too large to convert to C _PyTime_t")
  else emit (Sleep seconds).

(** ** Delivery engine *)

Section Delivery.

(** The relay: what the [try] block of the [n]-th attempt of the run
    does with the configuration and the message it is given (the port
    is read with [int], then the session runs over implicit TLS or
    STARTTLS, by [SMTP_SSL]). *)
Variable relay : EnvVars -> EmailMessage -> nat -> session.

(** The [except] clauses of [send_email]: the detail returned for an
    exception of a class that is caught, [None] for one that is not. *)
Definition failure_info (e : exception) : option string :=
  match e with
  | SMTPAuthenticationError e => Some ("Error de autenticación SMTP: " +:+ e)
  | SMTPRecipientsRefused e => Some ("Error: destinatarios rechazados: " +:+ e)
  | SMTPSenderRefused e => Some ("Error: remitente rechazado: " +:+ e)
  | SSLError e => Some ("Error de SSL: " +:+ e)
  | gaierror e => Some ("Error de resolución DNS: " +:+ e)
  | ConnectionError e => Some ("Error de conexión: " +:+ e)
  | SMTPException e => Some ("Error SMTP: " +:+ e)
  | OtherError _ => None
  end.

(** [send_email(env_vars, msg, dry_run)] *)
Definition send_email (env_vars : EnvVars) (msg : EmailMessage) (dry_run : bool)
  : M (bool * string) :=
  if dry_run then ret (true, "DRY RUN - Email not sent")
  else fun tr =>
    let tr' := tr ++ [SendAttempt msg] in
    match relay env_vars msg (attempt_count tr) with
    | Delivered => (Return (true, "Email sent successfully"), tr')
    | Raised e =>
        match failure_info e with
        | Some info => (Return (false, info), tr')
        | None => (Raise e, tr')
        end
    end.

(** The two tests of [send_email_with_retry] that end the retries. *)
Definition is_auth_info (info : string) : bool :=
  Py.contains "Authentication" info || Py.contains "auth" (Py.lower info).

Definition is_recipient_info (info : string) : bool :=
  Py.contains "recipient" (Py.lower info) || Py.contains "address" (Py.lower info).

(** The [for attempt in range(max_retries)] loop; [Some r] is a [return r]
    from inside the loop, [None] is the loop running to its end. *)
Fixpoint retry_loop (env_vars : EnvVars) (msg : EmailMessage) (dry_run : bool)
  (max_retries : Z) (attempts : list Z) : M (option (bool * string)) :=
  match attempts with
  | [] => ret None
  | attempt :: rest =>
      let* '(success, info) := send_email env_vars msg dry_run in
      if success then ret (Some (success, info))
      else if is_auth_info info then ret (Some (success, info))
      else if is_recipient_info info then ret (Some (success, info))
      else if attempt <? max_retries - 1 then
        let* _ := time_sleep (5 * 2 ^ attempt) in
        retry_loop env_vars msg dry_run max_retries rest
      else
        ret (Some (false, "Failed after " +:+ Py.str_of_int max_retries
                            +:+ " attempts: " +:+ info))
  end.

(** [send_email_with_retry(env_vars, msg, dry_run, max_retries)] *)
Definition send_email_with_retry (env_vars : EnvVars) (msg : EmailMessage)
  (dry_run : bool) (max_retries : Z) : M (bool * string) :=
  let* r := retry_loop env_vars msg dry_run max_retries (Py.range max_retries) in
  match r with
  | Some out => ret out
  | None => ret (false, "Max retries exceeded")
  end.

End Delivery.

(** ** Template renderer *)

(** The f-string of [render_template]: the key between double braces. *)
Definition placeholder (key : string) : string := "{{" +:+ key +:+ "}}".

(** [render_template(template, context)].  The context is the list of
    the items of the dictionary in insertion order, each value already in
    its [str] form. *)
Definition render_template (template : string) (context : list (string * string))
  : string :=
  fold_left (fun result '(key, value) => Py.replace (placeholder key) value result)
            context template.

(** ** Email validation *)

Module Re.

(** Regular expressions over characters, matched by derivatives. *)
Inductive regex :=
| Void
| Eps
| Class (p : ascii -> bool)
| Seq (r1 r2 : regex)
| Alt (r1 r2 : regex)
| Star (r : regex).

Definition Plus (r : regex) : regex := Seq r (Star r).

Fixpoint nullable (r : regex) : bool :=
  match r with
  | Void => false
  | Eps => true
  | Class _ => false
  | Seq r1 r2 => nullable r1 && nullable r2
  | Alt r1 r2 => nullable r1 || nullable r2
  | Star _ => true
  end.

Fixpoint deriv (c : ascii) (r : regex) : regex :=
  match r with
  | Void => Void
  | Eps => Void
  | Class p => if p c then Eps else Void
  | Seq r1 r2 =>
      if nullable r1 then Alt (Seq (deriv c r1) r2) (deriv c r2)
      else Seq (deriv c r1) r2
  | Alt r1 r2 => Alt (deriv c r1) (deriv c r2)
  | Star r1 => Seq (deriv c r1) (Star r1)
  end.

Fixpoint fullmatch (r : regex) (s : string) : bool :=
  match s with
  | EmptyString => nullable r
  | String c s' => fullmatch (deriv c r) s'
  end.

Definition newline : ascii := ascii_of_nat 10.

(** [re.match] of a pattern [^r$]: the whole string is matched, or the
    whole string up to a final newline. *)
Definition match_anchored (r : regex) (s : string) : bool :=
  fullmatch (Seq r (Alt Eps (Class (Ascii.eqb newline)))) s.

End Re.

Definition in_range (lo hi : nat) (c : ascii) : bool :=
  let n := nat_of_ascii c in ((lo <=? n) && (n <=? hi))%nat.

(** [a-zA-Z] and [a-zA-Z0-9] *)
Definition is_alpha (c : ascii) : bool := in_range 97 122 c || in_range 65 90 c.
Definition is_alnum (c : ascii) : bool := is_alpha c || in_range 48 57 c.

Definition one_of (cs : string) (c : ascii) : bool :=
  existsb (Ascii.eqb c) (list_ascii_of_string cs).

(** The pattern [^[a-zA-Z0-9._%+-]+@[a-zA-Z0-9.-]+\.[a-zA-Z]{2,}$]
    of [validate_email], without its anchors. *)
Definition email_pattern : Re.regex :=
  Re.Seq (Re.Plus (Re.Class (fun c => is_alnum c || one_of "._%+-" c)))
 (Re.Seq (Re.Class (Ascii.eqb "@"))
 (Re.Seq (Re.Plus (Re.Class (fun c => is_alnum c || one_of ".-" c)))
 (Re.Seq (Re.Class (Ascii.eqb "."))
 (Re.Seq (Re.Class is_alpha) (Re.Seq (Re.Class is_alpha) (Re.Star (Re.Class is_alpha))))))).

(** [s.split(sep)] for a separator of one character. *)
Fixpoint split_char (sep : ascii) (s : string) : list string :=
  match s with
  | EmptyString => [EmptyString]
  | String c s' =>
      if Ascii.eqb c sep then EmptyString :: split_char sep s'
      else match split_char sep s' with
           | [] => [String c EmptyString]
           | piece :: pieces => String c piece :: pieces
           end
  end.

(** What [socket.gethostbyname] does with a host name. *)
Inductive lookup :=
| Resolved (address : string)
| LookupRaised (e : exception).

Section Validation.

Variable resolve : string -> lookup.

(** [validate_email(email)]: the pattern, then the name lookup of the
    domain; [socket.gaierror] and the [IndexError] of [split("@")[1]]
    give [False], any other exception of the lookup propagates. *)
Definition validate_email (email : string) : M bool :=
  if negb (Re.match_anchored email_pattern email) then ret false
  else
    match split_char "@" email !! 1%nat with
    | None => ret false
    | Some domain =>
        match resolve domain with
        | Resolved _ => ret true
        | LookupRaised (gaierror _) => ret false
        | LookupRaised e => raise e
        end
    end.

End Validation.

(** ** Message builder and merge orchestrator *)

(** The greeting used when a contact has no name. *)
Definition generic_greeting : string := "Responsabile delle risorse umane".

(** Python truth value of a [str]. *)
Definition truthy (s : string) : bool := negb (String.eqb s EmptyString).

Definition with_sent (stats : Stats) : Stats :=
  {| sent := sent stats + 1; failed := failed stats; skipped := skipped stats |}.

Definition with_failed (stats : Stats) : Stats :=
  {| sent := sent stats; failed := failed stats + 1; skipped := skipped stats |}.

(** [contact["status"] = "SENT"] followed by [contact["sent_at"] = stamp] *)
Definition mark_sent (stamp : string) (c : Contact) : Contact :=
  {| email := email c; hotel_name := hotel_name c; city := city c;
     contact_name := contact_name c; notes := notes c;
     status := "SENT"; sent_at := stamp |}.

(** How a [for] body hands control back to its loop. *)
Inductive loop_ctl (A : Type) :=
| Continue (a : A)
| Break (a : A).
Arguments Continue {A} a.
Arguments Break {A} a.

(** [enumerate(l, start)] *)
Fixpoint enumerate {A : Type} (start : nat) (l : list A) : list (nat * A) :=
  match l with
  | [] => []
  | x :: l' => (start, x) :: enumerate (S start) l'
  end.

(** [log_to_file(log_path, email, hotel_name, city, contact_name, status,
    info, timestamp)]: one row appended to the log. *)
Definition log_to_file (log_path email hotel_name city contact_name status info
                        timestamp : string) : M unit :=
  emit (LogRow log_path
          {| log_email := email; log_hotel_name := hotel_name; log_city := city;
             log_contact_name := contact_name; log_status := status;
             log_info := info; log_timestamp := timestamp |}).

(** [save_contacts(csv_path, contacts, fieldnames)] *)
Definition save_contacts (csv_path : string) (contacts : list Contact) : M unit :=
  emit (SaveContacts csv_path contacts).

(** The collaborators of a run: the relay, the name service, the clock
    with its two formatters, the file system, and the library functions
    [email.utils.formataddr] and [html_to_plain_text] (the HTML parser of
    the standard library). *)
Record Collaborators := {
  relay : EnvVars -> EmailMessage -> nat -> session;
  gethostbyname : string -> lookup;
  datetime : Type;
  clock : list event -> datetime;
  isoformat : datetime -> string;
  strftime : datetime -> string -> string;
  path_exists : string -> bool;
  read_file : string -> string;
  basename : string -> string;
  formataddr : string -> string -> string;
  html_to_plain_text : string -> string
}.

Section Orchestrator.

Variable w : Collaborators.

(** [datetime.now()]: the clock is read, and what it shows depends on
    what has happened so far. *)
Definition datetime_now : M (datetime w) :=
  fun tr => (Return (clock w tr), tr ++ [ClockRead]).

(** [create_email_message(env_vars, subject, html_body, plain_body,
    to_email, to_name, attachment_path)]: the message that is built
    when the standard library raises nothing on the way (a header value
    with a line break, an attachment that cannot be read). *)
Definition create_email_message (env_vars : EnvVars)
  (subject html_body plain_body to_email to_name : string)
  (attachment_path : option string) : EmailMessage :=
  {| msg_Subject := subject;
     msg_From := formataddr w (SENDER_NAME env_vars) (SENDER_EMAIL env_vars);
     msg_To := if truthy to_name then formataddr w to_name to_email else to_email;
     msg_content := plain_body;
     msg_html_alternative := html_body;
     msg_attachment :=
       match attachment_path with
       | Some path =>
           if truthy path && path_exists w path
           then Some (basename w path, read_file w path)
           else None
       | None => None
       end |}.

(** [args.max and len(contacts_to_send) >= args.max] *)
Definition max_reached (args : Args) (n : nat) : bool :=
  match arg_max args with
  | Some m => negb (m =? 0) && (m <=? Z.of_nat n)
  | None => false
  end.

(** [status in ["SENT", "SKIP"]] for the trimmed, upper-cased status. *)
Definition already_handled (contact : Contact) : bool :=
  let status := Py.upper (Py.strip (status contact)) in
  String.eqb status "SENT" || String.eqb status "SKIP".

(** The body of the filter loop of [main] for the row [idx]. *)
Definition filter_body (args : Args) (idx : nat) (contact : Contact)
  (contacts_to_send : list (nat * Contact)) : M (loop_ctl (list (nat * Contact))) :=
  if Z.of_nat idx <? arg_from_row args then ret (Continue contacts_to_send)
  else if already_handled contact then ret (Continue contacts_to_send)
  else
    let* valid := validate_email (gethostbyname w) (email contact) in
    if negb valid then
      let* now := datetime_now in
      let* _ := log_to_file (arg_log args) (email contact) (hotel_name contact)
                  (city contact) (contact_name contact)
                  "ERROR" "Invalid email format" (isoformat w now) in
      ret (Continue contacts_to_send)
    else
      let contacts_to_send := contacts_to_send ++ [(idx, contact)] in
      if max_reached args (length contacts_to_send)
      then ret (Break contacts_to_send)
      else ret (Continue contacts_to_send).

(** The filter loop over [enumerate(contacts)]. *)
Fixpoint filter_loop (args : Args) (rows : list (nat * Contact))
  (contacts_to_send : list (nat * Contact)) : M (list (nat * Contact)) :=
  match rows with
  | [] => ret contacts_to_send
  | (idx, contact) :: rest =>
      let* ctl := filter_body args idx contact contacts_to_send in
      match ctl with
      | Continue contacts_to_send => filter_loop args rest contacts_to_send
      | Break contacts_to_send => ret contacts_to_send
      end
  end.

(** The name a contact is greeted with: its trimmed [contact_name], or
    the generic greeting when that is empty. *)
Definition greeting_name (contact : Contact) : string :=
  let contact_name := Py.strip (contact_name contact) in
  if truthy contact_name then contact_name else generic_greeting.

(** The [context] dictionary of one contact. *)
Definition render_context (sender_name today : string) (contact : Contact)
  : list (string * string) :=
  [("contact_name", greeting_name contact);
   ("hotel_name", hotel_name contact);
   ("city", city contact);
   ("sender_name", sender_name);
   ("today", today)].

(** The message [main] builds for one contact: both templates rendered,
    the plain text derived, and the display name passed as empty when the
    greeting is the generic one. *)
Definition compose (args : Args) (env_vars : EnvVars)
  (subject_template html_template today : string) (contact : Contact)
  : EmailMessage :=
  let contact_name := greeting_name contact in
  let context := render_context (SENDER_NAME env_vars) today contact in
  let subject := render_template subject_template context in
  let html_body := render_template html_template context in
  let plain_body := html_to_plain_text w html_body in
  create_email_message env_vars subject html_body plain_body (email contact)
    (if String.eqb contact_name generic_greeting then EmptyString else contact_name)
    (arg_attachment args).

(** The body of the send loop of [main]: [idx] counts from 1, [total] is
    [len(contacts_to_send)], [contacts] and [stats] are the list and the
    counters the body updates.  The dictionary [contact] is the one at
    [contacts[original_idx]]; the body reads it before it writes to it,
    and [original_idx], taken from [enumerate(contacts)], is in range. *)
Definition send_body (args : Args) (env_vars : EnvVars)
  (subject_template html_template today : string) (total idx original_idx : nat)
  (contact : Contact) (contacts : list Contact) (stats : Stats)
  : M (list Contact * Stats) :=
  let contact_name := greeting_name contact in
  let msg := compose args env_vars subject_template html_template today contact in
  let* '(success, info) :=
    send_email_with_retry (relay w) env_vars msg (arg_dry_run args) 3 in
  let* now := datetime_now in
  let timestamp := isoformat w now in
  let* '(contacts, stats) :=
    if success then
      let stats := with_sent stats in
      let* contacts :=
        if arg_update_contacts args then
          let* now := datetime_now in
          ret (alter (mark_sent (strftime w now "%Y-%m-%d %H:%M:%S"))
                     original_idx contacts)
        else ret contacts in
      let* _ := log_to_file (arg_log args) (email contact) (hotel_name contact)
                  (city contact) contact_name
                  (if negb (arg_dry_run args) then "SENT" else "DRY_RUN")
                  info timestamp in
      ret (contacts, stats)
    else
      let stats := with_failed stats in
      let* _ := log_to_file (arg_log args) (email contact) (hotel_name contact)
                  (city contact) contact_name "ERROR" info timestamp in
      ret (contacts, stats) in
  let* _ := if (idx <? total)%nat then time_sleep (arg_sleep args) else ret tt in
  ret (contacts, stats).

(** The send loop over [enumerate(contacts_to_send, 1)]. *)
Fixpoint send_loop (args : Args) (env_vars : EnvVars)
  (subject_template html_template today : string) (total : nat)
  (todo : list (nat * (nat * Contact))) (contacts : list Contact) (stats : Stats)
  : M (list Contact * Stats) :=
  match todo with
  | [] => ret (contacts, stats)
  | (idx, (original_idx, contact)) :: rest =>
      let* '(contacts, stats) :=
        send_body args env_vars subject_template html_template today total
                  idx original_idx contact contacts stats in
      send_loop args env_vars subject_template html_template today total
                rest contacts stats
  end.

(** [main], from the check of the attachment on; the value returned is
    the counters of the summary. *)
Definition main (args : Args) (env_vars : EnvVars)
  (subject_template html_template : string) (contacts : list Contact) : M Stats :=
  let missing :=
    match arg_attachment args with
    | Some path => truthy path && negb (path_exists w path)
    | None => false
    end in
  if missing then sys_exit 1
  else
    let* contacts_to_send := filter_loop args (enumerate 0 contacts) [] in
    match contacts_to_send with
    | [] => sys_exit 0
    | _ =>
        let* now := datetime_now in
        let today := strftime w now "%d/%m/%Y" in
        let* '(contacts, stats) :=
          send_loop args env_vars subject_template html_template today
                    (length contacts_to_send) (enumerate 1 contacts_to_send)
                    contacts {| sent := 0; failed := 0; skipped := 0 |} in
        let* _ :=
          if arg_update_contacts args && (0 <? sent stats)
          then save_contacts (arg_csv args) contacts
          else ret tt in
        ret stats
    end.

End Orchestrator.

(** ** Vocabulary of the properties *)

(** A failure detail that neither test of [send_email_with_retry] takes
    for a permanent failure. *)
Definition transient (info : string) : bool :=
  negb (is_auth_info info) && negb (is_recipient_info info).

(** The effects of [k] failed attempts numbered from [attempt], every one
    of them followed by its backoff sleep. *)
Fixpoint backoff (msg : EmailMessage) (attempt : Z) (k : nat) : list event :=
  match k with
  | O => []
  | S k' => SendAttempt msg :: Sleep (5 * 2 ^ attempt) :: backoff msg (attempt + 1) k'
  end.

(** The rows appended to the log, oldest first. *)
Fixpoint log_rows (tr : list event) : list LogEntry :=
  match tr with
  | [] => []
  | LogRow _ entry :: tr' => entry :: log_rows tr'
  | _ :: tr' => log_rows tr'
  end.

(** A configuration and a message to run the engine on. *)
Definition sample_env : EnvVars :=
  {| SMTP_HOST := "smtp.gmail.com"; SMTP_PORT := "465";
     SMTP_USER := "me@gmail.com"; SMTP_PASS := "app-password";
     SENDER_NAME := "Me"; SENDER_EMAIL := "me@gmail.com";
     SMTP_SSL := Some "true" |}.

Definition sample_msg : EmailMessage :=
  {| msg_Subject := "Candidatura"; msg_From := "Me <me@gmail.com>";
     msg_To := "info@hotel.it"; msg_content := "Buongiorno";
     msg_html_alternative := "<p>Buongiorno</p>"; msg_attachment := None |}.

(** A relay that refuses the login at every attempt, with the text of
    [str(e)] for an [SMTPAuthenticationError(535, ...)]. *)
Definition rejected_login : string :=
  "(535, b'5.7.8 Username and Password not accepted')".

Definition relay_bad_login (_ : EnvVars) (_ : EmailMessage) (_ : nat) : session :=
  Raised (SMTPAuthenticationError rejected_login).

(** A relay that refuses the recipient at every attempt. *)
Definition unknown_user : string := "{'info@hotel.it': (550, b'5.1.1 User unknown')}".

Definition relay_unknown_user (_ : EnvVars) (_ : EmailMessage) (_ : nat) : session :=
  Raised (SMTPRecipientsRefused unknown_user).

(** A relay whose first [k] attempts raise [ConnectionError(text)] and
    whose later attempts deliver. *)
Definition relay_flaky (k : nat) (text : string)
  (_ : EnvVars) (_ : EmailMessage) (n : nat) : session :=
  if (n <? k)%nat then Raised (ConnectionError text) else Delivered.

(** A template cut into pieces: literal text and placeholders. *)
Inductive piece :=
| Text (s : string)
| Hole (key : string).

Definition piece_text (p : piece) : string :=
  match p with
  | Text s => s
  | Hole key => placeholder key
  end.

(** The template a list of pieces stands for. *)
Fixpoint flatten (ps : list piece) : string :=
  match ps with
  | [] => EmptyString
  | p :: ps' => piece_text p +:+ flatten ps'
  end.

(** The character [c] does not occur in [s]. *)
Fixpoint free_of (c : ascii) (s : string) : bool :=
  match s with
  | EmptyString => true
  | String a s' => negb (Ascii.eqb a c) && free_of c s'
  end.

Definition brace_free (s : string) : bool := free_of "{" s && free_of "}" s.

(** The opening braces of [s] stand alone: none is followed by another
    one, and none ends [s] (as in the rule of a style sheet,
    [body { margin: 0 }]). *)
Fixpoint single_braces (s : string) : bool :=
  match s with
  | EmptyString => true
  | String c s' =>
      (if Ascii.eqb c "{"
       then match s' with
            | EmptyString => false
            | String d _ => negb (Ascii.eqb d "{")
            end
       else true) && single_braces s'
  end.

(** The opening braces of literal text stand alone, a placeholder name
    has no brace. *)
Definition piece_ok (p : piece) : bool :=
  match p with
  | Text s => single_braces s
  | Hole key => brace_free key
  end.

(** Keys have no brace, the opening braces of values stand alone. *)
Definition entry_ok (kv : string * string) : bool :=
  brace_free (fst kv) && single_braces (snd kv).

(** [context[key]], if the key is there. *)
Fixpoint assoc (key : string) (context : list (string * string)) : option string :=
  match context with
  | [] => None
  | (k, v) :: context' => if String.eqb k key then Some v else assoc key context'
  end.

(** Substitution in one pass: every placeholder whose name is a key of
    the context becomes the value of that key, everything else stays. *)
Definition fill (context : list (string * string)) (p : piece) : piece :=
  match p with
  | Text s => Text s
  | Hole key =>
      match assoc key context with
      | Some v => Text v
      | None => Hole key
      end
  end.

Definition is_hole (key : string) (p : piece) : bool :=
  match p with
  | Text _ => false
  | Hole k => String.eqb k key
  end.

(** A world to run [main] in: the relay refuses every login, only
    [good.com] resolves, the clock counts the events so far, every path
    exists. *)
Definition sample_world : Collaborators :=
  {| relay := relay_bad_login;
     gethostbyname := fun domain =>
       if String.eqb domain "good.com" then Resolved "192.0.2.1"
       else LookupRaised (gaierror "[Errno -2] Name or service not known");
     datetime := nat;
     clock := fun tr => length tr;
     isoformat := fun t => "T" +:+ Py.str_of_int (Z.of_nat t);
     strftime := fun t format => format +:+ "@" +:+ Py.str_of_int (Z.of_nat t);
     path_exists := fun _ => true;
     read_file := fun _ => "%PDF";
     basename := fun path => path;
     formataddr := fun name address => name +:+ " <" +:+ address +:+ ">";
     html_to_plain_text := fun html => html |}.

Definition sample_contact (address name state : string) : Contact :=
  {| email := address; hotel_name := "Hotel Test"; city := "Torino";
     contact_name := name; notes := ""; status := state; sent_at := "" |}.

Definition sample_args (dry_run update_contacts : bool) : Args :=
  {| arg_csv := "contacts.csv"; arg_attachment := None; arg_sleep := 3;
     arg_dry_run := dry_run; arg_max := Some 5; arg_from_row := 0;
     arg_update_contacts := update_contacts; arg_log := "outbox_log.csv" |}.

(** Three characters outside ASCII in UTF-8: the no-break space
    (U+00A0), the long s (U+017F) and the dotless i (U+0131). *)
Definition nbsp : string :=
  String (ascii_of_nat 194) (String (ascii_of_nat 160) EmptyString).
Definition long_s : string :=
  String (ascii_of_nat 197) (String (ascii_of_nat 191) EmptyString).
Definition dotless_i : string :=
  String (ascii_of_nat 196) (String (ascii_of_nat 177) EmptyString).

(** What [socket.gethostbyname] raises for a name with an empty label:
    the name is encoded with the [idna] codec before it is looked up. *)
Definition idna_error : exception :=
  OtherError
    "UnicodeError: encoding with 'idna' codec failed (UnicodeError: label empty or too long)".

(** [sample_world] with the name service of Python on the host name
    [hotel..it], whose second label is empty. *)
Definition sample_world_idna : Collaborators :=
  {| relay := relay sample_world;
     gethostbyname := fun domain =>
       if String.eqb domain "hotel..it" then LookupRaised idna_error
       else gethostbyname sample_world domain;
     datetime := nat;
     clock := fun tr => length tr;
     isoformat := isoformat sample_world;
     strftime := strftime sample_world;
     path_exists := path_exists sample_world;
     read_file := read_file sample_world;
     basename := basename sample_world;
     formataddr := formataddr sample_world;
     html_to_plain_text := html_to_plain_text sample_world |}.

(** A contact as [main] leaves it after a successful send with
    [--update-contacts]: status SENT and a formatted time in [sent_at]. *)
Definition marked (w : Collaborators) (c : Contact) : Prop :=
  status c = "SENT" /\
  exists t : datetime w, sent_at c = strftime w t "%Y-%m-%d %H:%M:%S".

(** The ERROR row [main] logs for a contact whose email is not valid. *)
Definition invalid_email_row (contact : Contact) (timestamp : string) : LogEntry :=
  {| log_email := email contact; log_hotel_name := hotel_name contact;
     log_city := city contact; log_contact_name := contact_name contact;
     log_status := "ERROR"; log_info := "Invalid email format";
     log_timestamp := timestamp |}.

(** The row [main] logs for a contact after a simulated send. *)
Definition dry_run_row (contact : Contact) (greeting timestamp : string) : LogEntry :=
  {| log_email := email contact; log_hotel_name := hotel_name contact;
     log_city := city contact; log_contact_name := greeting;
     log_status := "DRY_RUN"; log_info := "DRY RUN - Email not sent";
     log_timestamp := timestamp |}.

(** The contact at position [i] of the list is marked. *)
Definition marked_at (w : Collaborators) (contacts : list Contact) (i : nat) : Prop :=
  exists c, contacts !! i = Some c /\ marked w c.

(** ** More vocabulary: what a trace holds *)

(** Seconds slept over a trace. *)
Fixpoint slept (tr : list event) : Z :=
  match tr with
  | [] => 0
  | Sleep seconds :: tr' => seconds + slept tr'
  | _ :: tr' => slept tr'
  end.

(** The messages handed to the relay, oldest first. *)
Fixpoint attempted (tr : list event) : list EmailMessage :=
  match tr with
  | [] => []
  | SendAttempt msg :: tr' => msg :: attempted tr'
  | _ :: tr' => attempted tr'
  end.

(** The writes of the contacts file, oldest first. *)
Fixpoint saved (tr : list event) : list (string * list Contact) :=
  match tr with
  | [] => []
  | SaveContacts csv_path contacts :: tr' => (csv_path, contacts) :: saved tr'
  | _ :: tr' => saved tr'
  end.

(** The [k] attempts from the [first]-th on all fail with a detail that
    neither test of [send_email_with_retry] takes for permanent. *)
Definition fail_transiently (relay : EnvVars -> EmailMessage -> nat -> session)
  (env_vars : EnvVars) (msg : EmailMessage) (first k : nat) : Prop :=
  forall i, (i < k)%nat ->
  exists e info, relay env_vars msg (first + i)%nat = Raised e
                 /\ failure_info e = Some info /\ transient info = true.

(** ** More vocabulary: what a regular expression stands for *)

(** The strings of a regular expression. *)
Inductive denotes : Re.regex -> string -> Prop :=
| denotes_eps : denotes Re.Eps EmptyString
| denotes_class (p : ascii -> bool) (c : ascii) :
    p c = true -> denotes (Re.Class p) (String c EmptyString)
| denotes_seq (r1 r2 : Re.regex) (s1 s2 : string) :
    denotes r1 s1 -> denotes r2 s2 -> denotes (Re.Seq r1 r2) (s1 +:+ s2)
| denotes_alt_l (r1 r2 : Re.regex) (s : string) :
    denotes r1 s -> denotes (Re.Alt r1 r2) s
| denotes_alt_r (r1 r2 : Re.regex) (s : string) :
    denotes r2 s -> denotes (Re.Alt r1 r2) s
| denotes_star_nil (r : Re.regex) : denotes (Re.Star r) EmptyString
| denotes_star_cons (r : Re.regex) (s1 s2 : string) :
    denotes r s1 -> denotes (Re.Star r) s2 -> denotes (Re.Star r) (s1 +:+ s2).

(** Every character of [s] is in the class [p]. *)
Fixpoint all_in (p : ascii -> bool) (s : string) : bool :=
  match s with
  | EmptyString => true
  | String c s' => p c && all_in p s'
  end.

(** The three character classes of the pattern of [validate_email]. *)
Definition local_char (c : ascii) : bool := is_alnum c || one_of "._%+-" c.
Definition domain_char (c : ascii) : bool := is_alnum c || one_of ".-" c.

(** A string of the form local@domain.tld, with at least two letters
    in the last part. *)
Definition address_shape (local domain tld : string) : Prop :=
  local <> EmptyString /\ all_in local_char local = true
  /\ domain <> EmptyString /\ all_in domain_char domain = true
  /\ (2 <= String.length tld)%nat /\ all_in is_alpha tld = true.

(** ** More vocabulary: the rows of the contacts file *)

(** What [validate_email] answers for an address. *)
Definition verdict (w : Collaborators) (address : string) : result bool :=
  fst (validate_email (gethostbyname w) address []).

(** The row reaches the validation: it is not before the start row and
    its status is neither SENT nor SKIP. *)
Definition examined (args : Args) (row : nat * Contact) : bool :=
  (arg_from_row args <=? Z.of_nat (fst row)) && negb (already_handled (snd row)).

(** The row reaches the validation and passes it. *)
Definition qualifies (w : Collaborators) (args : Args) (row : nat * Contact) : bool :=
  examined args row &&
  match verdict w (email (snd row)) with Return true => true | _ => false end.




(** A row of the log that reports an invalid email. *)
Definition is_invalid_email_row (row : LogEntry) : Prop :=
  log_status row = "ERROR" /\ log_info row = "Invalid email format".

(** ** More vocabulary: the rows of the log *)

(** The row [main] logs for a contact after its send. *)
Definition send_row (args : Args) (contact : Contact) (success : bool)
  (info timestamp : string) : LogEntry :=
  {| log_email := email contact; log_hotel_name := hotel_name contact;
     log_city := city contact; log_contact_name := greeting_name contact;
     log_status :=
       if success then (if negb (arg_dry_run args) then "SENT" else "DRY_RUN")
       else "ERROR";
     log_info := info; log_timestamp := timestamp |}.

(** The row reports a failure. *)
Definition reports_error (row : LogEntry) : bool :=
  String.eqb (log_status row) "ERROR".

(** The original indices of the contacts to send. *)
Definition original_indices (todo : list (nat * (nat * Contact))) : list nat :=
  (fun item => fst (snd item)) <$> todo.

(** What the list of contacts shows for a contact after the run, by the
    row logged for it: the contact as it was when the row reports an
    error or without [--update-contacts], the contact marked otherwise. *)
Definition settled (w : Collaborators) (args : Args)
  (contacts contacts' : list Contact) (item : nat * (nat * Contact))
  (row : LogEntry) : Prop :=
  log_email row = email (snd (snd item))
  /\ if reports_error row || negb (arg_update_contacts args)
     then contacts' !! fst (snd item) = contacts !! fst (snd item)
     else exists t : datetime w,
            contacts' !! fst (snd item)
            = mark_sent (strftime w t "%Y-%m-%d %H:%M:%S")
                <$> contacts !! fst (snd item).


(** [--attachment] names a file that is not there. *)
Definition attachment_missing (w : Collaborators) (args : Args) : bool :=
  match arg_attachment args with
  | Some path => truthy path && negb (path_exists w path)
  | None => false
  end.

(** A relay that delivers at the first attempt and times out at every
    later one. *)
Definition relay_once (_ : EnvVars) (_ : EmailMessage) (n : nat) : session :=
  match n with
  | O => Delivered
  | S _ => Raised (ConnectionError "timed out")
  end.

(** [sample_world] with another relay. *)
Definition sample_world_with (r : EnvVars -> EmailMessage -> nat -> session)
  : Collaborators :=
  {| relay := r;
     gethostbyname := gethostbyname sample_world;
     datetime := nat;
     clock := fun tr => length tr;
     isoformat := fun t => "T" +:+ Py.str_of_int (Z.of_nat t);
     strftime := fun t format => format +:+ "@" +:+ Py.str_of_int (Z.of_nat t);
     path_exists := fun _ => true;
     read_file := fun _ => "%PDF";
     basename := fun path => path;
     formataddr := fun name address => name +:+ " <" +:+ address +:+ ">";
     html_to_plain_text := fun html => html |}.

(** Three contacts: two to write to and one with an email that is not
    valid between them. *)
Definition sample_contacts : list Contact :=
  [sample_contact "a@good.com" "Anna" ""; sample_contact "bad" "" "";
   sample_contact "b@good.com" "" ""].

(** A run of [main] over [sample_contacts] with [--update-contacts]: the
    first contact is delivered, the second row is not valid, the third
    contact fails after three attempts. *)
Definition sample_run : result Stats * list event :=
  main (sample_world_with relay_once) (sample_args false true) sample_env
    "Hello {{contact_name}}" "<p>{{hotel_name}}, {{today}}</p>" sample_contacts [].

(** ** Configuration: [load_env_config] *)

(** [s.split(sep, 1)] for a separator of one character: the text before
    the first separator and the text after it, or [s] alone. *)
Fixpoint split_first (sep : ascii) (s : string) : list string :=
  match s with
  | EmptyString => [EmptyString]
  | String c s' =>
      if Ascii.eqb c sep then [EmptyString; s']
      else match split_first sep s' with
           | [] => [String c EmptyString]
           | piece :: pieces => String c piece :: pieces
           end
  end.

Definition required_vars : list string :=
  ["SMTP_HOST"; "SMTP_PORT"; "SMTP_USER"; "SMTP_PASS"; "SENDER_NAME"; "SENDER_EMAIL"].

(** The loop of [load_env_config] over the lines of the file; the
    unpacking [key, value = line.split("=", 1)] raises ValueError on a
    list that has not two elements. *)
Fixpoint read_env_lines (lines : list string) (env_vars : gmap string string)
  : M (gmap string string) :=
  match lines with
  | [] => ret env_vars
  | line :: lines' =>
      let line := Py.strip line in
      if truthy line && negb (Py.startswith "#" line) && Py.contains "=" line then
        match split_first "=" line with
        | [key; value] =>
            read_env_lines lines' (<[Py.strip key := Py.strip value]> env_vars)
        | _ => raise (OtherError "ValueError: not enough values to unpack")
        end
      else read_env_lines lines' env_vars
  end.

(** What opening a text file and iterating over it comes to: the lines
    of the file, or the exception that [open] or the decoding of the
    file raises (a directory at the path, no permission, bytes that are
    no UTF-8).  The loop of [load_env_config] works on a dictionary of
    its own, so an exception met after some lines shows as one met
    before the first. *)
Inductive reading :=
| Lines (lines : list string)
| ReadRaised (e : exception).

Section Configuration.

(** [os.environ], the file system, and what reading a text file comes
    to. *)
Variable environ : gmap string string.
Variable w : Collaborators.
Variable read_lines : string -> reading.

(** [load_env_config(env_path)].  Where [system_vars] becomes the
    result all its values are strings, so it is read as a dictionary of
    strings there. *)
Definition load_env_config (env_path : option string) : M (gmap string string) :=
  let system_vars := (fun var => (var, environ !! var)) <$> required_vars in
  if forallb (fun item => match snd item with
                          | Some value => truthy value
                          | None => false
                          end) system_vars
  then
    let env_vars : gmap string string :=
      list_to_map (omap (fun item => pair (fst item) <$> snd item) system_vars) in
    ret (<["SMTP_SSL" := default "true" (environ !! "SMTP_SSL")]> env_vars)
  else
    match env_path with
    | Some path =>
        if truthy path && path_exists w path then
          match read_lines path with
          | ReadRaised e => raise e
          | Lines lines =>
              let* env_vars := read_env_lines lines ∅ in
              let missing_vars :=
                List.filter (fun var => negb (bool_decide (is_Some (env_vars !! var))))
                  required_vars in
              match missing_vars with
              | [] => ret env_vars
              | _ => sys_exit 1
              end
          end
        else sys_exit 1
    | None => sys_exit 1
    end.

End Configuration.

(** ** The log file on disk *)

Module Disk.

(** A line of a CSV file written by [csv.DictWriter]: the header, a row
    of the log or a row of the contacts file. *)
Inductive line :=
| Header (fieldnames : list string)
| Row (entry : LogEntry)
| ContactRow (contact : Contact).

(** The files that exist, each with its lines.  A file is known by one
    name here; [located] below takes the paths of a run, of which two
    may name one file, to these names. *)
Definition files := gmap string (list line).

Definition fieldnames : list string :=
  ["email"; "hotel_name"; "city"; "contact_name"; "status"; "info"; "timestamp"].

(** [log_to_file] on the files: the file is opened for appending, which
    creates it when it is not there; the header is written when the file
    was not there before the call; the row is written. *)
Definition log_to_file (log_path : string) (entry : LogEntry) (disk : files) : files :=
  let file_exists := bool_decide (is_Some (disk !! log_path)) in
  let f := default [] (disk !! log_path) in
  let f := if negb file_exists then f ++ [Header fieldnames] else f in
  <[log_path := f ++ [Row entry]]> disk.

(** The calls of [log_to_file] of a trace, in their order, on the
    files; the other events of the trace are left aside here, [run]
    below applies the writes of the contacts file too. *)
Fixpoint replay (tr : list event) (disk : files) : files :=
  match tr with
  | [] => disk
  | LogRow log_path entry :: tr' => replay tr' (log_to_file log_path entry disk)
  | _ :: tr' => replay tr' disk
  end.

(** [save_contacts] on the files: the file is opened for writing, which
    empties it, or creates it when it is not there; the header and one
    row for each contact are written. *)
Definition save_contacts (csv_path : string) (contacts : list Contact)
  (fieldnames : list string) (disk : files) : files :=
  <[csv_path := Header fieldnames :: (ContactRow <$> contacts)]> disk.

(** All the writes of a trace, in their order, on the files: the calls
    of [log_to_file] and those of [save_contacts]; [fieldnames] is what
    [main] has read back from the contacts file as its field names
    before it saves. *)
Fixpoint run (fieldnames : list string) (tr : list event) (disk : files) : files :=
  match tr with
  | [] => disk
  | LogRow log_path entry :: tr' =>
      run fieldnames tr' (log_to_file log_path entry disk)
  | SaveContacts csv_path contacts :: tr' =>
      run fieldnames tr' (save_contacts csv_path contacts fieldnames disk)
  | _ :: tr' => run fieldnames tr' disk
  end.

End Disk.

(** The rows a trace appends to the log at [log_path], oldest first. *)
Fixpoint rows_at (log_path : string) (tr : list event) : list LogEntry :=
  match tr with
  | [] => []
  | LogRow path entry :: tr' =>
      if String.eqb path log_path then entry :: rows_at log_path tr'
      else rows_at log_path tr'
  | _ :: tr' => rows_at log_path tr'
  end.

(** An environment with the six required variables and no SMTP_SSL. *)
Definition sample_environ : gmap string string :=
  list_to_map [("SMTP_HOST", "smtp.gmail.com"); ("SMTP_PORT", "465");
               ("SMTP_USER", "me@gmail.com"); ("SMTP_PASS", "app-password");
               ("SENDER_NAME", "Me"); ("SENDER_EMAIL", "me@gmail.com");
               ("HOME", "/home/me")].

(** The event is no call of [log_to_file], or a call on [log_path]. *)
Definition logs_to (log_path : string) (ev : event) : Prop :=
  match ev with
  | LogRow path _ => path = log_path
  | _ => True
  end.

(** The event with its path replaced by the name of the file that the
    path leads to ([locate], the work of the file system: a relative
    path, a symbolic link). *)
Definition located (locate : string -> string) (ev : event) : event :=
  match ev with
  | LogRow path entry => LogRow (locate path) entry
  | SaveContacts path contacts => SaveContacts (locate path) contacts
  | ev => ev
  end.

(** * Properties *)

(** ** The trace *)

Lemma attempt_count_app (tr1 tr2 : list event) :
  attempt_count (tr1 ++ tr2) = (attempt_count tr1 + attempt_count tr2)%nat.
Proof.
  induction tr1 as [|ev tr1 IH]; simpl; [reflexivity|].
  rewrite IH. lia.
Qed.

Lemma log_rows_app (tr1 tr2 : list event) :
  log_rows (tr1 ++ tr2) = log_rows tr1 ++ log_rows tr2.
Proof.
  induction tr1 as [|ev tr1 IH]; simpl; [reflexivity|].
  destruct ev; simpl; rewrite IH; reflexivity.
Qed.

(** ** Delivery engine *)

Section DeliveryProperties.

Variable relay : EnvVars -> EmailMessage -> nat -> session.
Variable env_vars : EnvVars.
Variable msg : EmailMessage.

Lemma range_last (n : Z) : 1 <= n -> last (Py.range n) = Some (n - 1).
Proof.
  intros Hn. unfold Py.range.
  destruct (Z.to_nat n) as [|k] eqn:Hk; [lia|].
  rewrite seq_S, fmap_app. cbn [fmap list_fmap]. rewrite last_snoc.
  f_equal. lia.
Qed.

Lemma send_email_dry_run (tr : list event) :
  send_email relay env_vars msg true tr
  = (Return (true, "DRY RUN - Email not sent"), tr).
Proof. reflexivity. Qed.

Lemma send_email_delivered (tr : list event) :
  relay env_vars msg (attempt_count tr) = Delivered ->
  send_email relay env_vars msg false tr
  = (Return (true, "Email sent successfully"), tr ++ [SendAttempt msg]).
Proof. intros H. unfold send_email. rewrite H. reflexivity. Qed.

Lemma send_email_failed (tr : list event) (e : exception) (info : string) :
  relay env_vars msg (attempt_count tr) = Raised e ->
  failure_info e = Some info ->
  send_email relay env_vars msg false tr
  = (Return (false, info), tr ++ [SendAttempt msg]).
Proof. intros H Hi. unfold send_email. rewrite H, Hi. reflexivity. Qed.

(** A live call of [send_email] is exactly one attempt, whatever comes
    of it. *)
Lemma send_email_live_trace (tr : list event) :
  snd (send_email relay env_vars msg false tr) = tr ++ [SendAttempt msg].
Proof.
  unfold send_email.
  destruct (relay env_vars msg (attempt_count tr)) as [|e]; [reflexivity|].
  destruct (failure_info e); reflexivity.
Qed.

(** One turn of the loop, by the outcome of its attempt. *)
Lemma retry_loop_cons (dry_run : bool) (max_retries attempt : Z) (rest : list Z)
  (tr : list event) :
  retry_loop relay env_vars msg dry_run max_retries (attempt :: rest) tr =
  match send_email relay env_vars msg dry_run tr with
  | (Return (success, info), tr') =>
      if success then (Return (Some (success, info)), tr')
      else if is_auth_info info then (Return (Some (success, info)), tr')
      else if is_recipient_info info then (Return (Some (success, info)), tr')
      else if attempt <? max_retries - 1 then
        match time_sleep (5 * 2 ^ attempt) tr' with
        | (Return _, tr'') =>
            retry_loop relay env_vars msg dry_run max_retries rest tr''
        | (SysExit c, tr'') => (SysExit c, tr'')
        | (Raise e, tr'') => (Raise e, tr'')
        end
      else (Return (Some (false, "Failed after " +:+ Py.str_of_int max_retries
                                   +:+ " attempts: " +:+ info)), tr')
  | (SysExit c, tr') => (SysExit c, tr')
  | (Raise e, tr') => (Raise e, tr')
  end.
Proof.
  simpl. unfold bind at 1.
  destruct (send_email relay env_vars msg dry_run tr) as [[[success info]|c|e] tr'];
    try reflexivity.
  destruct success; [reflexivity|].
  destruct (is_auth_info info); [reflexivity|].
  destruct (is_recipient_info info); [reflexivity|].
  destruct (attempt <? max_retries - 1); reflexivity.
Qed.

(** The backoff sleeps up to the one after attempt 30 are within what
    [time.sleep] takes. *)
Lemma backoff_in_range (attempt : Z) :
  0 <= attempt <= 30 -> 0 <= 5 * 2 ^ attempt <= max_sleep.
Proof.
  intros Ha. assert (0 < 2 ^ attempt) by (apply Z.pow_pos_nonneg; lia).
  assert (2 ^ attempt <= 2 ^ 30) by (apply Z.pow_le_mono_r; lia).
  change (2 ^ 30) with 1073741824 in *. unfold max_sleep. lia.
Qed.

Lemma backoff_sleep (attempt : Z) (tr : list event) :
  0 <= attempt <= 30 ->
  time_sleep (5 * 2 ^ attempt) tr = (Return tt, tr ++ [Sleep (5 * 2 ^ attempt)]).
Proof.
  intros Ha. pose proof (backoff_in_range attempt Ha) as Hr. unfold time_sleep.
  destruct (5 * 2 ^ attempt <? 0) eqn:E; [lia|].
  destruct (max_sleep <? 5 * 2 ^ attempt) eqn:E'; [lia|reflexivity].
Qed.

(** [time.sleep] returns or raises; it never exits. *)
Lemma time_sleep_cases (seconds : Z) (tr : list event) :
  (0 <= seconds <= max_sleep
   /\ time_sleep seconds tr = (Return tt, tr ++ [Sleep seconds]))
  \/ ((seconds < 0 \/ max_sleep < seconds)
      /\ exists e, time_sleep seconds tr = (Raise e, tr)).
Proof.
  unfold time_sleep.
  destruct (seconds <? 0) eqn:E; [right; split; [lia|eexists; reflexivity]|].
  destruct (max_sleep <? seconds) eqn:E'; [right; split; [lia|eexists; reflexivity]|].
  left. split; [lia|reflexivity].
Qed.

(** A transient failure before the last attempt: sleep and go round again. *)
Lemma retry_loop_transient (max_retries attempt : Z) (rest : list Z)
  (tr : list event) (e : exception) (info : string) :
  relay env_vars msg (attempt_count tr) = Raised e ->
  failure_info e = Some info ->
  transient info = true ->
  0 <= attempt < max_retries - 1 ->
  attempt <= 30 ->
  retry_loop relay env_vars msg false max_retries (attempt :: rest) tr
  = retry_loop relay env_vars msg false max_retries rest
      (tr ++ [SendAttempt msg; Sleep (5 * 2 ^ attempt)]).
Proof.
  intros Hr Hi Ht Ha Ha'. rewrite retry_loop_cons.
  rewrite (send_email_failed tr e info Hr Hi).
  unfold transient in Ht. apply andb_true_iff in Ht as [H1 H2].
  apply negb_true_iff in H1, H2. rewrite H1, H2.
  destruct (attempt <? max_retries - 1) eqn:E; [|lia].
  rewrite backoff_sleep by lia.
  rewrite <- app_assoc. reflexivity.
Qed.

(** A transient failure of the last attempt ends the loop. *)
Lemma retry_loop_exhausted (max_retries attempt : Z) (rest : list Z)
  (tr : list event) (e : exception) (info : string) :
  relay env_vars msg (attempt_count tr) = Raised e ->
  failure_info e = Some info ->
  transient info = true ->
  max_retries - 1 <= attempt ->
  retry_loop relay env_vars msg false max_retries (attempt :: rest) tr
  = (Return (Some (false, "Failed after " +:+ Py.str_of_int max_retries
                            +:+ " attempts: " +:+ info)),
     tr ++ [SendAttempt msg]).
Proof.
  intros Hr Hi Ht Ha. rewrite retry_loop_cons.
  rewrite (send_email_failed tr e info Hr Hi).
  unfold transient in Ht. apply andb_true_iff in Ht as [H1 H2].
  apply negb_true_iff in H1, H2. rewrite H1, H2.
  destruct (attempt <? max_retries - 1) eqn:E; [lia|reflexivity].
Qed.

Lemma retry_loop_delivered (max_retries attempt : Z) (rest : list Z)
  (tr : list event) :
  relay env_vars msg (attempt_count tr) = Delivered ->
  retry_loop relay env_vars msg false max_retries (attempt :: rest) tr
  = (Return (Some (true, "Email sent successfully")), tr ++ [SendAttempt msg]).
Proof.
  intros Hr. rewrite retry_loop_cons, (send_email_delivered tr Hr). reflexivity.
Qed.

(** A failure that one of the two tests takes for permanent is returned
    at once. *)
Lemma retry_loop_permanent (max_retries attempt : Z) (rest : list Z)
  (tr : list event) (e : exception) (info : string) :
  relay env_vars msg (attempt_count tr) = Raised e ->
  failure_info e = Some info ->
  transient info = false ->
  retry_loop relay env_vars msg false max_retries (attempt :: rest) tr
  = (Return (Some (false, info)), tr ++ [SendAttempt msg]).
Proof.
  intros Hr Hi Ht. rewrite retry_loop_cons.
  rewrite (send_email_failed tr e info Hr Hi).
  unfold transient in Ht.
  destruct (is_auth_info info); [reflexivity|].
  destruct (is_recipient_info info); [reflexivity|discriminate].
Qed.

End DeliveryProperties.

(** ** The retry policy *)

(** The loop as a whole: [k] transient failures, then either a delivery
    (when attempts remain) or the end of the attempts. *)
Lemma retry_loop_schedule (relay : EnvVars -> EmailMessage -> nat -> session)
  (env_vars : EnvVars) (msg : EmailMessage) (max_retries : Z)
  (details : nat -> string) (k : nat) :
  forall (a : nat) (tr : list event),
  (forall i, (i < k)%nat ->
     exists e, relay env_vars msg (attempt_count tr + i)%nat = Raised e
               /\ failure_info e = Some (details (a + i)%nat)
               /\ transient (details (a + i)%nat) = true) ->
  Z.of_nat (a + k) < max_retries ->
  max_retries <= 32 ->
  relay env_vars msg (attempt_count tr + k)%nat = Delivered ->
  forall rest,
  retry_loop relay env_vars msg false max_retries
    ((Z.of_nat <$> seq a (S k)) ++ rest) tr
  = (Return (Some (true, "Email sent successfully")),
     tr ++ backoff msg (Z.of_nat a) k ++ [SendAttempt msg]).
Proof.
  induction k as [|k IH]; intros a tr Hfail Hlt Hmax Hok rest.
  - cbn [seq fmap list_fmap app]. rewrite Nat.add_0_r in Hok.
    rewrite (retry_loop_delivered relay env_vars msg _ _ _ tr Hok). reflexivity.
  - destruct (Hfail 0%nat ltac:(lia)) as (e & Hr & Hi & Ht).
    rewrite Nat.add_0_r in Hr, Hi, Ht.
    change (seq a (S (S k))) with (a :: seq (S a) (S k)).
    cbn [fmap list_fmap app].
    rewrite (retry_loop_transient relay env_vars msg _ _ _ tr e _ Hr Hi Ht) by lia.
    change (list_fmap nat Z Z.of_nat (seq (S a) (S k)))
      with (Z.of_nat <$> seq (S a) (S k)).
    rewrite IH.
    + cbn [backoff]. rewrite <- !app_assoc. simpl.
      replace (Z.of_nat a + 1) with (Z.of_nat (S a)) by lia. reflexivity.
    + intros i Hi'. destruct (Hfail (S i) ltac:(lia)) as (e' & Hr' & Hi'' & Ht').
      exists e'. rewrite attempt_count_app.
      replace (attempt_count tr + _ + i)%nat
        with (attempt_count tr + S i)%nat by (simpl; lia).
      replace (S a + i)%nat with (a + S i)%nat by lia. auto.
    + lia.
    + exact Hmax.
    + rewrite attempt_count_app.
      replace (attempt_count tr + _ + k)%nat
        with (attempt_count tr + S k)%nat by (simpl; lia).
      exact Hok.
Qed.

Lemma retry_loop_all_fail (relay : EnvVars -> EmailMessage -> nat -> session)
  (env_vars : EnvVars) (msg : EmailMessage) (max_retries : Z)
  (details : nat -> string) (k : nat) :
  forall (a : nat) (tr : list event),
  (forall i, (i <= k)%nat ->
     exists e, relay env_vars msg (attempt_count tr + i)%nat = Raised e
               /\ failure_info e = Some (details (a + i)%nat)
               /\ transient (details (a + i)%nat) = true) ->
  Z.of_nat (a + k) = max_retries - 1 ->
  max_retries <= 32 ->
  forall rest,
  retry_loop relay env_vars msg false max_retries
    ((Z.of_nat <$> seq a (S k)) ++ rest) tr
  = (Return (Some (false, "Failed after " +:+ Py.str_of_int max_retries
                            +:+ " attempts: " +:+ details (a + k)%nat)),
     tr ++ backoff msg (Z.of_nat a) k ++ [SendAttempt msg]).
Proof.
  induction k as [|k IH]; intros a tr Hfail Hlast Hmax rest.
  - destruct (Hfail 0%nat ltac:(lia)) as (e & Hr & Hi & Ht).
    rewrite Nat.add_0_r in Hr, Hi, Ht. cbn [seq fmap list_fmap app].
    rewrite (retry_loop_exhausted relay env_vars msg _ _ _ tr e _ Hr Hi Ht) by lia.
    rewrite Nat.add_0_r. reflexivity.
  - destruct (Hfail 0%nat ltac:(lia)) as (e & Hr & Hi & Ht).
    rewrite Nat.add_0_r in Hr, Hi, Ht.
    change (seq a (S (S k))) with (a :: seq (S a) (S k)).
    cbn [fmap list_fmap app].
    rewrite (retry_loop_transient relay env_vars msg _ _ _ tr e _ Hr Hi Ht) by lia.
    change (list_fmap nat Z Z.of_nat (seq (S a) (S k)))
      with (Z.of_nat <$> seq (S a) (S k)).
    rewrite IH.
    + cbn [backoff]. rewrite <- !app_assoc. simpl.
      replace (Z.of_nat a + 1) with (Z.of_nat (S a)) by lia.
      replace (S (a + k))%nat with (a + S k)%nat by lia. reflexivity.
    + intros i Hi'. destruct (Hfail (S i) ltac:(lia)) as (e' & Hr' & Hi'' & Ht').
      exists e'. rewrite attempt_count_app.
      replace (attempt_count tr + _ + i)%nat
        with (attempt_count tr + S i)%nat by (simpl; lia).
      replace (S a + i)%nat with (a + S i)%nat by lia. auto.
    + lia.
    + exact Hmax.
Qed.

(** An attempt list that ends with the last attempt number never lets
    the loop run to its end. *)
Lemma retry_loop_never_falls_through
  (relay : EnvVars -> EmailMessage -> nat -> session)
  (env_vars : EnvVars) (msg : EmailMessage) (dry_run : bool) (max_retries : Z)
  (attempts : list Z) :
  last attempts = Some (max_retries - 1) ->
  forall tr,
  (exists out tr',
     retry_loop relay env_vars msg dry_run max_retries attempts tr
     = (Return (Some out), tr'))
  \/ (exists e tr',
     retry_loop relay env_vars msg dry_run max_retries attempts tr
     = (Raise e, tr')).
Proof.
  induction attempts as [|attempt rest IH]; intros Hlast tr; [discriminate|].
  rewrite retry_loop_cons.
  destruct (send_email relay env_vars msg dry_run tr) as [[[success info]|c|e] tr'] eqn:Hs.
  - destruct success; [eauto|].
    destruct (is_auth_info info); [eauto|].
    destruct (is_recipient_info info); [eauto|].
    destruct (attempt <? max_retries - 1) eqn:E; [|eauto].
    destruct (time_sleep_cases (5 * 2 ^ attempt) tr') as [[_ ->]|[_ [e' ->]]];
      [|eauto].
    destruct rest as [|next rest'].
    + simpl in Hlast. injection Hlast as ->. lia.
    + apply IH. exact Hlast.
  - exfalso. unfold send_email in Hs. destruct dry_run; [discriminate|].
    destruct (relay env_vars msg (attempt_count tr)) as [|e]; [discriminate|].
    destruct (failure_info e); discriminate.
  - eauto.
Qed.

(** C9: with [max_retries >= 1] the loop of [send_email_with_retry] never
    runs to its end: it returns a value from inside the loop, which is the
    value of the function, or an exception leaves both (one that
    [send_email] does not catch, or the one of [time.sleep] for a pause
    it does not take); the trailing [return False, "Max retries
    exceeded"] is not reached. *)
Theorem send_email_with_retry_returns_in_loop
  (relay : EnvVars -> EmailMessage -> nat -> session)
  (env_vars : EnvVars) (msg : EmailMessage) (dry_run : bool) (max_retries : Z)
  (tr : list event) :
  1 <= max_retries ->
  fst (retry_loop relay env_vars msg dry_run max_retries
         (Py.range max_retries) tr) <> Return None
  /\ ((exists out tr',
         retry_loop relay env_vars msg dry_run max_retries
           (Py.range max_retries) tr = (Return (Some out), tr')
         /\ send_email_with_retry relay env_vars msg dry_run max_retries tr
            = (Return out, tr'))
      \/ (exists e tr',
         retry_loop relay env_vars msg dry_run max_retries
           (Py.range max_retries) tr = (Raise e, tr')
         /\ send_email_with_retry relay env_vars msg dry_run max_retries tr
            = (Raise e, tr'))).
Proof.
  intros Hmax.
  destruct (retry_loop_never_falls_through relay env_vars msg dry_run max_retries
              (Py.range max_retries) (range_last max_retries Hmax) tr)
    as [(out & tr' & H)|(e & tr' & H)].
  - split; [rewrite H; discriminate|].
    left. exists out, tr'. split; [exact H|].
    unfold send_email_with_retry, bind. rewrite H. reflexivity.
  - split; [rewrite H; discriminate|].
    right. exists e, tr'. split; [exact H|].
    unfold send_email_with_retry, bind. rewrite H. reflexivity.
Qed.

Lemma send_email_with_retry_returns_in_loop_witness :
  1 <= 3 /\
  fst (retry_loop relay_bad_login sample_env sample_msg false 3 (Py.range 3) [])
  <> Return None.
Proof.
  split; [lia|].
  apply (send_email_with_retry_returns_in_loop
           relay_bad_login sample_env sample_msg false 3 []).
  lia.
Defined.

(** With [max_retries = 0] the loop has no turn and the trailing return
    is what the function gives. *)
Example send_email_with_retry_no_attempts :
  send_email_with_retry relay_bad_login sample_env sample_msg false 0 []
  = (Return (false, "Max retries exceeded"), []).
Proof. reflexivity. Qed.

Lemma send_email_with_retry_dry_run
  (relay : EnvVars -> EmailMessage -> nat -> session)
  (env_vars : EnvVars) (msg : EmailMessage) (max_retries : Z) (tr : list event) :
  1 <= max_retries ->
  send_email_with_retry relay env_vars msg true max_retries tr
  = (Return (true, "DRY RUN - Email not sent"), tr).
Proof.
  intros Hmax. unfold send_email_with_retry, bind, Py.range.
  destruct (Z.to_nat max_retries) as [|k] eqn:Hk; [lia|].
  change (seq 0 (S k)) with (0%nat :: seq 1 k). cbn [fmap list_fmap].
  rewrite retry_loop_cons, send_email_dry_run. reflexivity.
Qed.

(** C7: in dry-run mode [send_email] returns success with the marker
    "DRY RUN - Email not sent" and leaves the trace as it was (no
    attempt, so no SMTP operation), and so does [send_email_with_retry] on its first attempt,
    without any sleep: with the three attempts of the default, and with
    any number of attempts from one on. *)
Theorem dry_run_transmits_nothing
  (relay : EnvVars -> EmailMessage -> nat -> session)
  (env_vars : EnvVars) (msg : EmailMessage) (tr : list event) :
  send_email relay env_vars msg true tr
  = (Return (true, "DRY RUN - Email not sent"), tr)
  /\ send_email_with_retry relay env_vars msg true 3 tr
     = (Return (true, "DRY RUN - Email not sent"), tr)
  /\ (forall max_retries, 1 <= max_retries ->
      send_email_with_retry relay env_vars msg true max_retries tr
      = (Return (true, "DRY RUN - Email not sent"), tr)).
Proof.
  split; [reflexivity|]. split.
  - apply send_email_with_retry_dry_run. lia.
  - intros max_retries Hmax. apply send_email_with_retry_dry_run, Hmax.
Qed.

Lemma dry_run_transmits_nothing_witness :
  1 <= 5 /\
  send_email_with_retry relay_bad_login sample_env sample_msg true 5 []
  = (Return (true, "DRY RUN - Email not sent"), []).
Proof.
  split; [lia|].
  apply (proj2 (proj2 (dry_run_transmits_nothing relay_bad_login sample_env
                         sample_msg [])) 5).
  lia.
Defined.

(** C1, at a relay that refuses the login at every attempt (and at one
    that refuses the recipient): the detail carries neither
    "Authentication" nor "auth", "recipient" or "address", so the failure
    is retried; three attempts are made, with sleeps of 5 and 10
    seconds, and the detail returned is the one of exhausted attempts. *)
Theorem refused_login_is_retried :
  transient ("Error de autenticación SMTP: " +:+ rejected_login) = true
  /\ send_email_with_retry relay_bad_login sample_env sample_msg false 3 []
     = (Return (false, "Failed after 3 attempts: Error de autenticación SMTP: "
                         +:+ rejected_login),
        [SendAttempt sample_msg; Sleep 5; SendAttempt sample_msg; Sleep 10;
         SendAttempt sample_msg])
  /\ send_email_with_retry relay_unknown_user sample_env sample_msg false 3 []
     = (Return (false, "Failed after 3 attempts: Error: destinatarios rechazados: "
                         +:+ unknown_user),
        [SendAttempt sample_msg; Sleep 5; SendAttempt sample_msg; Sleep 10;
         SendAttempt sample_msg]).
Proof. repeat split; vm_compute; reflexivity. Qed.

(** C4 as stated fails, in two ways.  A relay whose first two attempts
    raise a [ConnectionError] and whose third delivers, where the text
    of the error has the word "address" in it: the detail is taken for a
    recipient rejection and returned after the first attempt.  And a
    relay whose attempts all fail with a detail that is retried, with 33
    attempts allowed: after the 32nd the pause would be [5 * 2 ^ 31]
    seconds, which [time.sleep] refuses, and the [OverflowError] leaves
    [send_email_with_retry] where the claim has it return. *)
Lemma connection_error_naming_an_address_is_final :
  let text := "Connection to the relay address was reset" in
  let refused := "[Errno 111] Connection refused" in
  relay_flaky 2 text sample_env sample_msg 0 = Raised (ConnectionError text)
  /\ relay_flaky 2 text sample_env sample_msg 1 = Raised (ConnectionError text)
  /\ relay_flaky 2 text sample_env sample_msg 2 = Delivered
  /\ send_email_with_retry (relay_flaky 2 text) sample_env sample_msg false 3 []
     = (Return (false, "Error de conexión: " +:+ text), [SendAttempt sample_msg])
  /\ transient ("Error de conexión: " +:+ refused) = true
  /\ max_sleep < 5 * 2 ^ 31
  /\ exists tr',
       send_email_with_retry (relay_flaky 33 refused) sample_env sample_msg false 33 []
       = (Raise (OtherError
                   "OverflowError: timestamp too large to convert to C _PyTime_t"), tr')
       /\ attempt_count tr' = 32%nat.
Proof.
  repeat split; try (vm_compute; reflexivity).
  eexists. split; vm_compute; reflexivity.
Qed.

(** C4, amended: when the first two attempts raise a [ConnectionError]
    whose detail neither test takes for permanent and the third attempt
    delivers, [send_email_with_retry] with three attempts returns success
    after exactly three attempts, with a sleep of 5 seconds after the
    first and of 10 seconds after the second; and when every one of the
    [max_retries] attempts fails with such a detail, for [max_retries]
    from 1 to 32, the result is the failure "Failed after {max_retries}
    attempts: {last detail}", after [max_retries] attempts with the
    sleeps 5, 10, 20, ... between them.  (From 33 attempts on the sleep
    before the last one is longer than [time.sleep] takes.) *)
Theorem retry_backoff_schedule
  (relay : EnvVars -> EmailMessage -> nat -> session)
  (env_vars : EnvVars) (msg : EmailMessage) (tr : list event) :
  (forall e1 e2,
     relay env_vars msg (attempt_count tr) = Raised (ConnectionError e1) ->
     relay env_vars msg (attempt_count tr + 1)%nat = Raised (ConnectionError e2) ->
     relay env_vars msg (attempt_count tr + 2)%nat = Delivered ->
     transient ("Error de conexión: " +:+ e1) = true ->
     transient ("Error de conexión: " +:+ e2) = true ->
     send_email_with_retry relay env_vars msg false 3 tr
     = (Return (true, "Email sent successfully"),
        tr ++ [SendAttempt msg; Sleep 5; SendAttempt msg; Sleep 10;
               SendAttempt msg]))
  /\ (forall (max_retries : Z) (details : nat -> string),
     1 <= max_retries <= 32 ->
     (forall i, (i < Z.to_nat max_retries)%nat ->
        exists e, relay env_vars msg (attempt_count tr + i)%nat = Raised e
                  /\ failure_info e = Some (details i)
                  /\ transient (details i) = true) ->
     send_email_with_retry relay env_vars msg false max_retries tr
     = (Return (false, "Failed after " +:+ Py.str_of_int max_retries
                         +:+ " attempts: "
                         +:+ details (Z.to_nat max_retries - 1)%nat),
        tr ++ backoff msg 0 (Z.to_nat max_retries - 1) ++ [SendAttempt msg])).
Proof.
  split.
  - intros e1 e2 H0 H1 H2 T1 T2.
    pose (details := fun i : nat =>
            "Error de conexión: " +:+ (if (i =? 0)%nat then e1 else e2)).
    unfold send_email_with_retry, bind.
    change (Py.range 3) with ((Z.of_nat <$> seq 0 3) ++ []).
    rewrite (retry_loop_schedule relay env_vars msg 3 details 2 0 tr).
    + reflexivity.
    + intros i Hi. destruct i as [|[|i]]; [| |lia].
      * exists (ConnectionError e1). rewrite Nat.add_0_r. auto.
      * exists (ConnectionError e2). auto.
    + lia.
    + lia.
    + exact H2.
  - intros max_retries details Hmax Hfail.
    unfold send_email_with_retry, bind, Py.range.
    destruct (Z.to_nat max_retries) as [|k] eqn:Hk; [lia|].
    replace (S k - 1)%nat with k by lia.
    rewrite <- (app_nil_r (Z.of_nat <$> seq 0 (S k))).
    rewrite (retry_loop_all_fail relay env_vars msg max_retries details k 0 tr).
    + reflexivity.
    + intros i Hi. apply Hfail. lia.
    + lia.
    + lia.
Qed.

Lemma retry_backoff_schedule_witness :
  send_email_with_retry (relay_flaky 2 "[Errno 111] Connection refused")
    sample_env sample_msg false 3 []
  = (Return (true, "Email sent successfully"),
     [SendAttempt sample_msg; Sleep 5; SendAttempt sample_msg; Sleep 10;
      SendAttempt sample_msg])
  /\ send_email_with_retry (relay_flaky 3 "[Errno 111] Connection refused")
       sample_env sample_msg false 3 []
     = (Return (false, "Failed after 3 attempts: Error de conexión: [Errno 111] Connection refused"),
        [SendAttempt sample_msg; Sleep 5; SendAttempt sample_msg; Sleep 10;
         SendAttempt sample_msg]).
Proof.
  split.
  - apply (proj1 (retry_backoff_schedule
                    (relay_flaky 2 "[Errno 111] Connection refused")
                    sample_env sample_msg [])
             "[Errno 111] Connection refused" "[Errno 111] Connection refused");
      reflexivity.
  - apply (proj2 (retry_backoff_schedule
                    (relay_flaky 3 "[Errno 111] Connection refused")
                    sample_env sample_msg [])
             3 (fun _ => "Error de conexión: [Errno 111] Connection refused")).
    + lia.
    + intros i Hi. exists (ConnectionError "[Errno 111] Connection refused").
      destruct i as [|[|[|i]]]; [repeat split..|simpl in Hi; lia].
Defined.

(** ** Template renderer *)

Lemma append_nil (s : string) : EmptyString +:+ s = s.
Proof. reflexivity. Qed.

Lemma append_cons (c : ascii) (a s : string) :
  String c a +:+ s = String c (a +:+ s).
Proof. reflexivity. Qed.

Lemma append_assoc (a b c : string) : (a +:+ b) +:+ c = a +:+ (b +:+ c).
Proof.
  induction a as [|x a IH]; [reflexivity|].
  rewrite !append_cons, IH. reflexivity.
Qed.

Lemma startswith_append (p s : string) : Py.startswith p (p +:+ s) = true.
Proof.
  induction p as [|x p IH]; [reflexivity|].
  rewrite append_cons. simpl. rewrite Ascii.eqb_refl. exact IH.
Qed.

Lemma free_of_append (c : ascii) (a b : string) :
  free_of c (a +:+ b) = free_of c a && free_of c b.
Proof.
  induction a as [|x a IH]; [reflexivity|].
  rewrite append_cons. simpl. rewrite IH, andb_assoc. reflexivity.
Qed.

Lemma contains_append_r (sub a s : string) :
  Py.contains sub s = true -> Py.contains sub (a +:+ s) = true.
Proof.
  intros H. induction a as [|x a IH]; [exact H|].
  rewrite append_cons. simpl. rewrite IH. apply orb_true_r.
Qed.

Lemma contains_append_l (sub s : string) : Py.contains sub (sub +:+ s) = true.
Proof.
  destruct (sub +:+ s) eqn:E; simpl;
    rewrite <- E, startswith_append; reflexivity.
Qed.

(** *** The scan of [str.replace] *)

(** Jumping over what is left of a match. *)
Lemma replace_scan_skip (old new x s : string) :
  Py.replace_scan old new (x +:+ s) (String.length x) = Py.replace_scan old new s 0.
Proof.
  induction x as [|c x IH]; [reflexivity|].
  rewrite append_cons. simpl. exact IH.
Qed.

(** At a match the new text is emitted and the scan goes on behind it. *)
Lemma replace_scan_match (old new s : string) :
  old <> EmptyString ->
  Py.replace_scan old new (old +:+ s) 0 = new +:+ Py.replace_scan old new s 0.
Proof.
  intros Hne.
  pose proof (startswith_append old s) as Hp.
  destruct old as [|c old']; [congruence|].
  rewrite append_cons in *. cbn [Py.replace_scan]. rewrite Hp.
  replace (String.length (String c old') - 1)%nat with (String.length old')
    by (simpl; lia).
  rewrite replace_scan_skip. reflexivity.
Qed.

(** Where no match starts, the character is copied. *)
Lemma replace_scan_copy (old new : string) (c : ascii) (s : string) :
  Py.startswith old (String c s) = false ->
  Py.replace_scan old new (String c s) 0 = String c (Py.replace_scan old new s 0).
Proof. intros H. cbn [Py.replace_scan]. rewrite H. reflexivity. Qed.

Lemma free_of_cons (c0 c : ascii) (s : string) :
  free_of c0 (String c s) = true <-> Ascii.eqb c0 c = false /\ free_of c0 s = true.
Proof.
  simpl. rewrite andb_true_iff, negb_true_iff, (Ascii.eqb_sym c c0). reflexivity.
Qed.

Lemma brace_free_cons (c : ascii) (s : string) :
  brace_free (String c s) = true <->
  Ascii.eqb "{" c = false /\ Ascii.eqb "}" c = false /\ brace_free s = true.
Proof.
  unfold brace_free. rewrite !andb_true_iff, !free_of_cons. tauto.
Qed.

(** Text without the first character of the old string is copied. *)
Lemma replace_scan_text (c0 : ascii) (old' new t s : string) :
  free_of c0 t = true ->
  Py.replace_scan (String c0 old') new (t +:+ s) 0
  = t +:+ Py.replace_scan (String c0 old') new s 0.
Proof.
  induction t as [|c t IH]; intros Hfree; [reflexivity|].
  apply free_of_cons in Hfree as [Hc Ht].
  rewrite !append_cons, replace_scan_copy, (IH Ht); [reflexivity|].
  simpl. rewrite Hc. reflexivity.
Qed.

Lemma contains_text (c0 : ascii) (old' t s : string) :
  free_of c0 t = true ->
  Py.contains (String c0 old') (t +:+ s) = Py.contains (String c0 old') s.
Proof.
  induction t as [|c t IH]; intros Hfree; [reflexivity|].
  apply free_of_cons in Hfree as [Hc Ht].
  rewrite append_cons. cbn [Py.contains Py.startswith]. rewrite Hc. exact (IH Ht).
Qed.

(** Text whose opening braces stand alone is copied by the scan for a
    placeholder, and no placeholder starts in it. *)
Lemma single_braces_no_start (c : ascii) (t old' s : string) :
  single_braces (String c t) = true ->
  Py.startswith (String "{" (String "{" old')) (String c (t +:+ s)) = false.
Proof.
  cbn [single_braces]. intros H. apply andb_true_iff in H as [H _].
  cbn [Py.startswith]. rewrite (Ascii.eqb_sym "{" c).
  destruct (Ascii.eqb c "{"); [|reflexivity].
  destruct t as [|d t]; [discriminate|].
  rewrite append_cons. cbn [Py.startswith]. rewrite (Ascii.eqb_sym "{" d).
  apply negb_true_iff in H. rewrite H. reflexivity.
Qed.

Lemma single_braces_tail (c : ascii) (t : string) :
  single_braces (String c t) = true -> single_braces t = true.
Proof. cbn [single_braces]. intros H. apply andb_true_iff in H as [_ H]. exact H. Qed.

Lemma replace_scan_single_braces (old' new t s : string) :
  single_braces t = true ->
  Py.replace_scan (String "{" (String "{" old')) new (t +:+ s) 0
  = t +:+ Py.replace_scan (String "{" (String "{" old')) new s 0.
Proof.
  induction t as [|c t IH]; intros Ht; [reflexivity|].
  rewrite !append_cons, replace_scan_copy
    by (apply single_braces_no_start; exact Ht).
  rewrite (IH (single_braces_tail _ _ Ht)). reflexivity.
Qed.

Lemma contains_single_braces (old' t s : string) :
  single_braces t = true ->
  Py.contains (String "{" (String "{" old')) (t +:+ s)
  = Py.contains (String "{" (String "{" old')) s.
Proof.
  induction t as [|c t IH]; intros Ht; [reflexivity|].
  rewrite append_cons. cbn [Py.contains].
  rewrite (single_braces_no_start c t old' s Ht). cbn [orb].
  exact (IH (single_braces_tail _ _ Ht)).
Qed.

(** *** Placeholders in a template of pieces *)

Lemma placeholder_unfold (key : string) :
  placeholder key = String "{" (String "{" (key +:+ "}}")).
Proof. reflexivity. Qed.

Lemma placeholder_append (key s : string) :
  placeholder key +:+ s = String "{" (String "{" (key +:+ "}}" +:+ s)).
Proof. rewrite placeholder_unfold, !append_cons, append_assoc. reflexivity. Qed.

(** Two names without braces that differ are told apart before the
    closing braces of the shorter one end. *)
Lemma key_mismatch (k k' s : string) :
  brace_free k = true -> brace_free k' = true -> k <> k' ->
  Py.startswith (k +:+ "}}") (k' +:+ "}}" +:+ s) = false.
Proof.
  revert k'. induction k as [|c k IH]; intros [|c' k'] Hk Hk' Hne.
  - congruence.
  - apply brace_free_cons in Hk' as (_ & Hc & _).
    rewrite append_nil, !append_cons. cbn [Py.startswith]. rewrite Hc. reflexivity.
  - apply brace_free_cons in Hk as (_ & Hc & _).
    rewrite append_nil, !append_cons. cbn [Py.startswith].
    rewrite Ascii.eqb_sym, Hc. reflexivity.
  - apply brace_free_cons in Hk as (_ & _ & Hk).
    apply brace_free_cons in Hk' as (_ & _ & Hk').
    rewrite !append_cons. cbn [Py.startswith].
    destruct (Ascii.eqb c c') eqn:E; [|reflexivity].
    apply Ascii.eqb_eq in E. subst c'. apply IH; congruence.
Qed.

Lemma name_then_close_free (k : string) :
  brace_free k = true -> free_of "{" (k +:+ "}}") = true.
Proof.
  unfold brace_free. rewrite andb_true_iff, free_of_append. intros [H _].
  rewrite H. reflexivity.
Qed.

(** No placeholder starts at the second brace of another one. *)
Lemma no_match_inside (k k' s : string) :
  brace_free k' = true ->
  Py.startswith (placeholder k) (String "{" (k' +:+ "}}" +:+ s)) = false.
Proof.
  intros Hk'. rewrite placeholder_unfold. cbn [Py.startswith].
  rewrite Ascii.eqb_refl.
  destruct k' as [|c k']; [reflexivity|].
  apply brace_free_cons in Hk' as (Hc & _ & _).
  rewrite append_cons. cbn [Py.startswith]. rewrite Hc. reflexivity.
Qed.

Lemma replace_scan_other_hole (k k' new s : string) :
  brace_free k = true -> brace_free k' = true -> k <> k' ->
  Py.replace_scan (placeholder k) new (placeholder k' +:+ s) 0
  = placeholder k' +:+ Py.replace_scan (placeholder k) new s 0.
Proof.
  intros Hk Hk' Hne. rewrite !placeholder_append.
  rewrite replace_scan_copy.
  2:{ rewrite placeholder_unfold. cbn [Py.startswith]. rewrite !Ascii.eqb_refl.
      apply key_mismatch; assumption. }
  rewrite replace_scan_copy by (apply no_match_inside; exact Hk').
  do 2 f_equal.
  rewrite <- !append_assoc, placeholder_unfold.
  apply replace_scan_text, name_then_close_free, Hk'.
Qed.

Lemma contains_other_hole (k k' s : string) :
  brace_free k = true -> brace_free k' = true -> k <> k' ->
  Py.contains (placeholder k) (placeholder k' +:+ s)
  = Py.contains (placeholder k) s.
Proof.
  intros Hk Hk' Hne. rewrite placeholder_append.
  cbn [Py.contains].
  rewrite (no_match_inside k k' s Hk').
  replace (Py.startswith (placeholder k)
             (String "{" (String "{" (k' +:+ "}}" +:+ s)))) with false.
  2:{ rewrite placeholder_unfold. cbn [Py.startswith]. rewrite !Ascii.eqb_refl.
      symmetry. apply key_mismatch; assumption. }
  simpl orb.
  rewrite <- append_assoc, placeholder_unfold.
  apply contains_text, name_then_close_free, Hk'.
Qed.

Lemma replace_placeholder (key new s : string) :
  Py.replace (placeholder key) new s = Py.replace_scan (placeholder key) new s 0.
Proof. reflexivity. Qed.

Lemma fill_single (k v key : string) :
  fill [(k, v)] (Hole key) = if String.eqb k key then Text v else Hole key.
Proof. simpl. destruct (String.eqb k key); reflexivity. Qed.

(** One [str.replace] of a placeholder fills the holes of that name. *)
Lemma replace_flatten (k v : string) (ps : list piece) :
  brace_free k = true -> forallb piece_ok ps = true ->
  Py.replace (placeholder k) v (flatten ps) = flatten (fill [(k, v)] <$> ps).
Proof.
  intros Hk. rewrite replace_placeholder.
  induction ps as [|p ps IH]; intros Hps; [reflexivity|].
  cbn [forallb] in Hps. apply andb_true_iff in Hps as [Hp Hps].
  cbn [fmap list_fmap flatten]. fold (fill [(k, v)] <$> ps).
  rewrite <- (IH Hps). destruct p as [t|k'].
  - cbn [fill piece_text]. rewrite placeholder_unfold.
    apply replace_scan_single_braces. exact Hp.
  - rewrite fill_single. cbn [piece_text].
    destruct (String.eqb k k') eqn:E.
    + apply String.eqb_eq in E. subst k'. cbn [piece_text].
      apply replace_scan_match. rewrite placeholder_unfold. discriminate.
    + apply String.eqb_neq in E. cbn [piece_text].
      apply replace_scan_other_hole; assumption.
Qed.

(** A placeholder occurs in a template of pieces exactly when one of
    the pieces is a hole of that name. *)
Lemma contains_flatten (k : string) (ps : list piece) :
  brace_free k = true -> forallb piece_ok ps = true ->
  Py.contains (placeholder k) (flatten ps) = existsb (is_hole k) ps.
Proof.
  intros Hk. induction ps as [|p ps IH]; intros Hps; [reflexivity|].
  cbn [forallb] in Hps. apply andb_true_iff in Hps as [Hp Hps].
  cbn [flatten existsb]. rewrite <- (IH Hps). destruct p as [t|k'].
  - cbn [is_hole piece_text]. rewrite placeholder_unfold.
    apply contains_single_braces. exact Hp.
  - cbn [is_hole piece_text]. destruct (String.eqb k' k) eqn:E.
    + apply String.eqb_eq in E. subst k'. apply contains_append_l.
    + apply String.eqb_neq in E. apply contains_other_hole; auto.
Qed.

Lemma contains_text_piece (v : string) (ps : list piece) :
  In (Text v) ps -> Py.contains v (flatten ps) = true.
Proof.
  induction ps as [|p ps IH]; intros Hin; [destruct Hin|].
  cbn [flatten]. destruct Hin as [->|Hin].
  - apply contains_append_l.
  - apply contains_append_r, IH, Hin.
Qed.

(** *** The context *)

Lemma assoc_unique (context : list (string * string)) (k v : string) :
  NoDup (context.*1) -> In (k, v) context -> assoc k context = Some v.
Proof.
  induction context as [|[k0 v0] context IH]; intros Hnd Hin; [destruct Hin|].
  cbn [fmap list_fmap fst] in Hnd. apply NoDup_cons in Hnd as [Hfresh Hnd].
  cbn [assoc]. destruct Hin as [E|Hin].
  - injection E as -> ->. rewrite String.eqb_refl. reflexivity.
  - destruct (String.eqb k0 k) eqn:E; [|exact (IH Hnd Hin)].
    apply String.eqb_eq in E. subst k0. exfalso. apply Hfresh.
    apply list_elem_of_In. change k with (fst (k, v)). apply in_map, Hin.
Qed.

Lemma assoc_some (context : list (string * string)) (k v : string) :
  assoc k context = Some v -> In (k, v) context.
Proof.
  induction context as [|[k0 v0] context IH]; intros H; [discriminate|].
  cbn [assoc] in H. destruct (String.eqb k0 k) eqn:E.
  - apply String.eqb_eq in E. injection H as ->. subst. left. reflexivity.
  - right. exact (IH H).
Qed.

Lemma assoc_none (context : list (string * string)) (k v : string) :
  assoc k context = None -> ~ In (k, v) context.
Proof.
  induction context as [|[k0 v0] context IH]; intros H Hin; [destruct Hin|].
  cbn [assoc] in H. destruct (String.eqb k0 k) eqn:E; [discriminate|].
  destruct Hin as [E'|Hin]; [|exact (IH H Hin)].
  injection E' as -> ->. rewrite String.eqb_refl in E. discriminate.
Qed.

(** The order of the entries does not change what a key is bound to. *)
Lemma assoc_permutation (context context' : list (string * string)) (key : string) :
  NoDup (context.*1) -> context ≡ₚ context' ->
  assoc key context = assoc key context'.
Proof.
  intros Hnd Hperm. induction Hperm as [|[k v] l l' Hp IH|[k1 v1] [k2 v2] l|l l' l'' H1 IH1 H2 IH2].
  - reflexivity.
  - cbn [fmap list_fmap fst] in Hnd. apply NoDup_cons in Hnd as [_ Hnd].
    cbn [assoc]. rewrite (IH Hnd). reflexivity.
  - cbn [fmap list_fmap fst] in Hnd. apply NoDup_cons in Hnd as [Hfresh _].
    cbn [assoc].
    destruct (String.eqb k1 key) eqn:E1, (String.eqb k2 key) eqn:E2; try reflexivity.
    apply String.eqb_eq in E1, E2. subst. exfalso. apply Hfresh. left.
  - rewrite (IH1 Hnd). apply IH2. rewrite <- H1. exact Hnd.
Qed.

Lemma fill_cons (k v : string) (context : list (string * string)) (p : piece) :
  fill ((k, v) :: context) p = fill context (fill [(k, v)] p).
Proof.
  destruct p as [t|key]; [reflexivity|].
  rewrite fill_single. cbn [fill assoc].
  destruct (String.eqb k key); reflexivity.
Qed.

Lemma fill_nil (p : piece) : fill [] p = p.
Proof. destruct p; reflexivity. Qed.

Lemma fill_ok (context : list (string * string)) (ps : list piece) :
  forallb entry_ok context = true -> forallb piece_ok ps = true ->
  forallb piece_ok (fill context <$> ps) = true.
Proof.
  intros Hctx. induction ps as [|p ps IH]; intros Hps; [reflexivity|].
  cbn [forallb] in Hps. apply andb_true_iff in Hps as [Hp Hps].
  cbn [fmap list_fmap forallb]. fold (fill context <$> ps).
  rewrite (IH Hps), andb_true_r.
  destruct p as [t|key]; [exact Hp|].
  cbn [fill]. destruct (assoc key context) as [v|] eqn:E; [|exact Hp].
  apply assoc_some in E. rewrite forallb_forall in Hctx.
  specialize (Hctx _ E). unfold entry_ok in Hctx.
  apply andb_true_iff in Hctx as [_ Hv]. exact Hv.
Qed.

(** On a template of pieces the replacements, one key after the other,
    amount to the substitution in one pass. *)
Lemma render_one_pass (context : list (string * string)) :
  forall ps : list piece,
  forallb piece_ok ps = true -> forallb entry_ok context = true ->
  render_template (flatten ps) context = flatten (fill context <$> ps).
Proof.
  induction context as [|[k v] context IH]; intros ps Hps Hctx.
  - unfold render_template. cbn [fold_left]. f_equal.
    induction ps as [|p ps IHps]; [reflexivity|].
    cbn [fmap list_fmap]. rewrite fill_nil. f_equal.
    cbn [forallb] in Hps. apply andb_true_iff in Hps as [_ Hps]. exact (IHps Hps).
  - cbn [forallb] in Hctx. apply andb_true_iff in Hctx as [Hkv Hctx].
    pose proof Hkv as Hkv'. unfold entry_ok in Hkv'.
    apply andb_true_iff in Hkv' as [Hk Hv]. cbn [fst snd] in Hk, Hv.
    unfold render_template. cbn [fold_left].
    rewrite (replace_flatten k v ps Hk Hps).
    fold (render_template (flatten (fill [(k, v)] <$> ps)) context).
    rewrite IH; [|apply fill_ok; [cbn [forallb]; rewrite Hkv|]; auto|exact Hctx].
    f_equal. rewrite <- list_fmap_compose. apply list_fmap_ext.
    intros i p _. cbn. symmetry. apply fill_cons.
Qed.

Lemma no_hole_after_fill (context : list (string * string)) (key value : string)
  (ps : list piece) :
  In (key, value) context -> existsb (is_hole key) (fill context <$> ps) = false.
Proof.
  intros Hin. induction ps as [|p ps IH]; [reflexivity|].
  cbn [fmap list_fmap existsb]. fold (fill context <$> ps). rewrite IH, orb_false_r.
  destruct p as [t|k]; [reflexivity|].
  cbn [fill]. destruct (assoc k context) as [v|] eqn:E; [reflexivity|].
  cbn [is_hole]. destruct (String.eqb k key) eqn:Ek; [|reflexivity].
  apply String.eqb_eq in Ek. subst k. exfalso. exact (assoc_none _ _ value E Hin).
Qed.

Lemma hole_found (key : string) (ps : list piece) :
  existsb (is_hole key) ps = true -> In (Hole key) ps.
Proof.
  intros H. apply existsb_exists in H as (p & Hin & Hp).
  destruct p as [t|k]; [discriminate|].
  cbn [is_hole] in Hp. apply String.eqb_eq in Hp. subst k. exact Hin.
Qed.

(** C3 as stated fails: a value that is itself the placeholder of its
    key stays in the result; with a value that is the placeholder of
    another key the result depends on the order of the two entries (and
    one value is not in it); braces around a placeholder make a new one
    out of a value without braces; so does an opening brace that ends
    the text before a placeholder, or ends a value, and so do two
    opening braces in the text further to the left when the value is
    empty, and the result depends on the order again; and with braces
    in a key the placeholders overlap, so that no order gives all the
    values. *)
Lemma render_template_value_with_placeholder :
  Py.contains (placeholder "a") "{{a}}" = true
  /\ Py.contains (placeholder "a") (render_template "{{a}}" [("a", "{{a}}")]) = true
  /\ render_template "{{a}} {{b}}" [("a", "{{b}}"); ("b", "x")] = "x x"
  /\ Py.contains "{{b}}" "x x" = false
  /\ render_template "{{a}} {{b}}" [("b", "x"); ("a", "{{b}}")] = "{{b}} x"
  /\ render_template "{{{{a}}}}" [("a", "a")] = "{{a}}"
  /\ flatten [Text "{"; Hole "a"; Text "{b}} "; Hole "b"] = "{{{a}}{b}} {{b}}"
  /\ render_template "{{{a}}{b}} {{b}}" [("a", ""); ("b", "y")] = "y y"
  /\ render_template "{{{a}}{b}} {{b}}" [("b", "y"); ("a", "")] = "{{b}} y"
  /\ flatten [Hole "a"; Text "{b}} "; Hole "b"] = "{{a}}{b}} {{b}}"
  /\ render_template "{{a}}{b}} {{b}}" [("a", "{"); ("b", "y")] = "y y"
  /\ render_template "{{a}}{b}} {{b}}" [("b", "y"); ("a", "{")] = "{{b}} y"
  /\ flatten [Text "{{a"; Hole "k"; Text "b}} "; Hole "ab"] = "{{a{{k}}b}} {{ab}}"
  /\ render_template "{{a{{k}}b}} {{ab}}" [("k", ""); ("ab", "Z")] = "Z Z"
  /\ render_template "{{a{{k}}b}} {{ab}}" [("ab", "Z"); ("k", "")] = "{{ab}} Z"
  /\ Py.contains (placeholder "a}}{{b") "{{a}}{{b}}" = true
  /\ Py.contains (placeholder "a") "{{a}}{{b}}" = true
  /\ Py.contains (placeholder "b") "{{a}}{{b}}" = true
  /\ render_template "{{a}}{{b}}" [("a}}{{b", "x"); ("a", "1"); ("b", "2")] = "x"
  /\ render_template "{{a}}{{b}}" [("a", "1"); ("b", "2"); ("a}}{{b", "x")] = "12".
Proof. repeat split; vm_compute; reflexivity. Qed.

(** C3, amended: for a template made of literal text whose opening
    braces stand alone (none followed by another one, none at the end
    of the text) and of placeholders whose names have no brace, and a
    context of distinct keys without braces and of values whose opening
    braces stand alone, the result of [render_template] has no
    placeholder of a key of the context left, contains the value of
    every key whose placeholder occurs in the template, does not depend
    on the order of the entries, and is the substitution of the values
    in one pass. *)
Theorem render_template_on_pieces (ps : list piece)
  (context : list (string * string)) :
  forallb piece_ok ps = true ->
  forallb entry_ok context = true ->
  NoDup (context.*1) ->
  (forall key value, In (key, value) context ->
     Py.contains (placeholder key) (render_template (flatten ps) context) = false)
  /\ (forall key value, In (key, value) context ->
     Py.contains (placeholder key) (flatten ps) = true ->
     Py.contains value (render_template (flatten ps) context) = true)
  /\ (forall context', context ≡ₚ context' ->
     render_template (flatten ps) context' = render_template (flatten ps) context)
  /\ render_template (flatten ps) context = flatten (fill context <$> ps).
Proof.
  intros Hps Hctx Hnd.
  pose proof (render_one_pass context ps Hps Hctx) as Hone.
  pose proof (fill_ok context ps Hctx Hps) as Hok.
  assert (Hkey : forall key value, In (key, value) context -> brace_free key = true).
  { intros key value Hin. rewrite forallb_forall in Hctx.
    specialize (Hctx _ Hin). unfold entry_ok in Hctx.
    apply andb_true_iff in Hctx as [Hk _]. exact Hk. }
  repeat split.
  - intros key value Hin. rewrite Hone.
    rewrite (contains_flatten key _ (Hkey _ _ Hin) Hok).
    exact (no_hole_after_fill context key value ps Hin).
  - intros key value Hin Hocc. rewrite Hone.
    rewrite (contains_flatten key ps (Hkey _ _ Hin) Hps) in Hocc.
    apply hole_found in Hocc. apply contains_text_piece.
    apply (in_map (fill context)) in Hocc.
    cbn [fill] in Hocc. rewrite (assoc_unique context key value Hnd Hin) in Hocc.
    exact Hocc.
  - intros context' Hperm.
    assert (Hctx' : forallb entry_ok context' = true).
    { rewrite forallb_forall in *. intros kv Hin. apply Hctx.
      apply list_elem_of_In. rewrite Hperm. apply list_elem_of_In, Hin. }
    rewrite Hone, (render_one_pass context' ps Hps Hctx').
    f_equal. apply list_fmap_ext. intros i p _.
    destruct p as [t|key]; [reflexivity|].
    cbn [fill]. rewrite (assoc_permutation context context' key Hnd Hperm).
    reflexivity.
  - exact Hone.
Qed.

Lemma render_template_on_pieces_witness :
  let ps := [Text "<style>p { margin: 0 }</style><p>Hello "; Hole "name";
             Text ", welcome to "; Hole "city"; Text "! {}</p>"] in
  let context := [("name", "Mario {Rossi}"); ("city", "Milano")] in
  flatten ps
  = "<style>p { margin: 0 }</style><p>Hello {{name}}, welcome to {{city}}! {}</p>"
  /\ render_template (flatten ps) context
     = "<style>p { margin: 0 }</style><p>Hello Mario {Rossi}, welcome to Milano! {}</p>"
  /\ Py.contains (placeholder "city") (render_template (flatten ps) context) = false
  /\ Py.contains "Milano" (render_template (flatten ps) context) = true
  /\ render_template (flatten ps) [("city", "Milano"); ("name", "Mario {Rossi}")]
     = render_template (flatten ps) context.
Proof.
  intros ps context.
  assert (Hnd : NoDup (context.*1)).
  { repeat constructor; simpl; rewrite ?list_elem_of_In; simpl; intuition discriminate. }
  destruct (render_template_on_pieces ps context eq_refl eq_refl Hnd)
    as (Hgone & Hthere & Horder & _).
  split; [reflexivity|]. split; [reflexivity|]. split; [|split].
  - apply (Hgone "city" "Milano"). right. left. reflexivity.
  - apply (Hthere "city" "Milano"); [right; left; reflexivity|reflexivity].
  - apply Horder. apply Permutation_swap.
Defined.

(** ** Contact filter *)

Section FilterProperties.

Variable w : Collaborators.
Variable args : Args.

Lemma validate_email_trace (email : string) (tr : list event) :
  snd (validate_email (gethostbyname w) email tr) = tr.
Proof.
  unfold validate_email.
  destruct (negb (Re.match_anchored email_pattern email)); [reflexivity|].
  destruct (split_char "@" email !! 1%nat) as [domain|]; [|reflexivity].
  destruct (gethostbyname w domain) as [a|[]]; reflexivity.
Qed.

(** What the validation answers does not depend on the trace. *)
Lemma validate_email_pure (email : string) (tr tr' : list event) :
  fst (validate_email (gethostbyname w) email tr)
  = fst (validate_email (gethostbyname w) email tr').
Proof.
  unfold validate_email.
  destruct (negb (Re.match_anchored email_pattern email)); [reflexivity|].
  destruct (split_char "@" email !! 1%nat) as [domain|]; [|reflexivity].
  destruct (gethostbyname w domain) as [a|[]]; reflexivity.
Qed.

Lemma validate_email_rejects (email : string) (tr : list event) :
  Re.match_anchored email_pattern email = false
  \/ (exists domain text,
        split_char "@" email !! 1%nat = Some domain
        /\ gethostbyname w domain = LookupRaised (gaierror text)) ->
  validate_email (gethostbyname w) email tr = (Return false, tr).
Proof.
  unfold validate_email. intros [Hre|(domain & text & Hsplit & Hdns)].
  - rewrite Hre. reflexivity.
  - destruct (negb (Re.match_anchored email_pattern email)); [reflexivity|].
    rewrite Hsplit, Hdns. reflexivity.
Qed.

(** The body of the filter loop, by cases. *)
Lemma filter_body_skips (idx : nat) (contact : Contact)
  (contacts_to_send : list (nat * Contact)) (tr : list event) :
  Z.of_nat idx < arg_from_row args \/ already_handled contact = true ->
  filter_body w args idx contact contacts_to_send tr
  = (Return (Continue contacts_to_send), tr).
Proof.
  intros H. unfold filter_body.
  destruct (Z.of_nat idx <? arg_from_row args) eqn:E; [reflexivity|].
  destruct H as [H|H]; [lia|]. rewrite H. reflexivity.
Qed.

Lemma filter_body_validates (idx : nat) (contact : Contact)
  (contacts_to_send : list (nat * Contact)) (tr : list event) :
  arg_from_row args <= Z.of_nat idx -> already_handled contact = false ->
  filter_body w args idx contact contacts_to_send tr =
  match fst (validate_email (gethostbyname w) (email contact) tr) with
  | Return true =>
      let contacts_to_send := contacts_to_send ++ [(idx, contact)] in
      (Return (if max_reached args (length contacts_to_send)
               then Break contacts_to_send else Continue contacts_to_send), tr)
  | Return false =>
      (Return (Continue contacts_to_send),
       tr ++ [ClockRead;
              LogRow (arg_log args)
                (invalid_email_row contact (isoformat w (clock w tr)))])
  | SysExit c => (SysExit c, tr)
  | Raise e => (Raise e, tr)
  end.
Proof.
  intros Hrow Hnew. unfold filter_body.
  destruct (Z.of_nat idx <? arg_from_row args) eqn:E; [lia|].
  rewrite Hnew. unfold bind at 1.
  pose proof (validate_email_trace (email contact) tr) as Htr.
  destruct (validate_email (gethostbyname w) (email contact) tr) as [[[|]|c|e] tr0];
    cbn [fst snd] in *; subst tr0; try reflexivity.
  - destruct (max_reached args _); reflexivity.
  - cbn. unfold bind, datetime_now, log_to_file, emit, ret.
    rewrite <- app_assoc. reflexivity.
Qed.

Lemma filter_loop_cons (idx : nat) (contact : Contact) (rest : list (nat * Contact))
  (contacts_to_send : list (nat * Contact)) (tr : list event) :
  filter_loop w args ((idx, contact) :: rest) contacts_to_send tr =
  match filter_body w args idx contact contacts_to_send tr with
  | (Return (Continue contacts_to_send), tr') =>
      filter_loop w args rest contacts_to_send tr'
  | (Return (Break contacts_to_send), tr') => (Return contacts_to_send, tr')
  | (SysExit c, tr') => (SysExit c, tr')
  | (Raise e, tr') => (Raise e, tr')
  end.
Proof.
  cbn [filter_loop]. unfold bind at 1.
  destruct (filter_body w args idx contact contacts_to_send tr) as [[[?|?]|?|?] ?];
    reflexivity.
Qed.

(** The selection is the one the rest of the loop came to when the
    current row has left it as it was. *)
Ltac from_later_rows IH Hrun Hin :=
  let H := fresh in
  let H' := fresh in
  destruct (IH _ _ _ _ Hrun _ _ Hin) as [H|(H & H')];
  [left; exact H|right; split; [right; exact H|exact H']].

(** Whoever is selected was selected before or is a row from the start
    row on, not yet handled, with an email that passes the validation. *)
Lemma filter_loop_selected (rows : list (nat * Contact)) :
  forall (contacts_to_send selected : list (nat * Contact)) (tr tr' : list event),
  filter_loop w args rows contacts_to_send tr = (Return selected, tr') ->
  forall idx contact, In (idx, contact) selected ->
  In (idx, contact) contacts_to_send
  \/ (In (idx, contact) rows
      /\ arg_from_row args <= Z.of_nat idx
      /\ already_handled contact = false
      /\ forall tr0, fst (validate_email (gethostbyname w) (email contact) tr0)
                     = Return true).
Proof.
  induction rows as [|[i c] rows IH]; intros acc selected tr tr' Hrun idx contact Hin.
  - cbn in Hrun. injection Hrun as <- <-. left. exact Hin.
  - rewrite filter_loop_cons in Hrun.
    destruct (Z.of_nat i <? arg_from_row args) eqn:Erow.
    { rewrite filter_body_skips in Hrun by (left; lia). from_later_rows IH Hrun Hin. }
    destruct (already_handled c) eqn:Eh.
    { rewrite filter_body_skips in Hrun by (right; exact Eh).
      from_later_rows IH Hrun Hin. }
    rewrite filter_body_validates in Hrun by (lia || exact Eh).
    destruct (fst (validate_email (gethostbyname w) (email c) tr)) as [[|]|?|?] eqn:Ev;
      try discriminate.
    + assert (Hmine : In (idx, contact) (acc ++ [(i, c)]) ->
                In (idx, contact) acc \/
                In (idx, contact) ((i, c) :: rows) /\
                arg_from_row args <= Z.of_nat idx /\
                already_handled contact = false /\
                (forall tr0, fst (validate_email (gethostbyname w) (email contact) tr0)
                             = Return true)).
      { intros H. apply in_app_or in H as [H|[H|[]]]; [left; exact H|].
        injection H as <- <-. right. split; [left; reflexivity|].
        split; [lia|]. split; [exact Eh|].
        intros tr0. rewrite <- Ev. apply validate_email_pure. }
      cbn zeta in Hrun. destruct (max_reached args _).
      * injection Hrun as <- <-. apply Hmine, Hin.
      * destruct (IH _ _ _ _ Hrun idx contact Hin) as [H|(H & H')];
          [apply Hmine, H|].
        right. split; [right; exact H|exact H'].
    + from_later_rows IH Hrun Hin.
Qed.

End FilterProperties.

Lemma enumerate_lookup {A : Type} (l : list A) :
  forall (start i : nat) (x : A),
  In (i, x) (enumerate start l) -> (start <= i)%nat /\ l !! (i - start)%nat = Some x.
Proof.
  induction l as [|y l IH]; intros start i x Hin; [destruct Hin|].
  cbn [enumerate] in Hin. destruct Hin as [E|Hin].
  - injection E as <- <-. split; [lia|]. rewrite Nat.sub_diag. reflexivity.
  - apply IH in Hin as [Hle Hl]. split; [lia|].
    replace (i - start)%nat with (S (i - S start)) by lia. exact Hl.
Qed.

Lemma length_enumerate {A : Type} (l : list A) (start : nat) :
  length (enumerate start l) = length l.
Proof.
  revert start. induction l as [|x l IH]; intros start; [reflexivity|].
  cbn [enumerate length]. f_equal. apply IH.
Qed.

(** ** Send loop *)

Section SendProperties.

Variable w : Collaborators.
Variable args : Args.
Variable env_vars : EnvVars.
Variables subject_template html_template today : string.

(** Every turn of the send loop counts its contact once, as sent or as
    failed. *)
Lemma send_body_counts (total idx original_idx : nat) (contact : Contact)
  (contacts contacts' : list Contact) (stats stats' : Stats) (tr tr' : list event) :
  send_body w args env_vars subject_template html_template today total idx
    original_idx contact contacts stats tr = (Return (contacts', stats'), tr') ->
  stats' = with_sent stats \/ stats' = with_failed stats.
Proof.
  unfold send_body, bind, datetime_now, log_to_file, emit, ret.
  destruct (send_email_with_retry _ _ _ _ _ tr) as [[[success info]|c|e] tr1];
    [|discriminate..].
  destruct success.
  - destruct (arg_update_contacts args);
      (destruct (idx <? total)%nat;
       [unfold time_sleep, raise, emit; destruct (arg_sleep args <? 0);
        [|destruct (max_sleep <? arg_sleep args)]|];
       intros H; try discriminate; injection H as <- <- <-; left; reflexivity).
  - destruct (idx <? total)%nat;
      [unfold time_sleep, raise, emit; destruct (arg_sleep args <? 0);
        [|destruct (max_sleep <? arg_sleep args)]|];
      intros H; try discriminate; injection H as <- <- <-; right; reflexivity.
Qed.

Lemma send_loop_cons (total idx original_idx : nat) (contact : Contact)
  (rest : list (nat * (nat * Contact))) (contacts : list Contact) (stats : Stats)
  (tr : list event) :
  send_loop w args env_vars subject_template html_template today total
    ((idx, (original_idx, contact)) :: rest) contacts stats tr =
  match send_body w args env_vars subject_template html_template today total idx
          original_idx contact contacts stats tr with
  | (Return (contacts', stats'), tr') =>
      send_loop w args env_vars subject_template html_template today total
        rest contacts' stats' tr'
  | (SysExit c, tr') => (SysExit c, tr')
  | (Raise e, tr') => (Raise e, tr')
  end.
Proof.
  cbn [send_loop]. unfold bind at 1.
  destruct (send_body _ _ _ _ _ _ _ _ _ _ _ _ tr) as [[[? ?]|?|?] ?]; reflexivity.
Qed.

Lemma send_loop_counts (total : nat) (todo : list (nat * (nat * Contact))) :
  forall (contacts contacts' : list Contact) (stats stats' : Stats)
         (tr tr' : list event),
  send_loop w args env_vars subject_template html_template today total
    todo contacts stats tr = (Return (contacts', stats'), tr') ->
  sent stats' + failed stats' = sent stats + failed stats + Z.of_nat (length todo)
  /\ skipped stats' = skipped stats.
Proof.
  induction todo as [|[idx [original_idx contact]] todo IH];
    intros contacts contacts' stats stats' tr tr' Hrun.
  - cbn in Hrun. injection Hrun as <- <- <-. cbn [length]. lia.
  - rewrite send_loop_cons in Hrun.
    destruct (send_body _ _ _ _ _ _ _ _ _ _ _ _ tr) as [[[contacts1 stats1]|?|?] tr1] eqn:Hbody;
      try discriminate.
    apply send_body_counts in Hbody.
    apply IH in Hrun as [Hsum Hskip]. cbn [length].
    destruct Hbody as [-> | ->]; cbn [sent failed skipped with_sent with_failed] in *; lia.
Qed.

End SendProperties.

(** ** The run *)

(** A run that ends normally has selected someone, and its counters
    count every selected contact once. *)
Lemma main_counts (w : Collaborators) (args : Args) (env_vars : EnvVars)
  (subject_template html_template : string) (contacts : list Contact)
  (tr tr' : list event) (stats : Stats) :
  main w args env_vars subject_template html_template contacts tr
  = (Return stats, tr') ->
  exists selected tr1,
    filter_loop w args (enumerate 0 contacts) [] tr = (Return selected, tr1)
    /\ sent stats + failed stats = Z.of_nat (length selected)
    /\ skipped stats = 0.
Proof.
  unfold main.
  destruct (match arg_attachment args with
            | Some path => truthy path && negb (path_exists w path)
            | None => false
            end); [discriminate|].
  unfold bind at 1.
  destruct (filter_loop w args (enumerate 0 contacts) [] tr)
    as [[selected|?|?] tr1]; [|discriminate..].
  destruct selected as [|first selected]; [discriminate|].
  set (sel := first :: selected).
  unfold bind at 1, datetime_now. unfold bind at 1.
  destruct (send_loop _ _ _ _ _ _ _ _ _ _ _) as [[[contacts1 stats1]|?|?] tr2] eqn:Hloop;
    [|discriminate..].
  apply send_loop_counts in Hloop as [Hsum Hskip].
  cbn [sent failed skipped] in Hsum, Hskip.
  intros H. exists sel, tr1. split; [reflexivity|].
  assert (stats = stats1) as ->.
  { unfold bind, save_contacts, emit, ret in H.
    destruct (arg_update_contacts args && (0 <? sent stats1)); cbn in H;
      congruence. }
  rewrite length_enumerate in Hsum. lia.
Qed.

Lemma already_handled_iff (contact : Contact) :
  already_handled contact = true <->
  Py.upper (Py.strip (status contact)) = "SENT"
  \/ Py.upper (Py.strip (status contact)) = "SKIP".
Proof.
  unfold already_handled. rewrite orb_true_iff, !String.eqb_eq. reflexivity.
Qed.

Lemma not_selected (w : Collaborators) (args : Args) (contacts : list Contact)
  (idx : nat) (contact : Contact) :
  contacts !! idx = Some contact ->
  already_handled contact = true
  \/ (exists tr0, fst (validate_email (gethostbyname w) (email contact) tr0)
                  = Return false) ->
  forall tr selected tr',
  filter_loop w args (enumerate 0 contacts) [] tr = (Return selected, tr') ->
  forall c, ~ In (idx, c) selected.
Proof.
  intros Hrow Hout tr selected tr' Hrun c Hin.
  destruct (filter_loop_selected w args _ _ _ _ _ Hrun idx c Hin)
    as [[]|(Hin' & _ & Hnew & Hvalid)].
  apply enumerate_lookup in Hin' as [_ Hc].
  rewrite Nat.sub_0_r, Hrow in Hc. injection Hc as <-.
  destruct Hout as [Hh|(tr0 & Hv)]; [congruence|].
  rewrite Hvalid in Hv. discriminate.
Qed.

(** [strip] and [upper] on white space and letters outside ASCII. *)
Lemma strip_upper_samples :
  Py.strip (nbsp +:+ " SENT" +:+ nbsp +:+ " ") = "SENT"
  /\ Py.strip nbsp = EmptyString
  /\ Py.strip ("a" +:+ nbsp +:+ "b") = "a" +:+ nbsp +:+ "b"
  /\ Py.upper (long_s +:+ "ent") = "SENT"
  /\ Py.upper (long_s +:+ "k" +:+ dotless_i +:+ "p") = "SKIP"
  /\ already_handled (sample_contact "a@good.com" "" (nbsp +:+ "sent")) = true
  /\ already_handled (sample_contact "a@good.com" "" "sent.") = false.
Proof. repeat split; vm_compute; reflexivity. Qed.

(** C5: a row whose status, trimmed and in upper case, is SENT or SKIP is
    passed over by the body of the filter loop, with the selection and
    the trace (so the log) left as they were, and it is in no selection
    the filter loop returns. *)
Theorem handled_contact_is_passed_over (w : Collaborators) (args : Args)
  (contacts : list Contact) (idx : nat) (contact : Contact) :
  contacts !! idx = Some contact ->
  Py.upper (Py.strip (status contact)) = "SENT"
  \/ Py.upper (Py.strip (status contact)) = "SKIP" ->
  (forall contacts_to_send tr,
     filter_body w args idx contact contacts_to_send tr
     = (Return (Continue contacts_to_send), tr))
  /\ (forall tr selected tr',
     filter_loop w args (enumerate 0 contacts) [] tr = (Return selected, tr') ->
     forall c, ~ In (idx, c) selected).
Proof.
  intros Hrow Hstatus. apply already_handled_iff in Hstatus. split.
  - intros acc tr. apply filter_body_skips. right. exact Hstatus.
  - apply (not_selected w args contacts idx contact Hrow). left. exact Hstatus.
Qed.

Lemma handled_contact_is_passed_over_witness :
  let handled := sample_contact "b@good.com" "" (nbsp +:+ long_s +:+ "ent ") in
  let contacts := [sample_contact "a@good.com" "" ""; handled] in
  filter_body sample_world (sample_args false false) 1 handled [] []
  = (Return (Continue []), [])
  /\ filter_loop sample_world (sample_args false false) (enumerate 0 contacts) [] []
     = (Return [(0%nat, sample_contact "a@good.com" "" "")], []).
Proof.
  intros handled contacts. split; [|reflexivity].
  apply (proj1 (handled_contact_is_passed_over sample_world (sample_args false false)
                  contacts 1 handled eq_refl (or_introl eq_refl))).
Defined.

(** C6 fails on the code for a domain with an empty label.  The
    pattern accepts [info@hotel..it]; the lookup of [hotel..it] raises
    UnicodeError, which is neither of the two exceptions
    [validate_email] catches, so that the exception leaves
    [validate_email], the filter loop and [main]: nothing is logged for
    the contact, and the run does not go on to the contact after it,
    whose email is valid. *)
Theorem empty_label_domain_stops_the_run :
  let bad := sample_contact "info@hotel..it" "" "" in
  let good := sample_contact "b@good.com" "" "" in
  Re.match_anchored email_pattern (email bad) = true
  /\ split_char "@" (email bad) !! 1%nat = Some "hotel..it"
  /\ validate_email (gethostbyname sample_world_idna) (email bad) []
     = (Raise idna_error, [])
  /\ validate_email (gethostbyname sample_world_idna) (email good) []
     = (Return true, [])
  /\ filter_loop sample_world_idna (sample_args false false)
       (enumerate 0 [bad; good]) [] []
     = (Raise idna_error, [])
  /\ main sample_world_idna (sample_args false false) sample_env
       "Hello {{contact_name}}" "<p>{{hotel_name}}</p>" [bad; good] []
     = (Raise idna_error, []).
Proof. repeat split; vm_compute; reflexivity. Qed.

(** A row that reaches the validation (from the start row on, status
    neither SENT nor SKIP) with an email that fails the pattern, or
    whose domain the name service answers with [socket.gaierror], gets
    exactly one row in the log, with status ERROR and info "Invalid
    email format"; the selection is unchanged and the loop goes on with
    the rows that follow; the row is in no selection the loop returns,
    and the counters of a run count the selected contacts only. *)
Theorem invalid_email_is_logged_and_dropped (w : Collaborators) (args : Args)
  (contacts : list Contact) (idx : nat) (contact : Contact) :
  contacts !! idx = Some contact ->
  arg_from_row args <= Z.of_nat idx ->
  already_handled contact = false ->
  Re.match_anchored email_pattern (email contact) = false
  \/ (exists domain text,
        split_char "@" (email contact) !! 1%nat = Some domain
        /\ gethostbyname w domain = LookupRaised (gaierror text)) ->
  (forall contacts_to_send tr,
     filter_body w args idx contact contacts_to_send tr
     = (Return (Continue contacts_to_send),
        tr ++ [ClockRead;
               LogRow (arg_log args)
                 (invalid_email_row contact (isoformat w (clock w tr)))]))
  /\ (forall rest contacts_to_send tr,
     filter_loop w args ((idx, contact) :: rest) contacts_to_send tr
     = filter_loop w args rest contacts_to_send
         (tr ++ [ClockRead;
                 LogRow (arg_log args)
                   (invalid_email_row contact (isoformat w (clock w tr)))]))
  /\ (forall tr selected tr',
     filter_loop w args (enumerate 0 contacts) [] tr = (Return selected, tr') ->
     forall c, ~ In (idx, c) selected)
  /\ (forall env_vars subject_template html_template tr stats tr',
     main w args env_vars subject_template html_template contacts tr
     = (Return stats, tr') ->
     exists selected tr1,
       filter_loop w args (enumerate 0 contacts) [] tr = (Return selected, tr1)
       /\ sent stats + failed stats = Z.of_nat (length selected)
       /\ skipped stats = 0).
Proof.
  intros Hrow Hfrom Hnew Hbad.
  assert (Hbody : forall acc tr,
            filter_body w args idx contact acc tr
            = (Return (Continue acc),
               tr ++ [ClockRead;
                      LogRow (arg_log args)
                        (invalid_email_row contact (isoformat w (clock w tr)))])).
  { intros acc tr. rewrite (filter_body_validates w args idx contact acc tr Hfrom Hnew).
    rewrite (validate_email_rejects w (email contact) tr Hbad). reflexivity. }
  split; [exact Hbody|]. split; [|split].
  - intros rest acc tr. rewrite filter_loop_cons, Hbody. reflexivity.
  - apply (not_selected w args contacts idx contact Hrow). right. exists [].
    rewrite (validate_email_rejects w (email contact) [] Hbad). reflexivity.
  - intros env_vars subject_template html_template tr stats tr'.
    apply main_counts.
Qed.

Lemma invalid_email_is_logged_and_dropped_witness :
  let contact := sample_contact "not-an-email" "" "" in
  filter_body sample_world (sample_args false false) 0 contact [] []
  = (Return (Continue []),
     [ClockRead; LogRow "outbox_log.csv" (invalid_email_row contact "T0")]).
Proof.
  intros contact.
  apply (proj1 (invalid_email_is_logged_and_dropped sample_world
                  (sample_args false false) [contact] 0 contact
                  eq_refl ltac:(simpl; lia) eq_refl (or_introl eq_refl))).
Defined.

(** The scenario of the specification: of a valid contact, a contact
    with the email "bad" and a contact already SENT, only the first is
    selected, the second gets an ERROR row and the third no row. *)
Example filter_scenario :
  filter_loop sample_world (sample_args false false)
    (enumerate 0 [sample_contact "a@good.com" "" "";
                  sample_contact "bad" "" "";
                  sample_contact "b@good.com" "" "SENT"]) [] []
  = (Return [(0%nat, sample_contact "a@good.com" "" "")],
     [ClockRead;
      LogRow "outbox_log.csv" (invalid_email_row (sample_contact "bad" "" "") "T0")]).
Proof. reflexivity. Qed.

Example email_pattern_samples :
  Re.match_anchored email_pattern "not-an-email" = false
  /\ Re.match_anchored email_pattern "info@hotel-test.co.uk" = true
  /\ Re.match_anchored email_pattern "info@hotel.x" = false
  /\ Re.match_anchored email_pattern "a@b@hotel.it" = false.
Proof. repeat split; reflexivity. Qed.

(** C2 as stated fails: with an empty list of contacts (or with every
    contact already SENT) nobody qualifies and the exit status is 0. *)
Lemma nobody_to_send_exits_zero :
  main sample_world (sample_args false false) sample_env "Subject" "<p>Body</p>"
    [] [] = (SysExit 0, [])
  /\ main sample_world (sample_args false false) sample_env "Subject" "<p>Body</p>"
       [sample_contact "b@good.com" "" "SENT"] [] = (SysExit 0, []).
Proof. split; reflexivity. Qed.

(** C2, amended: when the attachment check has passed and the filter
    selects nobody, the process ends with exit status 0, with no effect
    after those of the filter. *)
Theorem nobody_selected_exit_status (w : Collaborators) (args : Args)
  (env_vars : EnvVars) (subject_template html_template : string)
  (contacts : list Contact) (tr tr' : list event) :
  match arg_attachment args with
  | Some path => truthy path && negb (path_exists w path)
  | None => false
  end = false ->
  filter_loop w args (enumerate 0 contacts) [] tr = (Return [], tr') ->
  main w args env_vars subject_template html_template contacts tr
  = (SysExit 0, tr').
Proof.
  intros Hatt Hsel. unfold main. rewrite Hatt. unfold bind at 1.
  rewrite Hsel. reflexivity.
Qed.

Lemma nobody_selected_exit_status_witness :
  main sample_world (sample_args false false) sample_env "Subject" "<p>Body</p>"
    [sample_contact "b@good.com" "" "skip"] [] = (SysExit 0, []).
Proof.
  apply (nobody_selected_exit_status sample_world (sample_args false false)
           sample_env "Subject" "<p>Body</p>"
           [sample_contact "b@good.com" "" "skip"] [] []); reflexivity.
Defined.

(** ** Message builder *)

(** C8: for a contact whose [contact_name] is empty once trimmed, the
    context binds [contact_name] to the generic greeting, the subject and
    the HTML body of the message are the templates rendered with that
    context, and the To header is the bare address; in general the
    builder gives the recipient a display name exactly when [to_name] is
    not empty. *)
Theorem nameless_contact_gets_bare_address (w : Collaborators) (args : Args)
  (env_vars : EnvVars) (subject_template html_template today : string)
  (contact : Contact) :
  Py.strip (contact_name contact) = EmptyString ->
  let context := render_context (SENDER_NAME env_vars) today contact in
  let msg := compose w args env_vars subject_template html_template today contact in
  assoc "contact_name" context = Some generic_greeting
  /\ msg_Subject msg = render_template subject_template context
  /\ msg_html_alternative msg = render_template html_template context
  /\ msg_To msg = email contact
  /\ (forall subject html_body plain_body to_email to_name attachment_path,
        msg_To (create_email_message w env_vars subject html_body plain_body
                  to_email to_name attachment_path)
        = if String.eqb to_name EmptyString then to_email
          else formataddr w to_name to_email).
Proof.
  intros Hname context msg.
  assert (Hgreet : greeting_name contact = generic_greeting).
  { unfold greeting_name. rewrite Hname. reflexivity. }
  repeat split.
  - unfold context, render_context. cbn [assoc]. rewrite Hgreet. reflexivity.
  - unfold msg, compose, create_email_message. cbn [msg_To].
    rewrite Hgreet, String.eqb_refl. reflexivity.
  - intros. unfold create_email_message, truthy. cbn [msg_To].
    destruct (String.eqb to_name ""); reflexivity.
Qed.

Lemma nameless_contact_gets_bare_address_witness :
  let contact := sample_contact "info@hotel.it" (" " +:+ nbsp +:+ " ") "" in
  let msg := compose sample_world (sample_args false false) sample_env
               "Candidatura - {{hotel_name}}" "<p>Gentile {{contact_name}},</p>"
               "10/05/2025" contact in
  msg_To msg = "info@hotel.it"
  /\ msg_html_alternative msg = "<p>Gentile Responsabile delle risorse umane,</p>"
  /\ msg_To (compose sample_world (sample_args false false) sample_env
               "Candidatura - {{hotel_name}}" "<p>Gentile {{contact_name}},</p>"
               "10/05/2025" (sample_contact "info@hotel.it" "Marco Bianchi" ""))
     = "Marco Bianchi <info@hotel.it>".
Proof.
  intros contact msg. split; [|split; reflexivity].
  apply (nameless_contact_gets_bare_address sample_world (sample_args false false)
           sample_env "Candidatura - {{hotel_name}}" "<p>Gentile {{contact_name}},</p>"
           "10/05/2025" contact eq_refl).
Defined.

(** ** Dry run with [--update-contacts] *)

Section DryRunUpdate.

Variable w : Collaborators.
Variable args : Args.
Variable env_vars : EnvVars.
Variables subject_template html_template today : string.

Hypothesis dry_run : arg_dry_run args = true.
Hypothesis update_contacts : arg_update_contacts args = true.

(** A turn of the send loop in a dry run with [--update-contacts]: the
    contact is marked and counted, its row says DRY_RUN, and the pause
    follows when the contact is not the last one. *)
Lemma send_body_dry_run (total idx original_idx : nat) (contact : Contact)
  (contacts : list Contact) (stats : Stats) (tr : list event) :
  send_body w args env_vars subject_template html_template today total idx
    original_idx contact contacts stats tr
  = let contacts' :=
      alter (mark_sent (strftime w (clock w (tr ++ [ClockRead]))
                          "%Y-%m-%d %H:%M:%S")) original_idx contacts in
    let tr' :=
      tr ++ [ClockRead; ClockRead;
             LogRow (arg_log args)
               (dry_run_row contact (greeting_name contact)
                  (isoformat w (clock w tr)))] in
    if (idx <? total)%nat then
      match time_sleep (arg_sleep args) tr' with
      | (Return _, tr'') => (Return (contacts', with_sent stats), tr'')
      | (SysExit c, tr'') => (SysExit c, tr'')
      | (Raise e, tr'') => (Raise e, tr'')
      end
    else (Return (contacts', with_sent stats), tr').
Proof.
  unfold send_body. rewrite dry_run, update_contacts. unfold bind at 1.
  rewrite send_email_with_retry_dry_run by lia.
  unfold bind, datetime_now, log_to_file, emit, ret. cbn [negb]. cbn zeta.
  rewrite <- !app_assoc. cbn [app].
  destruct (idx <? total)%nat; [|reflexivity].
  destruct (time_sleep _ _) as [[[]|?|?] ?]; reflexivity.
Qed.

Lemma mark_sent_marked (t : datetime w) (c : Contact) :
  marked w (mark_sent (strftime w t "%Y-%m-%d %H:%M:%S") c).
Proof. split; [reflexivity|]. exists t. reflexivity. Qed.

Lemma marked_at_alter (contacts : list Contact) (t : datetime w) (i j : nat) :
  marked_at w contacts i ->
  marked_at w (alter (mark_sent (strftime w t "%Y-%m-%d %H:%M:%S")) j contacts) i.
Proof.
  intros (c & Hc & Hm). destruct (decide (j = i)) as [->|Hne].
  - exists (mark_sent (strftime w t "%Y-%m-%d %H:%M:%S") c).
    rewrite list_lookup_alter_eq, Hc. split; [reflexivity|apply mark_sent_marked].
  - exists c. rewrite list_lookup_alter_ne by exact Hne. split; assumption.
Qed.

Lemma marked_at_alter_here (contacts : list Contact) (t : datetime w) (i : nat) :
  (i < length contacts)%nat ->
  marked_at w (alter (mark_sent (strftime w t "%Y-%m-%d %H:%M:%S")) i contacts) i.
Proof.
  intros Hi. destruct (lookup_lt_is_Some_2 contacts i Hi) as [c Hc].
  exists (mark_sent (strftime w t "%Y-%m-%d %H:%M:%S") c).
  rewrite list_lookup_alter_eq, Hc. split; [reflexivity|apply mark_sent_marked].
Qed.

(** The send loop of a dry run that comes to its end: every contact
    counted as sent and marked in the list, one DRY_RUN row each, no
    attempt to send. *)
Lemma send_loop_dry_run (total : nat) (todo : list (nat * (nat * Contact))) :
  forall (contacts contacts' : list Contact) (stats stats' : Stats)
         (tr tr' : list event),
  (forall idx i c, In (idx, (i, c)) todo -> (i < length contacts)%nat) ->
  send_loop w args env_vars subject_template html_template today total
    todo contacts stats tr = (Return (contacts', stats'), tr') ->
  exists evs,
    tr' = tr ++ evs
    /\ stats' = {| sent := sent stats + Z.of_nat (length todo);
                   failed := failed stats; skipped := skipped stats |}
    /\ length contacts' = length contacts
    /\ (forall i, marked_at w contacts i -> marked_at w contacts' i)
    /\ (forall idx i c, In (idx, (i, c)) todo -> marked_at w contacts' i)
    /\ attempt_count evs = 0%nat
    /\ saved evs = []
    /\ Forall (fun row => log_status row = "DRY_RUN") (log_rows evs)
    /\ length (log_rows evs) = length todo.
Proof.
  induction todo as [|[idx [i c]] todo IH];
    intros contacts contacts' stats stats' tr tr' Hrange Hrun.
  - cbn in Hrun. injection Hrun as <- <- <-. exists [].
    rewrite app_nil_r, Z.add_0_r. destruct stats. cbn.
    repeat split; auto. intros ? ? ? [].
  - rewrite send_loop_cons, send_body_dry_run in Hrun. cbn zeta in Hrun.
    set (t := clock w (tr ++ [ClockRead])) in *.
    set (contacts1 := alter (mark_sent (strftime w t "%Y-%m-%d %H:%M:%S")) i contacts)
      in *.
    set (row := dry_run_row c (greeting_name c) (isoformat w (clock w tr))) in *.
    set (evs1 := [ClockRead; ClockRead; LogRow (arg_log args) row]
                 ++ (if (idx <? total)%nat then [Sleep (arg_sleep args)] else [])).
    assert (Hlen1 : length contacts1 = length contacts) by apply length_alter.
    assert (Hnext : send_loop w args env_vars subject_template html_template today
                      total todo contacts1 (with_sent stats) (tr ++ evs1)
                    = (Return (contacts', stats'), tr')).
    { unfold evs1. destruct (idx <? total)%nat.
      - destruct (time_sleep_cases (arg_sleep args)
                    (tr ++ [ClockRead; ClockRead; LogRow (arg_log args) row]))
          as [[_ E]|[_ [e E]]]; rewrite E in Hrun; [|discriminate].
        rewrite <- app_assoc in Hrun. exact Hrun.
      - exact Hrun. }
    destruct (IH contacts1 contacts' (with_sent stats) stats' (tr ++ evs1) tr')
      as (evs & -> & -> & Hlen & Hkeep & Hnew & Hsess & Hsaved & Hrows & Hcount).
    { intros idx' i' c' Hin. rewrite Hlen1. apply (Hrange idx' i' c'). right. exact Hin. }
    { exact Hnext. }
    exists (evs1 ++ evs). split; [rewrite <- app_assoc; reflexivity|]. split.
    { cbn [with_sent sent failed skipped length]. f_equal. lia. }
    split; [congruence|]. split.
    { intros j Hj. apply Hkeep. apply marked_at_alter. exact Hj. }
    split.
    { intros idx' i' c' [E|Hin].
      - injection E as <- <- <-. apply Hkeep. apply marked_at_alter_here.
        apply (Hrange idx i c). left. reflexivity.
      - apply (Hnew idx' i' c' Hin). }
    assert (Hrows1 : log_rows evs1 = [row]).
    { unfold evs1. destruct (idx <? total)%nat; reflexivity. }
    split.
    { rewrite attempt_count_app, Hsess. unfold evs1.
      destruct (idx <? total)%nat; reflexivity. }
    split.
    { clear -Hsaved. unfold evs1.
      induction evs1 as [|ev l IHl]; destruct (idx <? total)%nat; cbn; exact Hsaved. }
    split.
    { rewrite log_rows_app, Hrows1. constructor; [reflexivity|exact Hrows]. }
    rewrite log_rows_app, Hrows1. cbn [length app]. f_equal. exact Hcount.
Qed.

End DryRunUpdate.

Lemma enumerate_in_value {A : Type} (l : list A) :
  forall (start idx : nat) (x : A), In (idx, x) (enumerate start l) -> In x l.
Proof.
  induction l as [|y l IH]; intros start idx x Hin; [destruct Hin|].
  cbn [enumerate] in Hin. destruct Hin as [E|Hin].
  - injection E as _ <-. left. reflexivity.
  - right. exact (IH _ _ _ Hin).
Qed.

Lemma marked_is_handled (w : Collaborators) (c : Contact) :
  marked w c -> already_handled c = true.
Proof. intros [Hs _]. unfold already_handled. rewrite Hs. reflexivity. Qed.

(** C10: a run with [--dry-run] and [--update-contacts] that comes to
    its end has selected at least one contact and counted every selected
    contact as sent; it has made no attempt to send, and every row the
    send loop has logged has status DRY_RUN; yet the last thing the run
    does is to write the contacts file, and the list it writes has
    every selected contact with status SENT and a time in [sent_at]: a
    later run passes these contacts over. *)
Theorem dry_run_update_marks_sent (w : Collaborators) (args : Args)
  (env_vars : EnvVars) (subject_template html_template : string)
  (contacts : list Contact) (stats : Stats) (tr tr' : list event) :
  arg_dry_run args = true ->
  arg_update_contacts args = true ->
  main w args env_vars subject_template html_template contacts tr
  = (Return stats, tr') ->
  exists selected tr1 contacts' evs,
    filter_loop w args (enumerate 0 contacts) [] tr = (Return selected, tr1)
    /\ selected <> []
    /\ stats = {| sent := Z.of_nat (length selected); failed := 0; skipped := 0 |}
    /\ tr' = tr1 ++ evs ++ [SaveContacts (arg_csv args) contacts']
    /\ (forall i c, In (i, c) selected ->
          exists c', contacts' !! i = Some c' /\ marked w c'
                     /\ already_handled c' = true)
    /\ attempt_count evs = 0%nat
    /\ saved evs = []
    /\ Forall (fun row => log_status row = "DRY_RUN") (log_rows evs)
    /\ length (log_rows evs) = length selected.
Proof.
  intros Hdry Hupd. unfold main.
  destruct (match arg_attachment args with
            | Some path => truthy path && negb (path_exists w path)
            | None => false
            end); [discriminate|].
  unfold bind at 1.
  destruct (filter_loop w args (enumerate 0 contacts) [] tr)
    as [[selected|?|?] tr1] eqn:Hsel; [|discriminate..].
  destruct selected as [|first rest]; [discriminate|].
  set (selected := first :: rest) in *.
  unfold bind at 1, datetime_now. unfold bind at 1.
  set (today := strftime w (clock w tr1) "%d/%m/%Y").
  destruct (send_loop _ _ _ _ _ _ _ _ _ _ _) as [[[contacts' stats1]|?|?] tr2] eqn:Hloop;
    [|discriminate..].
  assert (Hrange : forall idx i c,
            In (idx, (i, c)) (enumerate 1 selected) -> (i < length contacts)%nat).
  { intros idx i c Hin. apply enumerate_in_value in Hin.
    destruct (filter_loop_selected w args _ _ _ _ _ Hsel i c Hin) as [[]|(Hrow & _)].
    apply enumerate_lookup in Hrow as [_ Hrow].
    rewrite Nat.sub_0_r in Hrow. exact (lookup_lt_Some _ _ _ Hrow). }
  destruct (send_loop_dry_run w args env_vars subject_template html_template today
              Hdry Hupd _ _ _ _ _ _ _ _ Hrange Hloop)
    as (evs & -> & -> & _ & _ & Hnew & Hsess & Hsaved & Hrows & Hcount).
  rewrite length_enumerate in Hcount |- *. cbn [sent failed skipped].
  rewrite Hupd. cbn [andb].
  replace (0 <? 0 + Z.of_nat (length selected)) with true
    by (symmetry; apply Z.ltb_lt; unfold selected; cbn [length]; lia).
  unfold bind, save_contacts, emit, ret. intros H. injection H as <- <-.
  exists selected, tr1, contacts', (ClockRead :: evs).
  split; [reflexivity|]. split; [discriminate|]. split; [reflexivity|].
  split; [rewrite <- !app_assoc; reflexivity|].
  split; [|split; [exact Hsess|split; [exact Hsaved|split; [exact Hrows|exact Hcount]]]].
  intros i c Hin.
  assert (exists idx, In (idx, (i, c)) (enumerate 1 selected)) as [idx Hidx].
  { clear -Hin. generalize 1%nat.
    induction selected as [|x l IH]; intros n; [destruct Hin|].
    destruct Hin as [->|Hin].
    - exists n. left. reflexivity.
    - destruct (IH Hin (S n)) as [idx H]. exists idx. right. exact H. }
  destruct (Hnew idx i c Hidx) as (c' & Hc' & Hm).
  exists c'. split; [exact Hc'|]. split; [exact Hm|].
  apply (marked_is_handled w), Hm.
Qed.

Lemma dry_run_update_marks_sent_witness :
  let contacts := [sample_contact "a@good.com" "" ""; sample_contact "bad" "" ""] in
  let run := main sample_world (sample_args true true) sample_env
               "Candidatura" "<p>Gentile {{contact_name}},</p>" contacts [] in
  fst run = Return {| sent := 1; failed := 0; skipped := 0 |}
  /\ exists selected tr1 contacts' evs,
       filter_loop sample_world (sample_args true true) (enumerate 0 contacts) [] []
       = (Return selected, tr1)
       /\ snd run = tr1 ++ evs ++ [SaveContacts "contacts.csv" contacts']
       /\ (forall i c, In (i, c) selected ->
             exists c', contacts' !! i = Some c' /\ status c' = "SENT")
       /\ Forall (fun row => log_status row = "DRY_RUN") (log_rows evs).
Proof.
  intros contacts run. split; [vm_compute; reflexivity|].
  destruct (dry_run_update_marks_sent sample_world (sample_args true true) sample_env
              "Candidatura" "<p>Gentile {{contact_name}},</p>" contacts
              {| sent := 1; failed := 0; skipped := 0 |} [] (snd run)
              eq_refl eq_refl ltac:(vm_compute; reflexivity))
    as (selected & tr1 & contacts' & evs & Hsel & _ & _ & Hrun & Hmark & _ & _ & Hrows & _).
  exists selected, tr1, contacts', evs.
  split; [exact Hsel|]. split; [exact Hrun|]. split; [|exact Hrows].
  intros i c Hin. destruct (Hmark i c Hin) as (c' & Hc' & [Hs _] & _).
  exists c'. split; assumption.
Defined.

(** * Further properties *)

(** ** What a trace holds *)

Lemma slept_app (tr1 tr2 : list event) : slept (tr1 ++ tr2) = slept tr1 + slept tr2.
Proof.
  induction tr1 as [|ev tr1 IH]; [reflexivity|].
  destruct ev; cbn [app slept]; rewrite IH; lia.
Qed.

Lemma attempted_app (tr1 tr2 : list event) :
  attempted (tr1 ++ tr2) = attempted tr1 ++ attempted tr2.
Proof.
  induction tr1 as [|ev tr1 IH]; [reflexivity|].
  destruct ev; cbn [app attempted]; rewrite IH; reflexivity.
Qed.

Lemma saved_app (tr1 tr2 : list event) : saved (tr1 ++ tr2) = saved tr1 ++ saved tr2.
Proof.
  induction tr1 as [|ev tr1 IH]; [reflexivity|].
  destruct ev; cbn [app saved]; rewrite IH; reflexivity.
Qed.

(** ** The retry policy against any relay *)

Lemma attempt_count_backoff (msg : EmailMessage) (k : nat) :
  forall attempt, attempt_count (backoff msg attempt k) = k.
Proof. induction k as [|k IH]; intros attempt; cbn; [reflexivity|]. rewrite IH. reflexivity. Qed.

Lemma attempted_backoff (msg : EmailMessage) (k : nat) :
  forall attempt, attempted (backoff msg attempt k) = replicate k msg.
Proof. induction k as [|k IH]; intros attempt; cbn; [reflexivity|]. rewrite IH. reflexivity. Qed.

Lemma log_rows_backoff (msg : EmailMessage) (k : nat) :
  forall attempt, log_rows (backoff msg attempt k) = [].
Proof. induction k as [|k IH]; intros attempt; cbn; [reflexivity|]. apply IH. Qed.

Lemma saved_backoff (msg : EmailMessage) (k : nat) :
  forall attempt, saved (backoff msg attempt k) = [].
Proof. induction k as [|k IH]; intros attempt; cbn; [reflexivity|]. apply IH. Qed.

(** The sleeps of [k] failed attempts add up to a geometric sum. *)
Lemma slept_backoff (msg : EmailMessage) (k : nat) :
  forall attempt, 0 <= attempt ->
  slept (backoff msg attempt k) = 5 * (2 ^ (attempt + Z.of_nat k) - 2 ^ attempt).
Proof.
  induction k as [|k IH]; intros attempt Ha.
  - cbn [backoff slept]. rewrite Z.add_0_r. lia.
  - cbn [backoff slept]. rewrite IH by lia.
    replace (attempt + Z.of_nat (S k)) with (attempt + 1 + Z.of_nat k) by lia.
    replace (2 ^ (attempt + 1)) with (2 * 2 ^ attempt)
      by (rewrite Z.pow_add_r by lia; lia).
    lia.
Qed.

Lemma retry_loop_uncaught (relay : EnvVars -> EmailMessage -> nat -> session)
  (env_vars : EnvVars) (msg : EmailMessage) (max_retries attempt : Z)
  (rest : list Z) (tr : list event) (e : exception) :
  relay env_vars msg (attempt_count tr) = Raised e ->
  failure_info e = None ->
  retry_loop relay env_vars msg false max_retries (attempt :: rest) tr
  = (Raise e, tr ++ [SendAttempt msg]).
Proof.
  intros Hr Hi. rewrite retry_loop_cons. unfold send_email. rewrite Hr, Hi. reflexivity.
Qed.

(** The loop against any relay: it runs through the attempts that fail
    transiently and ends at the first attempt that does anything else,
    or at the last attempt. *)
Lemma retry_loop_outcome (relay : EnvVars -> EmailMessage -> nat -> session)
  (env_vars : EnvVars) (msg : EmailMessage) (max_retries : Z) (n : nat) :
  forall (a : nat) (tr : list event),
  (1 <= n)%nat -> Z.of_nat (a + n) = max_retries -> max_retries <= 32 ->
  exists k, (k < n)%nat
    /\ fail_transiently relay env_vars msg (attempt_count tr) k
    /\ let loop := retry_loop relay env_vars msg false max_retries
                     (Z.of_nat <$> seq a n) tr in
       let tr' := tr ++ backoff msg (Z.of_nat a) k ++ [SendAttempt msg] in
       match relay env_vars msg (attempt_count tr + k)%nat with
       | Delivered => loop = (Return (Some (true, "Email sent successfully")), tr')
       | Raised e =>
           match failure_info e with
           | None => loop = (Raise e, tr')
           | Some info =>
               if transient info
               then S k = n
                    /\ loop = (Return (Some (false, "Failed after "
                                 +:+ Py.str_of_int max_retries
                                 +:+ " attempts: " +:+ info)), tr')
               else loop = (Return (Some (false, info)), tr')
           end
       end.
Proof.
  induction n as [|n IH]; intros a tr Hn Hmax Hbound; [lia|].
  change (seq a (S n)) with (a :: seq (S a) n). cbn [fmap list_fmap].
  fold (Z.of_nat <$> seq (S a) n).
  destruct (relay env_vars msg (attempt_count tr)) as [|e] eqn:Hr.
  { exists 0%nat. split; [lia|]. split; [intros i Hi; lia|].
    cbn zeta. rewrite Nat.add_0_r, Hr.
    apply retry_loop_delivered. exact Hr. }
  destruct (failure_info e) as [info|] eqn:Hi.
  2:{ exists 0%nat. split; [lia|]. split; [intros i Hi'; lia|].
      cbn zeta. rewrite Nat.add_0_r, Hr, Hi.
      apply retry_loop_uncaught; assumption. }
  destruct (transient info) eqn:Ht.
  2:{ exists 0%nat. split; [lia|]. split; [intros i Hi'; lia|].
      cbn zeta. rewrite Nat.add_0_r, Hr, Hi, Ht.
      apply (retry_loop_permanent relay env_vars msg _ _ _ tr e info); assumption. }
  destruct n as [|n'].
  { exists 0%nat. split; [lia|]. split; [intros i Hi'; lia|].
    cbn zeta. rewrite Nat.add_0_r, Hr, Hi, Ht. split; [reflexivity|].
    apply (retry_loop_exhausted relay env_vars msg _ _ _ tr e info); try assumption.
    lia. }
  rewrite (retry_loop_transient relay env_vars msg _ _ _ tr e info Hr Hi Ht) by lia.
  set (tr2 := tr ++ [SendAttempt msg; Sleep (5 * 2 ^ Z.of_nat a)]).
  assert (Hc : attempt_count tr2 = S (attempt_count tr)).
  { unfold tr2. rewrite attempt_count_app. cbn. lia. }
  destruct (IH (S a) tr2 ltac:(lia) ltac:(lia) Hbound) as (k & Hk & Hfail & Hout).
  exists (S k). split; [lia|]. split.
  - intros [|i] Hi'.
    + exists e, info. rewrite Nat.add_0_r. auto.
    + destruct (Hfail i ltac:(lia)) as (e' & info' & H1 & H2 & H3).
      exists e', info'. rewrite Hc in H1.
      replace (attempt_count tr + S i)%nat with (S (attempt_count tr) + i)%nat by lia.
      auto.
  - cbn zeta in *. rewrite Hc in Hout.
    replace (attempt_count tr + S k)%nat with (S (attempt_count tr) + k)%nat by lia.
    assert (Htr : tr2 ++ backoff msg (Z.of_nat (S a)) k ++ [SendAttempt msg]
                  = tr ++ backoff msg (Z.of_nat a) (S k) ++ [SendAttempt msg]).
    { unfold tr2. cbn [backoff]. rewrite <- app_assoc. cbn [app].
      replace (Z.of_nat a + 1) with (Z.of_nat (S a)) by lia. reflexivity. }
    rewrite Htr in Hout.
    destruct (relay env_vars msg (S (attempt_count tr) + k)%nat) as [|e'];
      [exact Hout|].
    destruct (failure_info e') as [info'|]; [|exact Hout].
    destruct (transient info'); [|exact Hout].
    destruct Hout as [Hlast Hout]. split; [lia|exact Hout].
Qed.

Lemma send_email_with_retry_of_loop (relay : EnvVars -> EmailMessage -> nat -> session)
  (env_vars : EnvVars) (msg : EmailMessage) (dry_run : bool) (max_retries : Z)
  (tr : list event) :
  (forall out tr',
     retry_loop relay env_vars msg dry_run max_retries (Py.range max_retries) tr
     = (Return (Some out), tr') ->
     send_email_with_retry relay env_vars msg dry_run max_retries tr = (Return out, tr'))
  /\ (forall e tr',
     retry_loop relay env_vars msg dry_run max_retries (Py.range max_retries) tr
     = (Raise e, tr') ->
     send_email_with_retry relay env_vars msg dry_run max_retries tr = (Raise e, tr')).
Proof.
  split; intros ? tr' H; unfold send_email_with_retry, bind; rewrite H; reflexivity.
Qed.

Lemma send_email_with_retry_no_turn (relay : EnvVars -> EmailMessage -> nat -> session)
  (env_vars : EnvVars) (msg : EmailMessage) (dry_run : bool) (max_retries : Z)
  (tr : list event) :
  max_retries <= 0 ->
  send_email_with_retry relay env_vars msg dry_run max_retries tr
  = (Return (false, "Max retries exceeded"), tr).
Proof.
  intros Hmax. unfold send_email_with_retry, Py.range.
  replace (Z.to_nat max_retries) with 0%nat by lia. reflexivity.
Qed.

(** With 1 to 32 attempts allowed and no dry run, what
    [send_email_with_retry] returns is decided by the first attempt that
    does not fail transiently: its delivery, its permanent failure or
    its uncaught exception; when all [max_retries] attempts fail
    transiently, the detail of the last one is returned behind "Failed
    after ... attempts".  The attempts before it are each followed by
    the backoff sleep.  (From 33 attempts on the backoff after the 32nd
    is more than [time.sleep] takes.) *)
Theorem send_email_with_retry_outcome
  (relay : EnvVars -> EmailMessage -> nat -> session)
  (env_vars : EnvVars) (msg : EmailMessage) (max_retries : Z) (tr : list event) :
  1 <= max_retries <= 32 ->
  exists k, Z.of_nat k < max_retries
    /\ fail_transiently relay env_vars msg (attempt_count tr) k
    /\ let out := send_email_with_retry relay env_vars msg false max_retries tr in
       let tr' := tr ++ backoff msg 0 k ++ [SendAttempt msg] in
       match relay env_vars msg (attempt_count tr + k)%nat with
       | Delivered => out = (Return (true, "Email sent successfully"), tr')
       | Raised e =>
           match failure_info e with
           | None => out = (Raise e, tr')
           | Some info =>
               if transient info
               then Z.of_nat (S k) = max_retries
                    /\ out = (Return (false, "Failed after "
                                 +:+ Py.str_of_int max_retries
                                 +:+ " attempts: " +:+ info), tr')
               else out = (Return (false, info), tr')
           end
       end.
Proof.
  intros Hmax.
  destruct (retry_loop_outcome relay env_vars msg max_retries (Z.to_nat max_retries)
              0 tr ltac:(lia) ltac:(lia) ltac:(lia)) as (k & Hk & Hfail & Hout).
  destruct (send_email_with_retry_of_loop relay env_vars msg false max_retries tr)
    as [Hret Hraise].
  exists k. split; [lia|]. split; [exact Hfail|].
  cbn zeta in *. fold (Py.range max_retries) in Hout.
  destruct (relay env_vars msg (attempt_count tr + k)%nat) as [|e];
    [apply Hret, Hout|].
  destruct (failure_info e) as [info|]; [|apply Hraise, Hout].
  destruct (transient info); [|apply Hret, Hout].
  destruct Hout as [Hlast Hout]. split; [lia|apply Hret, Hout].
Qed.

Lemma send_email_with_retry_outcome_witness :
  1 <= 3 <= 32 /\
  send_email_with_retry (relay_flaky 1 "[Errno 104] Connection reset by peer")
    sample_env sample_msg false 3 []
  = (Return (true, "Email sent successfully"),
     [SendAttempt sample_msg; Sleep 5; SendAttempt sample_msg]).
Proof.
  split; [lia|].
  destruct (send_email_with_retry_outcome
              (relay_flaky 1 "[Errno 104] Connection reset by peer")
              sample_env sample_msg 3 [] ltac:(lia)) as (k & Hk & Hfail & Hout).
  destruct k as [|[|k]].
  - cbn in Hout. destruct Hout as [Hlast _]. lia.
  - exact Hout.
  - destruct (Hfail 1%nat ltac:(lia)) as (e & info & Hr & _). discriminate Hr.
Defined.

(** Without dry run the trace of the loop grows by some failed attempts
    with their sleeps and one last attempt, whatever comes of it: a
    sleep that raises leaves no trace. *)
Lemma retry_loop_trace (relay : EnvVars -> EmailMessage -> nat -> session)
  (env_vars : EnvVars) (msg : EmailMessage) (max_retries : Z) (n : nat) :
  forall (a : nat) (tr : list event),
  (1 <= n)%nat -> Z.of_nat (a + n) = max_retries ->
  exists k, (k < n)%nat
    /\ snd (retry_loop relay env_vars msg false max_retries
              (Z.of_nat <$> seq a n) tr)
       = tr ++ backoff msg (Z.of_nat a) k ++ [SendAttempt msg].
Proof.
  induction n as [|n IH]; intros a tr Hn Hmax; [lia|].
  change (seq a (S n)) with (a :: seq (S a) n). cbn [fmap list_fmap].
  fold (Z.of_nat <$> seq (S a) n).
  rewrite retry_loop_cons.
  pose proof (send_email_live_trace relay env_vars msg tr) as Hlive.
  destruct (send_email relay env_vars msg false tr) as [[[success info]|c|e] tr1];
    cbn [snd] in Hlive; subst tr1.
  2,3: (exists 0%nat; split; [lia|reflexivity]).
  destruct success; [exists 0%nat; split; [lia|reflexivity]|].
  destruct (is_auth_info info); [exists 0%nat; split; [lia|reflexivity]|].
  destruct (is_recipient_info info); [exists 0%nat; split; [lia|reflexivity]|].
  destruct (Z.of_nat a <? max_retries - 1) eqn:E;
    [|exists 0%nat; split; [lia|reflexivity]].
  destruct (time_sleep_cases (5 * 2 ^ Z.of_nat a) (tr ++ [SendAttempt msg]))
    as [[_ ->]|[_ [e ->]]]; [|exists 0%nat; split; [lia|reflexivity]].
  destruct (IH (S a) ((tr ++ [SendAttempt msg]) ++ [Sleep (5 * 2 ^ Z.of_nat a)])
              ltac:(lia) ltac:(lia)) as (k & Hk & Hsnd).
  exists (S k). split; [lia|]. rewrite Hsnd. cbn [backoff].
  rewrite <- !app_assoc. cbn [app].
  replace (Z.of_nat a + 1) with (Z.of_nat (S a)) by lia. reflexivity.
Qed.

Lemma retry_trace_shape (relay : EnvVars -> EmailMessage -> nat -> session)
  (env_vars : EnvVars) (msg : EmailMessage) (max_retries : Z) (tr : list event) :
  1 <= max_retries ->
  exists k, Z.of_nat k < max_retries
    /\ snd (send_email_with_retry relay env_vars msg false max_retries tr)
       = tr ++ backoff msg 0 k ++ [SendAttempt msg].
Proof.
  intros Hmax.
  destruct (retry_loop_trace relay env_vars msg max_retries (Z.to_nat max_retries)
              0 tr ltac:(lia) ltac:(lia)) as (k & Hk & Hsnd).
  exists k. split; [lia|]. fold (Py.range max_retries) in Hsnd.
  unfold send_email_with_retry, bind.
  destruct (retry_loop relay env_vars msg false max_retries (Py.range max_retries) tr)
    as [[[out|]|c|e] tr']; exact Hsnd.
Qed.

(** The effects of [send_email_with_retry], whatever the relay does:
    attempts with the one message only, nothing logged, nothing saved. *)
Lemma send_email_with_retry_effects
  (relay : EnvVars -> EmailMessage -> nat -> session)
  (env_vars : EnvVars) (msg : EmailMessage) (dry_run : bool) (max_retries : Z)
  (tr : list event) :
  exists evs,
    snd (send_email_with_retry relay env_vars msg dry_run max_retries tr) = tr ++ evs
    /\ Forall (fun m => m = msg) (attempted evs)
    /\ log_rows evs = [] /\ saved evs = []
    /\ (dry_run = true -> evs = []).
Proof.
  destruct (Z_lt_le_dec max_retries 1) as [Hlow|Hmax].
  { exists []. rewrite send_email_with_retry_no_turn by lia.
    rewrite app_nil_r. repeat split; auto. }
  destruct dry_run.
  { exists []. rewrite send_email_with_retry_dry_run by lia.
    rewrite app_nil_r. repeat split; auto. }
  destruct (retry_trace_shape relay env_vars msg max_retries tr Hmax) as (k & _ & Hsnd).
  exists (backoff msg 0 k ++ [SendAttempt msg]). split; [exact Hsnd|].
  rewrite attempted_app, log_rows_app, saved_app, attempted_backoff,
    log_rows_backoff, saved_backoff.
  repeat split; try reflexivity; [|discriminate].
  apply Forall_app. split; [|repeat constructor].
  apply Forall_forall. intros m Hm.
  apply elem_of_replicate in Hm as [-> _]. reflexivity.
Qed.

(** Against any relay, [send_email_with_retry] with [max_retries >= 1]
    makes at least one and at most [max_retries] attempts, all with the
    message it was given, ends on an attempt (no sleep after the last
    one), sleeps at most [5 * (2 ^ (max_retries - 1) - 1)] seconds in
    all (15 seconds for the three attempts of the default), logs
    nothing and does not write the contacts file. *)
Theorem retry_cost_is_bounded (relay : EnvVars -> EmailMessage -> nat -> session)
  (env_vars : EnvVars) (msg : EmailMessage) (max_retries : Z) (tr : list event) :
  1 <= max_retries ->
  exists evs,
    snd (send_email_with_retry relay env_vars msg false max_retries tr) = tr ++ evs
    /\ (1 <= attempt_count evs)%nat
    /\ Z.of_nat (attempt_count evs) <= max_retries
    /\ attempted evs = replicate (attempt_count evs) msg
    /\ last evs = Some (SendAttempt msg)
    /\ 0 <= slept evs <= 5 * (2 ^ (max_retries - 1) - 1)
    /\ log_rows evs = []
    /\ saved evs = [].
Proof.
  intros Hmax.
  destruct (retry_trace_shape relay env_vars msg max_retries tr Hmax) as (k & Hk & Hsnd).
  exists (backoff msg 0 k ++ [SendAttempt msg]). split; [exact Hsnd|].
  rewrite attempt_count_app, attempt_count_backoff, attempted_app, attempted_backoff,
    slept_app, slept_backoff, last_snoc, log_rows_app, log_rows_backoff,
    saved_app, saved_backoff by lia.
  cbn [attempt_count is_attempt attempted slept log_rows saved app].
  split; [lia|]. split; [lia|]. split.
  { replace (k + (1 + 0))%nat with (S k) by lia.
    rewrite replicate_S_end. reflexivity. }
  split; [reflexivity|].
  assert (1 <= 2 ^ Z.of_nat k) by (apply Z.pow_le_mono_r with (b := 0); lia).
  assert (2 ^ Z.of_nat k <= 2 ^ (max_retries - 1)) by (apply Z.pow_le_mono_r; lia).
  rewrite Z.add_0_l. change (2 ^ 0) with 1. repeat split; lia.
Qed.

Lemma retry_cost_is_bounded_witness :
  1 <= 3 /\
  exists evs,
    snd (send_email_with_retry relay_bad_login sample_env sample_msg false 3 [])
    = [] ++ evs
    /\ Z.of_nat (attempt_count evs) <= 3 /\ slept evs <= 15.
Proof.
  split; [lia|].
  destruct (retry_cost_is_bounded relay_bad_login sample_env sample_msg 3 []
              ltac:(lia)) as (evs & Hsnd & _ & Hcount & _ & _ & Hslept & _).
  exists evs. split; [exact Hsnd|]. split; [exact Hcount|].
  change (5 * (2 ^ (3 - 1) - 1)) with 15 in Hslept. lia.
Defined.

(** With [max_retries <= 0] the loop has no turn: no attempt, no sleep,
    and the result is the failure "Max retries exceeded", in a dry run
    as well. *)
Theorem no_attempt_without_retries (relay : EnvVars -> EmailMessage -> nat -> session)
  (env_vars : EnvVars) (msg : EmailMessage) (dry_run : bool) (max_retries : Z)
  (tr : list event) :
  max_retries <= 0 ->
  send_email_with_retry relay env_vars msg dry_run max_retries tr
  = (Return (false, "Max retries exceeded"), tr).
Proof. apply send_email_with_retry_no_turn. Qed.

Lemma no_attempt_without_retries_witness :
  -1 <= 0 /\
  send_email_with_retry relay_bad_login sample_env sample_msg true (-1) []
  = (Return (false, "Max retries exceeded"), []).
Proof.
  split; [lia|].
  apply (no_attempt_without_retries relay_bad_login sample_env sample_msg true (-1) []).
  lia.
Defined.

(** ** Templates without placeholders *)

Lemma startswith_prefix (p q s : string) :
  Py.startswith (p +:+ q) s = true -> Py.startswith p s = true.
Proof.
  revert s. induction p as [|c p IH]; intros s H; [destruct s; reflexivity|].
  rewrite append_cons in H. destruct s as [|c' s]; [discriminate|].
  cbn [Py.startswith] in *. destruct (Ascii.eqb c c'); [|discriminate].
  apply IH, H.
Qed.

Lemma contains_prefix (p q s : string) :
  Py.contains (p +:+ q) s = true -> Py.contains p s = true.
Proof.
  induction s as [|c s IH]; cbn [Py.contains]; intros H.
  - rewrite orb_false_r in *. apply (startswith_prefix p q), H.
  - apply orb_true_iff in H as [H|H].
    + rewrite (startswith_prefix p q _ H). reflexivity.
    + rewrite (IH H). apply orb_true_r.
Qed.

(** [str.replace] of a string that does not occur changes nothing. *)
Lemma replace_absent (old new s : string) :
  Py.contains old s = false -> Py.replace old new s = s.
Proof.
  intros H. destruct old as [|c old]; [destruct s; discriminate|].
  unfold Py.replace. induction s as [|x s IH]; [reflexivity|].
  cbn [Py.contains] in H. apply orb_false_iff in H as [Hhere Hlater].
  rewrite replace_scan_copy by exact Hhere. rewrite (IH Hlater). reflexivity.
Qed.

(** A template in which two opening braces never follow each other is
    returned as it is, whatever the context. *)
Theorem render_template_without_placeholders (template : string)
  (context : list (string * string)) :
  Py.contains "{{" template = false ->
  render_template template context = template.
Proof.
  intros Hfree. unfold render_template.
  induction context as [|[key value] context IH]; [reflexivity|].
  cbn [fold_left]. rewrite replace_absent; [exact IH|].
  destruct (Py.contains (placeholder key) template) eqn:E; [|reflexivity].
  change (placeholder key) with ("{{" +:+ (key +:+ "}}")) in E.
  apply contains_prefix in E. congruence.
Qed.

Lemma render_template_without_placeholders_witness :
  Py.contains "{{" "body { color: red } {single}" = false
  /\ render_template "body { color: red } {single}" [("single", "x"); ("", "y")]
     = "body { color: red } {single}".
Proof.
  split; [reflexivity|].
  apply (render_template_without_placeholders "body { color: red } {single}"
           [("single", "x"); ("", "y")]).
  reflexivity.
Defined.

(** ** The pattern of [validate_email] *)

Lemma append_nil_r (s : string) : s +:+ EmptyString = s.
Proof. induction s as [|c s IH]; [reflexivity|]. rewrite append_cons, IH. reflexivity. Qed.

Lemma append_eq_nil (a b : string) :
  a +:+ b = EmptyString -> a = EmptyString /\ b = EmptyString.
Proof. destruct a; [auto|discriminate]. Qed.

Lemma append_eq_cons (a b : string) (c : ascii) (s : string) :
  a +:+ b = String c s ->
  (a = EmptyString /\ b = String c s)
  \/ (exists a', a = String c a' /\ a' +:+ b = s).
Proof.
  destruct a as [|x a]; [left; auto|].
  rewrite append_cons. intros H. injection H as -> <-. right. eauto.
Qed.

(** *** The matcher by derivatives finds the strings of the expression *)

Lemma nullable_denotes (r : Re.regex) :
  Re.nullable r = true <-> denotes r EmptyString.
Proof.
  split.
  - induction r as [| |p|r1 IH1 r2 IH2|r1 IH1 r2 IH2|r IH]; cbn [Re.nullable]; intros H;
      try discriminate.
    + constructor.
    + apply andb_true_iff in H as [H1 H2].
      change EmptyString with (EmptyString +:+ EmptyString).
      constructor; auto.
    + apply orb_true_iff in H as [H|H]; [apply denotes_alt_l|apply denotes_alt_r]; auto.
    + constructor.
  - intros H. remember EmptyString as s eqn:Hs.
    induction H as [|p c Hp|r1 r2 s1 s2 H1 IH1 H2 IH2|r1 r2 s H IH|r1 r2 s H IH
                    |r|r s1 s2 H1 IH1 H2 IH2]; cbn [Re.nullable]; try reflexivity.
    + discriminate.
    + apply append_eq_nil in Hs as [-> ->].
      rewrite IH1, IH2; reflexivity.
    + rewrite IH; [reflexivity|exact Hs].
    + rewrite IH; [apply orb_true_r|exact Hs].
Qed.

Lemma deriv_denotes (c : ascii) (r : Re.regex) :
  forall s, denotes (Re.deriv c r) s <-> denotes r (String c s).
Proof.
  intros s. split.
  - revert s.
    induction r as [| |p|r1 IH1 r2 IH2|r1 IH1 r2 IH2|r IH]; cbn [Re.deriv]; intros s H.
    + inversion H.
    + inversion H.
    + destruct (p c) eqn:Hp; inversion H; subst. constructor. exact Hp.
    + assert (Hseq : forall s, denotes (Re.Seq (Re.deriv c r1) r2) s ->
                denotes (Re.Seq r1 r2) (String c s)).
      { intros s0 H0. inversion H0; subst.
        rewrite <- append_cons. constructor; auto. }
      destruct (Re.nullable r1) eqn:Hn; [|apply Hseq, H].
      inversion H; subst; [apply Hseq; assumption|].
      change (String c s) with (EmptyString +:+ String c s).
      constructor; [apply nullable_denotes, Hn|auto].
    + inversion H; subst; [apply denotes_alt_l|apply denotes_alt_r]; auto.
    + inversion H; subst. rewrite <- append_cons. constructor; auto.
  - intros H. remember (String c s) as t eqn:Ht. revert s Ht.
    induction H as [|p x Hp|r1 r2 s1 s2 H1 IH1 H2 IH2|r1 r2 t H IH|r1 r2 t H IH
                    |r|r s1 s2 H1 IH1 H2 IH2]; intros s Ht; cbn [Re.deriv].
    + discriminate.
    + injection Ht as -> <-. rewrite Hp. constructor.
    + apply append_eq_cons in Ht as [[-> ->]|(s1' & -> & <-)].
      * apply nullable_denotes in H1. rewrite H1.
        apply denotes_alt_r. apply IH2. reflexivity.
      * assert (denotes (Re.Seq (Re.deriv c r1) r2) (s1' +:+ s2))
          by (constructor; auto).
        destruct (Re.nullable r1); [apply denotes_alt_l|]; assumption.
    + apply denotes_alt_l. auto.
    + apply denotes_alt_r. auto.
    + discriminate.
    + apply append_eq_cons in Ht as [[-> ->]|(s1' & -> & <-)].
      * apply IH2. reflexivity.
      * constructor; auto.
Qed.

Lemma fullmatch_denotes (s : string) :
  forall r, Re.fullmatch r s = true <-> denotes r s.
Proof.
  induction s as [|c s IH]; intros r; cbn [Re.fullmatch].
  - apply nullable_denotes.
  - rewrite IH. apply deriv_denotes.
Qed.

(** *** What the classes and the pattern stand for *)

Lemma denotes_seq_inv (r1 r2 : Re.regex) (s : string) :
  denotes (Re.Seq r1 r2) s ->
  exists s1 s2, s = s1 +:+ s2 /\ denotes r1 s1 /\ denotes r2 s2.
Proof. intros H. inversion H; subst. eauto. Qed.

Lemma denotes_class_inv (p : ascii -> bool) (s : string) :
  denotes (Re.Class p) s -> exists c, s = String c EmptyString /\ p c = true.
Proof. intros H. inversion H; subst. eauto. Qed.

Lemma denotes_star_class (p : ascii -> bool) (s : string) :
  denotes (Re.Star (Re.Class p)) s <-> all_in p s = true.
Proof.
  split.
  - intros H. remember (Re.Star (Re.Class p)) as r eqn:Hr.
    induction H as [|? ? ?|? ? ? ? ? ? ? ?|? ? ? ? ?|? ? ? ? ?|r0|r0 s1 s2 H1 _ H2 IH2];
      try discriminate; [reflexivity|].
    injection Hr as ->. apply denotes_class_inv in H1 as (c & -> & Hc).
    rewrite append_cons, append_nil. cbn [all_in]. rewrite Hc. apply IH2. reflexivity.
  - induction s as [|c s IH]; cbn [all_in]; intros H; [constructor|].
    apply andb_true_iff in H as [Hc Hs].
    change (String c s) with (String c EmptyString +:+ s).
    constructor; [constructor; exact Hc|exact (IH Hs)].
Qed.

Lemma denotes_plus_class (p : ascii -> bool) (s : string) :
  denotes (Re.Plus (Re.Class p)) s <-> s <> EmptyString /\ all_in p s = true.
Proof.
  unfold Re.Plus. split.
  - intros H. apply denotes_seq_inv in H as (s1 & s2 & -> & H1 & H2).
    apply denotes_class_inv in H1 as (c & -> & Hc).
    apply denotes_star_class in H2.
    rewrite append_cons, append_nil. split; [discriminate|].
    cbn [all_in]. rewrite Hc, H2. reflexivity.
  - intros [Hne H]. destruct s as [|c s]; [congruence|].
    cbn [all_in] in H. apply andb_true_iff in H as [Hc Hs].
    change (String c s) with (String c EmptyString +:+ s).
    constructor; [constructor; exact Hc|]. apply denotes_star_class, Hs.
Qed.

Lemma denotes_char (c : ascii) (s : string) :
  denotes (Re.Class (Ascii.eqb c)) s <-> s = String c EmptyString.
Proof.
  split.
  - intros H. apply denotes_class_inv in H as (x & -> & Hx).
    apply Ascii.eqb_eq in Hx. subst. reflexivity.
  - intros ->. constructor. apply Ascii.eqb_refl.
Qed.

Lemma denotes_two_or_more (p : ascii -> bool) (s : string) :
  denotes (Re.Seq (Re.Class p) (Re.Seq (Re.Class p) (Re.Star (Re.Class p)))) s
  <-> (2 <= String.length s)%nat /\ all_in p s = true.
Proof.
  split.
  - intros H. apply denotes_seq_inv in H as (s1 & s2 & -> & H1 & H2).
    apply denotes_seq_inv in H2 as (s3 & s4 & -> & H3 & H4).
    apply denotes_class_inv in H1 as (c1 & -> & Hc1).
    apply denotes_class_inv in H3 as (c2 & -> & Hc2).
    apply denotes_star_class in H4.
    rewrite !append_cons, !append_nil. cbn [String.length all_in].
    rewrite Hc1, Hc2, H4. split; [lia|reflexivity].
  - intros [Hlen H]. destruct s as [|c1 [|c2 s]]; cbn [String.length] in Hlen; try lia.
    cbn [all_in] in H. apply andb_true_iff in H as [Hc1 H].
    apply andb_true_iff in H as [Hc2 Hs].
    change (String c1 (String c2 s))
      with (String c1 EmptyString +:+ (String c2 EmptyString +:+ s)).
    repeat constructor; auto. apply denotes_star_class, Hs.
Qed.

Lemma denotes_email_pattern (s : string) :
  denotes email_pattern s <->
  exists local domain tld,
    s = local +:+ "@" +:+ domain +:+ "." +:+ tld
    /\ address_shape local domain tld.
Proof.
  unfold email_pattern, address_shape. split.
  - intros H.
    apply denotes_seq_inv in H as (local & s1 & -> & Hl & H).
    apply denotes_seq_inv in H as (at_ & s2 & -> & Hat & H).
    apply denotes_seq_inv in H as (domain & s3 & -> & Hd & H).
    apply denotes_seq_inv in H as (dot & tld & -> & Hdot & Ht).
    apply denotes_char in Hat, Hdot. subst at_ dot.
    apply denotes_plus_class in Hl as [Hl1 Hl2].
    apply denotes_plus_class in Hd as [Hd1 Hd2].
    apply denotes_two_or_more in Ht as [Ht1 Ht2].
    exists local, domain, tld. repeat split; auto.
  - intros (local & domain & tld & -> & Hl1 & Hl2 & Hd1 & Hd2 & Ht1 & Ht2).
    constructor; [apply denotes_plus_class; auto|].
    constructor; [apply denotes_char; reflexivity|].
    constructor; [apply denotes_plus_class; auto|].
    constructor; [apply denotes_char; reflexivity|].
    apply denotes_two_or_more. auto.
Qed.

Lemma email_pattern_accepts_iff (email : string) :
  Re.match_anchored email_pattern email = true <->
  exists local domain tld ending,
    email = local +:+ "@" +:+ domain +:+ "." +:+ tld +:+ ending
    /\ address_shape local domain tld
    /\ (ending = EmptyString \/ ending = String Re.newline EmptyString).
Proof.
  unfold Re.match_anchored. rewrite fullmatch_denotes. split.
  - intros H. apply denotes_seq_inv in H as (s & ending & -> & Hs & He).
    apply denotes_email_pattern in Hs as (local & domain & tld & -> & Hshape).
    exists local, domain, tld, ending. split.
    { rewrite !append_assoc. reflexivity. }
    split; [exact Hshape|].
    inversion He as [| | |? ? ? Hl|? ? ? Hr| |]; subst.
    + inversion Hl. left. reflexivity.
    + apply denotes_char in Hr. right. exact Hr.
  - intros (local & domain & tld & ending & -> & Hshape & Hend).
    replace (local +:+ "@" +:+ domain +:+ "." +:+ tld +:+ ending)
      with ((local +:+ "@" +:+ domain +:+ "." +:+ tld) +:+ ending)
      by (rewrite !append_assoc; reflexivity).
    constructor.
    + apply denotes_email_pattern. eauto.
    + destruct Hend as [-> | ->].
      * apply denotes_alt_l. constructor.
      * apply denotes_alt_r. apply denotes_char. reflexivity.
Qed.

(** *** The domain that is looked up *)

Lemma all_in_free_of (p : ascii -> bool) (c0 : ascii) (s : string) :
  p c0 = false -> all_in p s = true -> free_of c0 s = true.
Proof.
  intros Hc0. induction s as [|c s IH]; [reflexivity|].
  cbn [all_in free_of]. intros H. apply andb_true_iff in H as [Hc Hs].
  rewrite (IH Hs), andb_true_r. apply negb_true_iff.
  destruct (Ascii.eqb c c0) eqn:E; [|reflexivity].
  apply Ascii.eqb_eq in E. congruence.
Qed.

Lemma split_char_free (sep : ascii) (s : string) :
  free_of sep s = true -> split_char sep s = [s].
Proof.
  induction s as [|c s IH]; [reflexivity|].
  intros H. apply free_of_cons in H as [Hc Hs].
  cbn [split_char]. rewrite Ascii.eqb_sym, Hc, (IH Hs). reflexivity.
Qed.

Lemma split_char_at (sep : ascii) (a b : string) :
  free_of sep a = true ->
  split_char sep (a +:+ String sep b) = a :: split_char sep b.
Proof.
  induction a as [|c a IH]; intros H.
  - rewrite append_nil. cbn [split_char]. rewrite Ascii.eqb_refl. reflexivity.
  - apply free_of_cons in H as [Hc Ha].
    rewrite append_cons. cbn [split_char]. rewrite Ascii.eqb_sym, Hc, (IH Ha).
    reflexivity.
Qed.

(** The pattern of [validate_email] accepts exactly the strings
    local@domain.tld, where the local part is made of letters, digits
    and [._%+-], the domain of letters, digits, dots and hyphens, and the
    last part of at least two letters; a newline may follow as the last
    character. *)
Theorem email_pattern_accepts (email : string) :
  Re.match_anchored email_pattern email = true <->
  exists local domain tld ending,
    email = local +:+ "@" +:+ domain +:+ "." +:+ tld +:+ ending
    /\ address_shape local domain tld
    /\ (ending = EmptyString \/ ending = String Re.newline EmptyString).
Proof. apply email_pattern_accepts_iff. Qed.

(** An email that the pattern accepts has exactly one "@": the
    [IndexError] of [split("@")[1]] cannot happen, the host that is
    looked up is all that follows the "@", and the answer of
    [validate_email] is the one of the lookup: [True] when it resolves,
    [False] on [socket.gaierror], and any other exception of the lookup
    leaves [validate_email]. *)
Theorem validate_email_follows_lookup (resolve : string -> lookup) (email : string) :
  Re.match_anchored email_pattern email = true ->
  exists local host,
    email = local +:+ "@" +:+ host
    /\ free_of "@" local = true /\ free_of "@" host = true
    /\ split_char "@" email = [local; host]
    /\ validate_email resolve email =
       match resolve host with
       | Resolved _ => ret true
       | LookupRaised (gaierror _) => ret false
       | LookupRaised e => raise e
       end.
Proof.
  intros Hm. pose proof Hm as Hshape.
  apply email_pattern_accepts_iff in Hshape
    as (local & domain & tld & ending & -> & Hs & Hend).
  destruct Hs as (_ & Hl & _ & Hd & _ & Ht).
  set (host := domain +:+ "." +:+ tld +:+ ending).
  assert (Hlocal : free_of "@" local = true)
    by (apply (all_in_free_of local_char); [reflexivity|exact Hl]).
  assert (Hhost : free_of "@" host = true).
  { unfold host. rewrite !free_of_append.
    rewrite (all_in_free_of domain_char "@" domain eq_refl Hd).
    rewrite (all_in_free_of is_alpha "@" tld eq_refl Ht).
    destruct Hend as [-> | ->]; reflexivity. }
  assert (Hsplit : split_char "@" (local +:+ "@" +:+ host) = [local; host]).
  { change ("@" +:+ host) with (String "@" host).
    rewrite split_char_at by exact Hlocal.
    rewrite split_char_free by exact Hhost. reflexivity. }
  exists local, host. repeat split; auto.
  fold host in Hm. unfold validate_email. rewrite Hm, Hsplit. reflexivity.
Qed.

Lemma validate_email_follows_lookup_witness :
  Re.match_anchored email_pattern "info@good.com" = true
  /\ validate_email (gethostbyname sample_world) "info@good.com" []
     = (Return true, []).
Proof.
  split; [reflexivity|].
  destruct (validate_email_follows_lookup (gethostbyname sample_world)
              "info@good.com" eq_refl) as (local & host & _ & _ & _ & Hsplit & Hv).
  vm_compute in Hsplit. injection Hsplit as <- <-.
  rewrite Hv. reflexivity.
Defined.

(** ** The filter loop as a whole *)

Section FilterLoop.

Variable w : Collaborators.
Variable args : Args.

Lemma validate_email_verdict (address : string) (tr : list event) :
  validate_email (gethostbyname w) address tr = (verdict w address, tr).
Proof.
  unfold verdict.
  rewrite (validate_email_pure w address [] tr).
  rewrite <- (validate_email_trace w address tr) at 3.
  destruct (validate_email (gethostbyname w) address tr). reflexivity.
Qed.

Lemma verdict_never_exits (address : string) (code : Z) :
  verdict w address <> SysExit code.
Proof.
  unfold verdict, validate_email.
  destruct (negb _); [discriminate|].
  destruct (split_char "@" address !! 1%nat); [|discriminate].
  destruct (gethostbyname w s) as [|[]]; discriminate.
Qed.

(** The body of the filter loop in one equation. *)
Lemma filter_body_eq (idx : nat) (contact : Contact)
  (contacts_to_send : list (nat * Contact)) (tr : list event) :
  filter_body w args idx contact contacts_to_send tr =
  if examined args (idx, contact) then
    match verdict w (email contact) with
    | Return true =>
        let contacts_to_send := contacts_to_send ++ [(idx, contact)] in
        (Return (if max_reached args (length contacts_to_send)
                 then Break contacts_to_send else Continue contacts_to_send), tr)
    | Return false =>
        (Return (Continue contacts_to_send),
         tr ++ [ClockRead;
                LogRow (arg_log args)
                  (invalid_email_row contact (isoformat w (clock w tr)))])
    | SysExit c => (SysExit c, tr)
    | Raise e => (Raise e, tr)
    end
  else (Return (Continue contacts_to_send), tr).
Proof.
  unfold examined. cbn [fst snd].
  destruct (arg_from_row args <=? Z.of_nat idx) eqn:Er.
  2:{ apply filter_body_skips. left. lia. }
  destruct (already_handled contact) eqn:Eh.
  { apply filter_body_skips. right. exact Eh. }
  cbn [andb negb]. rewrite filter_body_validates by (lia || exact Eh).
  rewrite validate_email_verdict. reflexivity.
Qed.

End FilterLoop.

Lemma filter_loop_effects (w : Collaborators) (args : Args)
  (rows : list (nat * Contact)) :
  forall (contacts_to_send : list (nat * Contact)) (tr : list event),
  exists evs,
    snd (filter_loop w args rows contacts_to_send tr) = tr ++ evs
    /\ attempted evs = [] /\ slept evs = 0 /\ saved evs = []
    /\ Forall is_invalid_email_row (log_rows evs).
Proof.
  induction rows as [|[idx contact] rows IH]; intros acc tr.
  - exists []. rewrite app_nil_r. repeat split; constructor.
  - rewrite filter_loop_cons, filter_body_eq.
    destruct (examined args (idx, contact)); [|apply IH].
    destruct (verdict w (email contact)) as [[|]|c|e].
    + cbn zeta. destruct (max_reached args _); [|apply IH].
      exists []. rewrite app_nil_r. repeat split; constructor.
    + destruct (IH acc (tr ++ [ClockRead;
                  LogRow (arg_log args)
                    (invalid_email_row contact (isoformat w (clock w tr)))]))
        as (evs & Hsnd & Hs & Hz & Hv & Hrows).
      exists ([ClockRead;
               LogRow (arg_log args)
                 (invalid_email_row contact (isoformat w (clock w tr)))] ++ evs).
      rewrite Hsnd, <- app_assoc. split; [reflexivity|].
      cbn [app attempted slept saved log_rows]. repeat split; auto.
      constructor; [split; reflexivity|exact Hrows].
    + exists []. rewrite app_nil_r. repeat split; constructor.
    + exists []. rewrite app_nil_r. repeat split; constructor.
Qed.

(** Whatever its outcome, the filter loop makes no attempt to send (so
    it opens no SMTP session), does not sleep, does not write the contacts file, and every row it logs
    is an ERROR row with the info "Invalid email format". *)
Theorem filter_only_logs_invalid_emails (w : Collaborators) (args : Args)
  (rows contacts_to_send : list (nat * Contact)) (tr : list event) :
  exists evs,
    snd (filter_loop w args rows contacts_to_send tr) = tr ++ evs
    /\ attempted evs = [] /\ slept evs = 0 /\ saved evs = []
    /\ Forall is_invalid_email_row (log_rows evs).
Proof. apply filter_loop_effects. Qed.

(** A row before the start row ([--from-row]) is passed over by the
    body of the filter loop whatever its status and its email, with
    nothing logged, and it is in no selection the loop returns. *)
Theorem rows_before_start_are_ignored (w : Collaborators) (args : Args)
  (contacts : list Contact) (idx : nat) (contact : Contact) :
  contacts !! idx = Some contact ->
  Z.of_nat idx < arg_from_row args ->
  (forall contacts_to_send tr,
     filter_body w args idx contact contacts_to_send tr
     = (Return (Continue contacts_to_send), tr))
  /\ (forall tr selected tr',
     filter_loop w args (enumerate 0 contacts) [] tr = (Return selected, tr') ->
     forall c, ~ In (idx, c) selected).
Proof.
  intros Hrow Hbefore. split.
  - intros acc tr. apply filter_body_skips. left. exact Hbefore.
  - intros tr selected tr' Hrun c Hin.
    destruct (filter_loop_selected w args _ _ _ _ _ Hrun idx c Hin)
      as [[]|(_ & Hfrom & _)].
    lia.
Qed.

Lemma rows_before_start_are_ignored_witness :
  let args := {| arg_csv := "contacts.csv"; arg_attachment := None; arg_sleep := 3;
                 arg_dry_run := false; arg_max := None; arg_from_row := 1;
                 arg_update_contacts := false; arg_log := "outbox_log.csv" |} in
  filter_body sample_world args 0 (sample_contact "not-an-email" "" "") [] []
  = (Return (Continue []), []).
Proof.
  intros args.
  apply (proj1 (rows_before_start_are_ignored sample_world args
                  [sample_contact "not-an-email" "" ""] 0
                  (sample_contact "not-an-email" "" "") eq_refl ltac:(simpl; lia))).
Defined.

Lemma filter_loop_length (w : Collaborators) (args : Args) (m : Z)
  (rows : list (nat * Contact)) :
  arg_max args = Some m -> m <> 0 ->
  forall (acc selected : list (nat * Contact)) (tr tr' : list event),
  Z.of_nat (length acc) < Z.max m 1 ->
  filter_loop w args rows acc tr = (Return selected, tr') ->
  Z.of_nat (length selected) <= Z.max m 1.
Proof.
  intros Hm Hnz.
  induction rows as [|[idx contact] rows IH]; intros acc selected tr tr' Hacc Hrun.
  - cbn in Hrun. injection Hrun as <- <-. lia.
  - rewrite filter_loop_cons, filter_body_eq in Hrun.
    destruct (examined args (idx, contact)); [|exact (IH _ _ _ _ Hacc Hrun)].
    destruct (verdict w (email contact)) as [[|]|c|e]; try discriminate.
    + cbn zeta in Hrun. unfold max_reached in Hrun. rewrite Hm in Hrun.
      rewrite length_app in Hrun. cbn [length] in Hrun.
      destruct (negb (m =? 0) && (m <=? Z.of_nat (length acc + 1))) eqn:E.
      * injection Hrun as <- <-. rewrite length_app. cbn [length]. lia.
      * apply andb_false_iff in E as [E|E].
        { apply negb_false_iff, Z.eqb_eq in E. congruence. }
        apply Z.leb_gt in E.
        assert (Hacc' : Z.of_nat (length (acc ++ [(idx, contact)])) < Z.max m 1)
          by (rewrite length_app; cbn [length]; lia).
        exact (IH _ _ _ _ Hacc' Hrun).
    + exact (IH _ _ _ _ Hacc Hrun).
Qed.

(** With [--max m] and [m > 0] at most [m] contacts are selected; a
    negative [m] is taken for a limit too, and the loop stops at the
    first contact it accepts. *)
Theorem selection_respects_max (w : Collaborators) (args : Args) (m : Z)
  (rows selected : list (nat * Contact)) (tr tr' : list event) :
  arg_max args = Some m -> m <> 0 ->
  filter_loop w args rows [] tr = (Return selected, tr') ->
  Z.of_nat (length selected) <= Z.max m 1.
Proof.
  intros Hm Hnz Hrun.
  apply (filter_loop_length w args m rows Hm Hnz [] selected tr tr'); [cbn; lia|exact Hrun].
Qed.

Lemma selection_respects_max_witness :
  let args := {| arg_csv := "contacts.csv"; arg_attachment := None; arg_sleep := 3;
                 arg_dry_run := false; arg_max := Some (-2); arg_from_row := 0;
                 arg_update_contacts := false; arg_log := "outbox_log.csv" |} in
  let rows := enumerate 0 [sample_contact "a@good.com" "" "";
                           sample_contact "b@good.com" "" ""] in
  filter_loop sample_world args rows [] []
  = (Return [(0%nat, sample_contact "a@good.com" "" "")], [])
  /\ Z.of_nat (length [(0%nat, sample_contact "a@good.com" "" "")]) <= Z.max (-2) 1.
Proof.
  intros args rows. split; [reflexivity|].
  apply (selection_respects_max sample_world args (-2) rows
           [(0%nat, sample_contact "a@good.com" "" "")] [] []);
    [reflexivity|discriminate|reflexivity].
Defined.

Lemma filter_loop_sublist (w : Collaborators) (args : Args)
  (rows : list (nat * Contact)) :
  forall (acc selected : list (nat * Contact)) (tr tr' : list event),
  filter_loop w args rows acc tr = (Return selected, tr') ->
  exists picked, selected = acc ++ picked /\ sublist picked rows.
Proof.
  induction rows as [|[idx contact] rows IH]; intros acc selected tr tr' Hrun.
  - cbn in Hrun. injection Hrun as <- <-. exists []. rewrite app_nil_r.
    split; [reflexivity|constructor].
  - rewrite filter_loop_cons, filter_body_eq in Hrun.
    assert (Hskip : forall tr0, filter_loop w args rows acc tr0 = (Return selected, tr') ->
              exists picked, selected = acc ++ picked
                             /\ sublist picked ((idx, contact) :: rows)).
    { intros tr0 H. destruct (IH _ _ _ _ H) as (picked & -> & Hsub).
      exists picked. split; [reflexivity|]. constructor. exact Hsub. }
    destruct (examined args (idx, contact)); [|exact (Hskip _ Hrun)].
    destruct (verdict w (email contact)) as [[|]|c|e]; try discriminate.
    + cbn zeta in Hrun. destruct (max_reached args _).
      * injection Hrun as <- <-. exists [(idx, contact)]. split; [reflexivity|].
        apply sublist_skip, sublist_nil_l.
      * destruct (IH _ _ _ _ Hrun) as (picked & -> & Hsub).
        exists ((idx, contact) :: picked). rewrite <- app_assoc.
        split; [reflexivity|]. apply sublist_skip, Hsub.
    + exact (Hskip _ Hrun).
Qed.

Lemma enumerate_indices {A : Type} (l : list A) :
  forall start, (enumerate start l).*1 = seq start (length l).
Proof.
  induction l as [|x l IH]; intros start; [reflexivity|].
  cbn [enumerate fmap list_fmap fst length seq]. f_equal. apply IH.
Qed.

(** The contacts selected are rows of the file in the order of the
    file, each with its own index, and no index twice. *)
Theorem selection_keeps_file_order (w : Collaborators) (args : Args)
  (contacts : list Contact) (selected : list (nat * Contact)) (tr tr' : list event) :
  filter_loop w args (enumerate 0 contacts) [] tr = (Return selected, tr') ->
  sublist selected (enumerate 0 contacts)
  /\ NoDup (selected.*1)
  /\ (forall i c, In (i, c) selected -> contacts !! i = Some c).
Proof.
  intros Hrun.
  destruct (filter_loop_sublist w args _ _ _ _ _ Hrun) as (picked & -> & Hsub).
  cbn [app]. split; [exact Hsub|]. split.
  - apply (sublist_NoDup _ ((enumerate 0 contacts).*1)).
    + rewrite enumerate_indices. apply NoDup_seq.
    + apply fmap_sublist, Hsub.
  - intros i c Hin. apply list_elem_of_In in Hin.
    apply (elem_of_sublist _ _ _ Hin) in Hsub. apply list_elem_of_In in Hsub.
    apply enumerate_lookup in Hsub as [_ H]. rewrite Nat.sub_0_r in H. exact H.
Qed.

Lemma selection_keeps_file_order_witness :
  let contacts := [sample_contact "a@good.com" "" ""; sample_contact "bad" "" "";
                   sample_contact "b@good.com" "" "skip";
                   sample_contact "c@good.com" "" ""] in
  filter_loop sample_world (sample_args false false) (enumerate 0 contacts) [] []
  = (Return [(0%nat, sample_contact "a@good.com" "" "");
             (3%nat, sample_contact "c@good.com" "" "")],
     [ClockRead;
      LogRow "outbox_log.csv" (invalid_email_row (sample_contact "bad" "" "") "T0")])
  /\ NoDup [0%nat; 3%nat].
Proof.
  intros contacts. split; [reflexivity|].
  apply (selection_keeps_file_order sample_world (sample_args false false) contacts
           [(0%nat, sample_contact "a@good.com" "" "");
            (3%nat, sample_contact "c@good.com" "" "")] [] _ eq_refl).
Defined.




(** ** The send loop against any relay *)

Section SendLoop.

Variable w : Collaborators.
Variable args : Args.
Variable env_vars : EnvVars.
Variables subject_template html_template today : string.

(** The body of the send loop in one equation, by what
    [send_email_with_retry] comes to. *)
Lemma send_body_eq (total idx original_idx : nat) (contact : Contact)
  (contacts : list Contact) (stats : Stats) (tr : list event) :
  send_body w args env_vars subject_template html_template today total idx
    original_idx contact contacts stats tr =
  match send_email_with_retry (relay w) env_vars
          (compose w args env_vars subject_template html_template today contact)
          (arg_dry_run args) 3 tr with
  | (Return (success, info), tr1) =>
      let marks := success && arg_update_contacts args in
      let tr2 := tr1 ++ [ClockRead] in
      let contacts' :=
        if marks
        then alter (mark_sent (strftime w (clock w tr2) "%Y-%m-%d %H:%M:%S"))
                   original_idx contacts
        else contacts in
      let stats' := if success then with_sent stats else with_failed stats in
      let tr3 := (if marks then tr2 ++ [ClockRead] else tr2)
                 ++ [LogRow (arg_log args)
                       (send_row args contact success info (isoformat w (clock w tr1)))] in
      if (idx <? total)%nat then
        match time_sleep (arg_sleep args) tr3 with
        | (Return _, tr4) => (Return (contacts', stats'), tr4)
        | (SysExit c, tr4) => (SysExit c, tr4)
        | (Raise e, tr4) => (Raise e, tr4)
        end
      else (Return (contacts', stats'), tr3)
  | (SysExit c, tr1) => (SysExit c, tr1)
  | (Raise e, tr1) => (Raise e, tr1)
  end.
Proof.
  unfold send_body. unfold bind at 1.
  destruct (send_email_with_retry _ _ _ _ _ tr) as [[[success info]|c|e] tr1];
    [|reflexivity..].
  unfold bind, datetime_now, log_to_file, emit, ret, send_row. cbn zeta.
  destruct success, (arg_update_contacts args), (idx <? total)%nat;
    cbn [andb negb]; try reflexivity;
    destruct (time_sleep _ _) as [[[]|?|?] ?]; reflexivity.
Qed.

(** What [send_email_with_retry] with the three attempts of [main]
    adds to the trace. *)
Lemma retry_of_main_effects (msg : EmailMessage) (tr : list event) :
  exists evs,
    snd (send_email_with_retry (relay w) env_vars msg (arg_dry_run args) 3 tr)
    = tr ++ evs
    /\ Forall (fun m => m = msg) (attempted evs)
    /\ log_rows evs = [] /\ saved evs = []
    /\ 0 <= slept evs <= 15
    /\ (arg_dry_run args = true -> evs = []).
Proof.
  destruct (arg_dry_run args).
  { exists []. rewrite send_email_with_retry_dry_run by lia.
    rewrite app_nil_r. cbn. repeat split; auto; lia. }
  destruct (retry_trace_shape (relay w) env_vars msg 3 tr ltac:(lia)) as (k & Hk & Hsnd).
  exists (backoff msg 0 k ++ [SendAttempt msg]). split; [exact Hsnd|].
  rewrite attempted_app, log_rows_app, saved_app, slept_app, attempted_backoff,
    log_rows_backoff, saved_backoff, slept_backoff by lia.
  split.
  { apply Forall_app. split; [|repeat constructor].
    apply Forall_forall. intros m Hm.
    apply elem_of_replicate in Hm as [-> _]. reflexivity. }
  split; [reflexivity|]. split; [reflexivity|]. split; [|discriminate].
  cbn [slept]. rewrite Z.add_0_l. change (2 ^ 0) with 1.
  assert (k = 0 \/ k = 1 \/ k = 2)%nat as [-> | [-> | ->]] by lia; cbn; lia.
Qed.

(** A turn of the send loop that comes to its end: what it has done. *)
Lemma send_body_returns (total idx original_idx : nat) (contact : Contact)
  (contacts contacts' : list Contact) (stats stats' : Stats) (tr tr' : list event) :
  send_body w args env_vars subject_template html_template today total idx
    original_idx contact contacts stats tr = (Return (contacts', stats'), tr') ->
  exists evs success info timestamp,
    tr' = tr ++ evs
    /\ log_rows evs = [send_row args contact success info timestamp]
    /\ saved evs = []
    /\ stats' = (if success then with_sent stats else with_failed stats)
    /\ (if success && arg_update_contacts args
        then exists t, contacts'
                       = alter (mark_sent (strftime w t "%Y-%m-%d %H:%M:%S"))
                               original_idx contacts
        else contacts' = contacts)
    /\ (exists backoff_time,
          0 <= backoff_time <= 15
          /\ (arg_dry_run args = true -> backoff_time = 0)
          /\ slept evs = backoff_time
                         + (if (idx <? total)%nat then arg_sleep args else 0)
          /\ ((idx < total)%nat -> 0 <= arg_sleep args)).
Proof.
  rewrite send_body_eq.
  destruct (retry_of_main_effects
              (compose w args env_vars subject_template html_template today contact) tr)
    as (evs0 & Hsnd & _ & Hrows & Hsaved & Hslept & Hdry).
  destruct (send_email_with_retry _ _ _ _ _ tr) as [[[success info]|c|e] tr1];
    [|discriminate..].
  cbn [snd] in Hsnd. subst tr1. cbn zeta.
  set (marks := success && arg_update_contacts args).
  set (row := send_row args contact success info (isoformat w (clock w (tr ++ evs0)))).
  set (evs1 := (if marks then [ClockRead; ClockRead] else [ClockRead])
               ++ [LogRow (arg_log args) row]).
  assert (Htr3 : (if marks then ((tr ++ evs0) ++ [ClockRead]) ++ [ClockRead]
                  else (tr ++ evs0) ++ [ClockRead]) ++ [LogRow (arg_log args) row]
                 = tr ++ evs0 ++ evs1).
  { unfold evs1. destruct marks; rewrite <- !app_assoc; reflexivity. }
  rewrite Htr3.
  assert (Hrows1 : log_rows (evs0 ++ evs1) = [row]).
  { rewrite log_rows_app, Hrows. unfold evs1. destruct marks; reflexivity. }
  assert (Hsaved1 : saved (evs0 ++ evs1) = []).
  { rewrite saved_app, Hsaved. unfold evs1. destruct marks; reflexivity. }
  assert (Hslept1 : slept (evs0 ++ evs1) = slept evs0).
  { rewrite slept_app. unfold evs1. destruct marks; cbn; lia. }
  assert (Hmarks : forall cs,
            cs = (if marks
                  then alter (mark_sent
                                (strftime w (clock w ((tr ++ evs0) ++ [ClockRead]))
                                   "%Y-%m-%d %H:%M:%S")) original_idx contacts
                  else contacts) ->
            if marks
            then exists t, cs = alter (mark_sent (strftime w t "%Y-%m-%d %H:%M:%S"))
                                      original_idx contacts
            else cs = contacts).
  { intros cs ->. destruct marks; [eexists|]; reflexivity. }
  destruct (idx <? total)%nat eqn:Eidx.
  - destruct (time_sleep_cases (arg_sleep args) (tr ++ evs0 ++ evs1))
      as [[Es ->]|[_ [e ->]]]; [|discriminate].
    intros H. injection H as Hc Hst Htr. subst stats' tr'.
    exists ((evs0 ++ evs1) ++ [Sleep (arg_sleep args)]), success, info,
      (isoformat w (clock w (tr ++ evs0))).
    rewrite log_rows_app, saved_app, slept_app, Hrows1, Hsaved1, Hslept1.
    rewrite <- !app_assoc.
    do 4 (split; [reflexivity|]). split; [apply Hmarks; symmetry; exact Hc|].
    exists (slept evs0). cbn [slept]. repeat split; try lia.
    intros Hd. rewrite (Hdry Hd). reflexivity.
  - intros H. injection H as Hc Hst Htr. subst stats' tr'.
    exists (evs0 ++ evs1), success, info, (isoformat w (clock w (tr ++ evs0))).
    rewrite Hrows1, Hsaved1, Hslept1.
    do 4 (split; [reflexivity|]). split; [apply Hmarks; symmetry; exact Hc|].
    exists (slept evs0). repeat split; try lia.
    + intros Hd. rewrite (Hdry Hd). reflexivity.
    + apply Nat.ltb_ge in Eidx. lia.
Qed.

(** What a turn of the send loop adds to the trace, whatever comes of it. *)
Lemma send_body_effects (total idx original_idx : nat) (contact : Contact)
  (contacts : list Contact) (stats : Stats) (tr : list event) :
  exists evs,
    snd (send_body w args env_vars subject_template html_template today total idx
           original_idx contact contacts stats tr) = tr ++ evs
    /\ saved evs = []
    /\ Forall (fun m => m = compose w args env_vars subject_template html_template
                               today contact) (attempted evs)
    /\ (arg_dry_run args = true -> attempted evs = []).
Proof.
  rewrite send_body_eq.
  destruct (retry_of_main_effects
              (compose w args env_vars subject_template html_template today contact) tr)
    as (evs0 & Hsnd & Hsess & _ & Hsaved & _ & Hdry).
  destruct (send_email_with_retry _ _ _ _ _ tr) as [[[success info]|c|e] tr1];
    cbn [snd] in Hsnd; subst tr1.
  2,3: (exists evs0; repeat split; auto; intros Hd; rewrite (Hdry Hd); reflexivity).
  cbn zeta.
  set (row := send_row args contact success info (isoformat w (clock w (tr ++ evs0)))).
  set (evs1 := (if success && arg_update_contacts args
                then [ClockRead; ClockRead] else [ClockRead])
               ++ [LogRow (arg_log args) row]).
  assert (Htr3 : (if success && arg_update_contacts args
                  then ((tr ++ evs0) ++ [ClockRead]) ++ [ClockRead]
                  else (tr ++ evs0) ++ [ClockRead]) ++ [LogRow (arg_log args) row]
                 = tr ++ evs0 ++ evs1).
  { unfold evs1. destruct (success && arg_update_contacts args);
      rewrite <- !app_assoc; reflexivity. }
  rewrite Htr3.
  assert (H1 : saved (evs0 ++ evs1) = [] /\ attempted (evs0 ++ evs1) = attempted evs0).
  { rewrite saved_app, attempted_app, Hsaved. unfold evs1.
    destruct (success && arg_update_contacts args); cbn; rewrite app_nil_r; auto. }
  destruct H1 as [Hsv Hss].
  assert (Hdry' : arg_dry_run args = true -> attempted evs0 = [])
    by (intros Hd; rewrite (Hdry Hd); reflexivity).
  destruct (idx <? total)%nat;
    [destruct (time_sleep_cases (arg_sleep args) (tr ++ evs0 ++ evs1))
       as [[_ ->]|[_ [e ->]]]|]; cbn [snd].
  - exists ((evs0 ++ evs1) ++ [Sleep (arg_sleep args)]).
    split; [rewrite <- !app_assoc; reflexivity|].
    rewrite saved_app, attempted_app, Hsv, Hss.
    cbn [saved attempted app]. rewrite app_nil_r. repeat split; auto.
  - exists (evs0 ++ evs1). rewrite Hsv, Hss. auto.
  - exists (evs0 ++ evs1). rewrite Hsv, Hss. auto.
Qed.

Lemma send_loop_effects (total : nat) (todo : list (nat * (nat * Contact))) :
  forall (contacts : list Contact) (stats : Stats) (tr : list event),
  exists evs,
    snd (send_loop w args env_vars subject_template html_template today total
           todo contacts stats tr) = tr ++ evs
    /\ saved evs = []
    /\ Forall (fun m => exists item, In item todo
                  /\ m = compose w args env_vars subject_template html_template
                            today (snd (snd item))) (attempted evs)
    /\ (arg_dry_run args = true -> attempted evs = []).
Proof.
  induction todo as [|[idx [i c]] todo IH]; intros contacts stats tr.
  - exists []. rewrite app_nil_r. repeat split; auto.
  - rewrite send_loop_cons.
    destruct (send_body_effects total idx i c contacts stats tr)
      as (evs1 & Hsnd & Hsaved & Hsess & Hdry).
    assert (Hmine : Forall (fun m => exists item, In item ((idx, (i, c)) :: todo)
                      /\ m = compose w args env_vars subject_template html_template
                                today (snd (snd item))) (attempted evs1)).
    { eapply Forall_impl; [exact Hsess|]. intros m ->.
      exists (idx, (i, c)). split; [left; reflexivity|reflexivity]. }
    destruct (send_body _ _ _ _ _ _ _ _ _ _ _ _ tr) as [[[contacts1 stats1]|?|?] tr1];
      cbn [snd] in Hsnd; subst tr1.
    2,3: (exists evs1; repeat split; auto).
    destruct (IH contacts1 stats1 (tr ++ evs1)) as (evs & Hrun & Hsv & Hss & Hd).
    exists (evs1 ++ evs). rewrite Hrun, <- app_assoc, saved_app, attempted_app, Hsaved, Hsv.
    repeat split; auto.
    + apply Forall_app. split; [exact Hmine|].
      eapply Forall_impl; [exact Hss|]. intros m (item & Hin & ->).
      exists item. split; [right; exact Hin|reflexivity].
    + intros Hdr. rewrite (Hdry Hdr), (Hd Hdr). reflexivity.
Qed.

Lemma reports_error_send_row (contact : Contact) (success : bool)
  (info timestamp : string) :
  reports_error (send_row args contact success info timestamp) = negb success.
Proof.
  unfold reports_error, send_row. cbn [log_status].
  destruct success, (arg_dry_run args); reflexivity.
Qed.

(** A send loop that comes to its end has logged one row for each
    contact, in order, and has counted each row once. *)
Lemma send_loop_log (total : nat) (todo : list (nat * (nat * Contact))) :
  forall (contacts contacts' : list Contact) (stats stats' : Stats)
         (tr tr' : list event),
  send_loop w args env_vars subject_template html_template today total
    todo contacts stats tr = (Return (contacts', stats'), tr') ->
  exists evs,
    tr' = tr ++ evs
    /\ log_email <$> log_rows evs = (fun item => email (snd (snd item))) <$> todo
    /\ sent stats' = sent stats
         + Z.of_nat (length (List.filter (fun row => negb (reports_error row))
                               (log_rows evs)))
    /\ failed stats' = failed stats
         + Z.of_nat (length (List.filter reports_error (log_rows evs)))
    /\ Forall (fun row => log_status row = "ERROR"
                          \/ log_status row
                             = (if arg_dry_run args then "DRY_RUN" else "SENT"))
              (log_rows evs).
Proof.
  induction todo as [|[idx [i c]] todo IH];
    intros contacts contacts' stats stats' tr tr' Hrun.
  - cbn in Hrun. injection Hrun as <- <- <-. exists [].
    rewrite app_nil_r. cbn. repeat split; auto; lia.
  - rewrite send_loop_cons in Hrun.
    destruct (send_body _ _ _ _ _ _ _ _ _ _ _ _ tr)
      as [[[contacts1 stats1]|?|?] tr1] eqn:Hbody; try discriminate.
    apply send_body_returns in Hbody
      as (evs1 & success & info & ts & -> & Hrow & _ & -> & _ & _).
    apply IH in Hrun as (evs & -> & Hemails & Hsent & Hfailed & Hstatus).
    exists (evs1 ++ evs). rewrite <- app_assoc, log_rows_app, Hrow.
    split; [reflexivity|].
    cbn [app fmap list_fmap List.filter length snd].
    rewrite reports_error_send_row.
    split; [cbn [send_row log_email]; f_equal; exact Hemails|].
    split; [|split].
    + rewrite Hsent. destruct success; cbn [negb with_sent with_failed sent length]; lia.
    + rewrite Hfailed. destruct success; cbn [negb with_sent with_failed failed length]; lia.
    + constructor; [|exact Hstatus].
      unfold send_row. cbn [log_status].
      destruct success, (arg_dry_run args); auto.
Qed.


Lemma settled_elsewhere (contacts contacts1 contacts' : list Contact)
  (item : nat * (nat * Contact)) (row : LogEntry) :
  contacts1 !! fst (snd item) = contacts !! fst (snd item) ->
  settled w args contacts1 contacts' item row ->
  settled w args contacts contacts' item row.
Proof.
  unfold settled. intros Hsame [He Hrest]. split; [exact He|].
  rewrite Hsame in Hrest. exact Hrest.
Qed.

Lemma settled_later (contacts contacts1 contacts' : list Contact) (i : nat)
  (todo : list (nat * (nat * Contact))) (rows : list LogEntry) :
  (forall j, j <> i -> contacts1 !! j = contacts !! j) ->
  (forall item, In item todo -> fst (snd item) <> i) ->
  Forall2 (settled w args contacts1 contacts') todo rows ->
  Forall2 (settled w args contacts contacts') todo rows.
Proof.
  intros Hother Hne Hall. induction Hall as [|item row todo rows Hs Hall IH];
    constructor.
  - apply (settled_elsewhere contacts contacts1); [|exact Hs].
    apply Hother, Hne. left. reflexivity.
  - apply IH. intros item' Hin. apply Hne. right. exact Hin.
Qed.

(** A send loop that comes to its end over contacts with distinct
    indices leaves every contact it did not handle as it was, and every
    contact it handled as the row logged for it says. *)
Lemma send_loop_marks (total : nat) (todo : list (nat * (nat * Contact))) :
  forall (contacts contacts' : list Contact) (stats stats' : Stats)
         (tr tr' : list event),
  NoDup (original_indices todo) ->
  send_loop w args env_vars subject_template html_template today total
    todo contacts stats tr = (Return (contacts', stats'), tr') ->
  exists evs,
    tr' = tr ++ evs
    /\ saved evs = []
    /\ length contacts' = length contacts
    /\ (forall j, ~ In j (original_indices todo) -> contacts' !! j = contacts !! j)
    /\ Forall2 (settled w args contacts contacts') todo (log_rows evs).
Proof.
  induction todo as [|[idx [i c]] todo IH];
    intros contacts contacts' stats stats' tr tr' Hnd Hrun.
  - cbn in Hrun. injection Hrun as <- <- <-. exists [].
    rewrite app_nil_r. cbn. repeat split; auto.
  - rewrite send_loop_cons in Hrun.
    cbn [original_indices fmap list_fmap fst snd] in Hnd.
    apply NoDup_cons in Hnd as [Hfresh Hnd].
    rewrite list_elem_of_In in Hfresh. fold (original_indices todo) in Hfresh, Hnd.
    destruct (send_body _ _ _ _ _ _ _ _ _ _ _ _ tr)
      as [[[contacts1 stats1]|?|?] tr1] eqn:Hbody; try discriminate.
    apply send_body_returns in Hbody
      as (evs1 & success & info & ts & -> & Hrow & Hsaved1 & _ & Hmark & _).
    apply (IH _ _ _ _ _ _ Hnd) in Hrun as (evs & -> & Hsaved & Hlen & Hkeep & Hall).
    assert (Hother : forall j, j <> i -> contacts1 !! j = contacts !! j).
    { intros j Hj. destruct (success && arg_update_contacts args).
      - destruct Hmark as [t ->]. apply list_lookup_alter_ne. congruence.
      - subst contacts1. reflexivity. }
    assert (Hlen1 : length contacts1 = length contacts).
    { destruct (success && arg_update_contacts args).
      - destruct Hmark as [t ->]. apply length_alter.
      - subst contacts1. reflexivity. }
    exists (evs1 ++ evs). rewrite <- app_assoc, saved_app, log_rows_app, Hrow, Hsaved1, Hsaved.
    split; [reflexivity|]. split; [reflexivity|]. split; [congruence|]. split.
    { intros j Hj. cbn [original_indices fmap list_fmap fst snd] in Hj.
      rewrite Hkeep by (intros Hin; apply Hj; right; exact Hin).
      apply Hother. intros ->. apply Hj. left. reflexivity. }
    cbn [app]. constructor.
    + unfold settled. cbn [fst snd]. split; [reflexivity|].
      rewrite reports_error_send_row, (Hkeep i Hfresh).
      destruct success; cbn [negb orb andb] in *.
      * destruct (arg_update_contacts args); cbn [negb].
        -- destruct Hmark as [t ->]. exists t. apply list_lookup_alter_eq.
        -- subst contacts1. reflexivity.
      * subst contacts1. reflexivity.
    + apply (settled_later contacts contacts1 contacts' i); [exact Hother| |exact Hall].
      intros item Hin Hi. apply Hfresh. unfold original_indices.
      rewrite <- Hi. apply (in_map (fun item => fst (snd item))), Hin.
Qed.

End SendLoop.

(** ** The run against any relay *)

Section Run.

Variable w : Collaborators.
Variable args : Args.
Variable env_vars : EnvVars.
Variables subject_template html_template : string.
Variable contacts : list Contact.

(** [main] in one equation, by what the two loops come to. *)
Lemma main_eq (tr : list event) :
  main w args env_vars subject_template html_template contacts tr =
  if attachment_missing w args then (SysExit 1, tr)
  else
    match filter_loop w args (enumerate 0 contacts) [] tr with
    | (Return selected, tr1) =>
        match selected with
        | [] => (SysExit 0, tr1)
        | _ =>
            match send_loop w args env_vars subject_template html_template
                    (strftime w (clock w tr1) "%d/%m/%Y") (length selected)
                    (enumerate 1 selected) contacts
                    {| sent := 0; failed := 0; skipped := 0 |}
                    (tr1 ++ [ClockRead]) with
            | (Return (contacts', stats), tr2) =>
                (Return stats,
                 if arg_update_contacts args && (0 <? sent stats)
                 then tr2 ++ [SaveContacts (arg_csv args) contacts']
                 else tr2)
            | (SysExit c, tr2) => (SysExit c, tr2)
            | (Raise e, tr2) => (Raise e, tr2)
            end
        end
    | (SysExit c, tr1) => (SysExit c, tr1)
    | (Raise e, tr1) => (Raise e, tr1)
    end.
Proof.
  unfold main, attachment_missing.
  destruct (match arg_attachment args with
            | Some path => truthy path && negb (path_exists w path)
            | None => false
            end); [reflexivity|].
  unfold bind at 1.
  destruct (filter_loop w args (enumerate 0 contacts) [] tr)
    as [[selected|?|?] tr1]; [|reflexivity..].
  destruct selected as [|first rest]; [reflexivity|].
  unfold bind at 1, datetime_now. unfold bind at 1.
  destruct (send_loop _ _ _ _ _ _ _ _ _ _ _) as [[[contacts' stats]|?|?] tr2];
    [|reflexivity..].
  unfold bind, save_contacts, emit, ret.
  destruct (arg_update_contacts args && (0 <? sent stats)); reflexivity.
Qed.

End Run.


(** Neither the retry loop nor [send_email_with_retry] ends the process. *)
Lemma retry_loop_never_exits (r : EnvVars -> EmailMessage -> nat -> session)
  (env_vars : EnvVars) (msg : EmailMessage) (dry_run : bool) (max_retries : Z)
  (attempts : list Z) :
  forall (tr tr' : list event) (code : Z),
  retry_loop r env_vars msg dry_run max_retries attempts tr <> (SysExit code, tr').
Proof.
  induction attempts as [|attempt rest IH]; intros tr tr' code; [discriminate|].
  rewrite retry_loop_cons.
  destruct (send_email r env_vars msg dry_run tr) as [[[success info]|c|e] tr1] eqn:Hs.
  - destruct success; [discriminate|].
    destruct (is_auth_info info); [discriminate|].
    destruct (is_recipient_info info); [discriminate|].
    destruct (attempt <? max_retries - 1); [|discriminate].
    destruct (time_sleep_cases (5 * 2 ^ attempt) tr1) as [[_ ->]|[_ [e ->]]];
      [apply IH|discriminate].
  - exfalso. unfold send_email in Hs. destruct dry_run; [discriminate|].
    destruct (r env_vars msg _) as [|e]; [discriminate|].
    destruct (failure_info e); discriminate.
  - discriminate.
Qed.

Lemma send_email_with_retry_never_exits (r : EnvVars -> EmailMessage -> nat -> session)
  (env_vars : EnvVars) (msg : EmailMessage) (dry_run : bool) (max_retries : Z)
  (tr tr' : list event) (code : Z) :
  send_email_with_retry r env_vars msg dry_run max_retries tr <> (SysExit code, tr').
Proof.
  unfold send_email_with_retry, bind.
  destruct (retry_loop r env_vars msg dry_run max_retries (Py.range max_retries) tr)
    as [[[out|]|c|e] tr1] eqn:Hl; try discriminate.
  exfalso. exact (retry_loop_never_exits _ _ _ _ _ _ _ _ _ Hl).
Qed.

Section RunProperties.

Variable w : Collaborators.
Variable args : Args.
Variable env_vars : EnvVars.
Variables subject_template html_template : string.

(** Neither loop of [main] ends the process. *)
Lemma send_loop_never_exits (today : string) (total : nat)
  (todo : list (nat * (nat * Contact))) :
  forall (contacts : list Contact) (stats : Stats) (tr tr' : list event) (code : Z),
  send_loop w args env_vars subject_template html_template today total
    todo contacts stats tr <> (SysExit code, tr').
Proof.
  induction todo as [|[idx [i c]] todo IH]; intros contacts stats tr tr' code;
    [discriminate|].
  rewrite send_loop_cons, send_body_eq.
  destruct (send_email_with_retry _ _ _ _ _ tr) as [[[success info]|c0|e] tr1] eqn:Hs.
  - cbn zeta. destruct (idx <? total)%nat; [|apply IH].
    match goal with
    | |- context [time_sleep ?s ?t] =>
        destruct (time_sleep_cases s t) as [[_ ->]|[_ [e ->]]]
    end; [apply IH|discriminate].
  - exfalso. exact (send_email_with_retry_never_exits _ _ _ _ _ _ _ _ Hs).
  - discriminate.
Qed.

Lemma filter_loop_never_exits (rows : list (nat * Contact)) :
  forall (acc : list (nat * Contact)) (tr tr' : list event) (code : Z),
  filter_loop w args rows acc tr <> (SysExit code, tr').
Proof.
  induction rows as [|[idx contact] rows IH]; intros acc tr tr' code; [discriminate|].
  rewrite filter_loop_cons, filter_body_eq.
  destruct (examined args (idx, contact)); [|apply IH].
  pose proof (verdict_never_exits w (email contact)) as Hv.
  destruct (verdict w (email contact)) as [[|]|c|e].
  - cbn zeta. destruct (max_reached args _); [discriminate|apply IH].
  - apply IH.
  - exfalso. exact (Hv c eq_refl).
  - discriminate.
Qed.

Lemma send_loop_skipped (today : string) (total : nat)
  (todo : list (nat * (nat * Contact))) :
  forall (contacts contacts' : list Contact) (stats stats' : Stats)
         (tr tr' : list event),
  send_loop w args env_vars subject_template html_template today total
    todo contacts stats tr = (Return (contacts', stats'), tr') ->
  skipped stats' = skipped stats.
Proof.
  induction todo as [|[idx [i c]] todo IH];
    intros contacts contacts' stats stats' tr tr' Hrun.
  - cbn in Hrun. injection Hrun as <- <- <-. reflexivity.
  - rewrite send_loop_cons in Hrun.
    destruct (send_body _ _ _ _ _ _ _ _ _ _ _ _ tr) as [[[contacts1 stats1]|?|?] tr1] eqn:Hb;
      [|discriminate..].
    apply send_body_returns in Hb
      as (_ & success & _ & _ & _ & _ & _ & -> & _).
    rewrite (IH _ _ _ _ _ _ Hrun). destruct success; reflexivity.
Qed.

Variable contacts : list Contact.

(** The contacts selected qualify, and each is the row of the file at
    its index. *)
Lemma selected_qualify (selected : list (nat * Contact)) (tr tr' : list event) :
  filter_loop w args (enumerate 0 contacts) [] tr = (Return selected, tr') ->
  forall i c, In (i, c) selected ->
  contacts !! i = Some c /\ qualifies w args (i, c) = true.
Proof.
  intros Hrun i c Hin.
  destruct (filter_loop_selected w args _ _ _ _ _ Hrun i c Hin)
    as [[]|(Hrow & Hfrom & Hh & Hv)].
  split.
  - apply enumerate_lookup in Hrow as [_ H]. rewrite Nat.sub_0_r in H. exact H.
  - unfold qualifies, examined. cbn [fst snd]. rewrite Hh.
    replace (arg_from_row args <=? Z.of_nat i) with true
      by (symmetry; apply Z.leb_le; exact Hfrom).
    specialize (Hv []). rewrite validate_email_verdict in Hv. cbn [fst] in Hv.
    rewrite Hv. reflexivity.
Qed.

(** The contacts selected carry different indices. *)
Lemma selected_indices_NoDup (selected : list (nat * Contact)) (tr tr' : list event) :
  filter_loop w args (enumerate 0 contacts) [] tr = (Return selected, tr') ->
  NoDup (original_indices (enumerate 1 selected)).
Proof.
  intros Hrun.
  destruct (filter_loop_sublist w args _ _ _ _ _ Hrun) as (picked & -> & Hsub).
  cbn [app].
  assert (E : forall (l : list (nat * Contact)) start,
            original_indices (enumerate start l) = l.*1).
  { induction l as [|x l IH]; intros start; [reflexivity|].
    unfold original_indices in *. cbn [enumerate fmap list_fmap fst snd].
    f_equal. apply IH. }
  rewrite E.
  apply (sublist_NoDup _ ((enumerate 0 contacts).*1)).
  - rewrite enumerate_indices. apply NoDup_seq.
  - apply fmap_sublist, Hsub.
Qed.

(** A run of [main] that comes to its end: the two loops behind it. *)
Lemma main_returns (stats : Stats) (tr tr' : list event) :
  main w args env_vars subject_template html_template contacts tr
  = (Return stats, tr') ->
  attachment_missing w args = false
  /\ exists selected tr1 contacts' tr2,
       filter_loop w args (enumerate 0 contacts) [] tr = (Return selected, tr1)
       /\ selected <> []
       /\ send_loop w args env_vars subject_template html_template
            (strftime w (clock w tr1) "%d/%m/%Y") (length selected)
            (enumerate 1 selected) contacts
            {| sent := 0; failed := 0; skipped := 0 |} (tr1 ++ [ClockRead])
          = (Return (contacts', stats), tr2)
       /\ tr' = if arg_update_contacts args && (0 <? sent stats)
                then tr2 ++ [SaveContacts (arg_csv args) contacts']
                else tr2.
Proof.
  rewrite main_eq.
  destruct (attachment_missing w args); [discriminate|].
  intros Hrun. split; [reflexivity|].
  destruct (filter_loop w args (enumerate 0 contacts) [] tr)
    as [[selected|?|?] tr1]; [|discriminate..].
  destruct selected as [|first rest]; [discriminate|].
  destruct (send_loop _ _ _ _ _ _ _ _ _ _ _) as [[[contacts' stats']|?|?] tr2] eqn:Hs;
    [|discriminate..].
  injection Hrun as <- <-.
  exists (first :: rest), tr1, contacts', tr2.
  split; [reflexivity|]. split; [discriminate|]. split; [exact Hs|reflexivity].
Qed.

(** What a run of [main] adds to the trace, whatever its outcome. *)
Lemma main_effects (tr : list event) :
  exists evs,
    snd (main w args env_vars subject_template html_template contacts tr) = tr ++ evs
    /\ (arg_dry_run args = true -> attempted evs = [])
    /\ Forall (fun m => exists i c (t : datetime w),
                 contacts !! i = Some c /\ qualifies w args (i, c) = true
                 /\ m = compose w args env_vars subject_template html_template
                          (strftime w t "%d/%m/%Y") c) (attempted evs)
    /\ (saved evs = []
        \/ exists stats contacts' evs0,
             fst (main w args env_vars subject_template html_template contacts tr)
             = Return stats
             /\ arg_update_contacts args = true /\ 0 < sent stats
             /\ evs = evs0 ++ [SaveContacts (arg_csv args) contacts']
             /\ saved evs0 = []).
Proof.
  rewrite main_eq.
  destruct (attachment_missing w args).
  { exists []. rewrite app_nil_r. cbn. repeat split; auto. }
  destruct (filter_loop_effects w args (enumerate 0 contacts) [] tr)
    as (evs1 & Hsnd1 & Hs1 & _ & Hv1 & _).
  destruct (filter_loop w args (enumerate 0 contacts) [] tr)
    as [[selected|?|?] tr1] eqn:Hf; cbn [snd] in Hsnd1; subst tr1.
  2,3: (exists evs1; rewrite Hs1; cbn [snd]; repeat split; auto).
  destruct selected as [|first rest].
  { exists evs1. rewrite Hs1. cbn [snd]. repeat split; auto. }
  set (selected := first :: rest) in *.
  set (today := strftime w (clock w (tr ++ evs1)) "%d/%m/%Y").
  destruct (send_loop_effects w args env_vars subject_template html_template today
              (length selected) (enumerate 1 selected) contacts
              {| sent := 0; failed := 0; skipped := 0 |} ((tr ++ evs1) ++ [ClockRead]))
    as (evs2 & Hsnd2 & Hv2 & Hs2 & Hd2).
  assert (Hmine : Forall (fun m => exists i c (t : datetime w),
                 contacts !! i = Some c /\ qualifies w args (i, c) = true
                 /\ m = compose w args env_vars subject_template html_template
                          (strftime w t "%d/%m/%Y") c) (attempted evs2)).
  { eapply Forall_impl; [exact Hs2|]. intros m ([idx [i c]] & Hin & ->).
    cbn [snd]. exists i, c, (clock w (tr ++ evs1)).
    assert (Hsel : In (i, c) selected).
    { apply enumerate_lookup in Hin as [_ Hl]. apply list_elem_of_In.
      eapply list_elem_of_lookup_2. exact Hl. }
    destruct (selected_qualify _ _ _ Hf i c Hsel) as [Hrow Hq].
    repeat split; assumption. }
  destruct (send_loop _ _ _ _ _ _ _ _ _ _ _) as [[[contacts' stats]|?|?] tr2];
    cbn [snd] in Hsnd2; subst tr2; cbn [snd fst].
  2,3: (exists (evs1 ++ [ClockRead] ++ evs2); rewrite !app_assoc;
        split; [reflexivity|]; rewrite <- !app_assoc, attempted_app, saved_app, Hs1, Hv1;
        cbn [app attempted saved]; repeat split; auto).
  destruct (arg_update_contacts args && (0 <? sent stats)) eqn:Hu.
  - apply andb_true_iff in Hu as [Hupd Hsent]. apply Z.ltb_lt in Hsent.
    exists ((evs1 ++ [ClockRead] ++ evs2) ++ [SaveContacts (arg_csv args) contacts']).
    split; [rewrite !app_assoc; reflexivity|].
    rewrite !attempted_app, Hs1. cbn [app attempted]. rewrite app_nil_r.
    split; [exact Hd2|]. split; [exact Hmine|]. right.
    exists stats, contacts', (evs1 ++ [ClockRead] ++ evs2).
    repeat split; auto.
    rewrite saved_app, Hv1. cbn [app saved]. exact Hv2.
  - exists (evs1 ++ [ClockRead] ++ evs2). split; [rewrite !app_assoc; reflexivity|].
    rewrite attempted_app, saved_app, Hs1, Hv1. cbn [app attempted saved].
    repeat split; auto.
Qed.

End RunProperties.

Lemma emails_of_enumerate (l : list (nat * Contact)) :
  forall start,
  (fun item : nat * (nat * Contact) => email (snd (snd item))) <$> enumerate start l
  = (fun row : nat * Contact => email (snd row)) <$> l.
Proof.
  induction l as [|x l IH]; intros start; [reflexivity|].
  cbn [enumerate fmap list_fmap snd]. f_equal. apply IH.
Qed.

Section RunTheorems.

Variable w : Collaborators.
Variable args : Args.
Variable env_vars : EnvVars.
Variables subject_template html_template : string.
Variable contacts : list Contact.


(** Whatever its outcome, every attempt to send of a run of [main]
    (so every SMTP session it opens) carries the message composed for a
    row of the contacts file that is not before the start row, has a
    status other than SENT and SKIP and a valid email; with [--dry-run]
    the run makes no attempt at all. *)
Theorem mail_goes_only_to_qualifying_rows (tr : list event) :
  exists evs,
    snd (main w args env_vars subject_template html_template contacts tr) = tr ++ evs
    /\ Forall (fun m => exists i c (t : datetime w),
                 contacts !! i = Some c /\ qualifies w args (i, c) = true
                 /\ m = compose w args env_vars subject_template html_template
                          (strftime w t "%d/%m/%Y") c) (attempted evs)
    /\ (arg_dry_run args = true -> attempted evs = []).
Proof.
  destruct (main_effects w args env_vars subject_template html_template contacts tr)
    as (evs & Hsnd & Hdry & Hsess & _).
  exists evs. repeat split; assumption.
Qed.

(** A run of [main] that comes to its end has logged, after the filter
    loop, one row for each contact selected, in the order of the
    selection; [sent] counts the rows that do not report an error and
    [failed] the rows that do, so that the two add up to the number of
    contacts selected, and [skipped] is still 0. *)
Theorem run_counters_agree_with_log (stats : Stats) (tr tr' : list event) :
  main w args env_vars subject_template html_template contacts tr
  = (Return stats, tr') ->
  exists selected tr1 evs,
    filter_loop w args (enumerate 0 contacts) [] tr = (Return selected, tr1)
    /\ selected <> []
    /\ tr' = tr1 ++ evs
    /\ log_email <$> log_rows evs = (fun row => email (snd row)) <$> selected
    /\ sent stats
       = Z.of_nat (length (List.filter (fun row => negb (reports_error row))
                             (log_rows evs)))
    /\ failed stats = Z.of_nat (length (List.filter reports_error (log_rows evs)))
    /\ sent stats + failed stats = Z.of_nat (length selected)
    /\ skipped stats = 0
    /\ Forall (fun row => log_status row = "ERROR"
                          \/ log_status row
                             = (if arg_dry_run args then "DRY_RUN" else "SENT"))
         (log_rows evs).
Proof.
  intros Hrun.
  destruct (main_returns _ _ _ _ _ _ _ _ _ Hrun)
    as (_ & selected & tr1 & contacts' & tr2 & Hf & Hne & Hs & ->).
  destruct (send_loop_log _ _ _ _ _ _ _ _ _ _ _ _ _ _ Hs)
    as (evs & -> & Hemails & Hsent & Hfailed & Hstatus).
  pose proof (send_loop_skipped _ _ _ _ _ _ _ _ _ _ _ _ _ _ Hs) as Hskipped.
  cbn [sent failed skipped] in *.
  rewrite emails_of_enumerate in Hemails.
  set (save := [SaveContacts (arg_csv args) contacts']).
  exists selected, tr1,
    ([ClockRead] ++ evs ++ (if arg_update_contacts args && (0 <? sent stats)
                            then save else [])).
  assert (Hrows : log_rows ([ClockRead] ++ evs
                    ++ (if arg_update_contacts args && (0 <? sent stats)
                        then save else [])) = log_rows evs).
  { rewrite !log_rows_app. cbn [log_rows app].
    destruct (arg_update_contacts args && (0 <? sent stats));
      cbn [save log_rows]; apply app_nil_r. }
  rewrite Hrows.
  split; [exact Hf|]. split; [exact Hne|]. split.
  { destruct (arg_update_contacts args && (0 <? sent stats));
      rewrite <- ?app_assoc; cbn [app]; rewrite ?app_nil_r; reflexivity. }
  split; [exact Hemails|]. split; [lia|]. split; [lia|].
  split; [|split; [exact Hskipped|exact Hstatus]].
  rewrite Hsent, Hfailed.
  pose proof (List.filter_length reports_error (log_rows evs)) as Hlen.
  assert (Hn : length (log_rows evs) = length selected).
  { rewrite <- (length_fmap log_email), Hemails, length_fmap. reflexivity. }
  lia.
Qed.

(** When a run of [main] with [--update-contacts] comes to its end with
    at least one email sent, the list it writes to the contacts file as
    its last step has as many rows as the list it loaded; a row that
    was not selected is written as it was loaded; a selected row whose
    log row reports an error is written as it was loaded too, and a
    selected row whose log row reports a success is written marked
    SENT with the time of the send. *)
Theorem saved_file_marks_the_delivered (stats : Stats) (tr tr' : list event) :
  main w args env_vars subject_template html_template contacts tr
  = (Return stats, tr') ->
  arg_update_contacts args = true -> 0 < sent stats ->
  exists selected tr1 evs contacts',
    filter_loop w args (enumerate 0 contacts) [] tr = (Return selected, tr1)
    /\ tr' = tr1 ++ evs ++ [SaveContacts (arg_csv args) contacts']
    /\ saved evs = []
    /\ length contacts' = length contacts
    /\ (forall j, (forall c, ~ In (j, c) selected) -> contacts' !! j = contacts !! j)
    /\ Forall2 (settled w args contacts contacts') (enumerate 1 selected)
         (log_rows evs).
Proof.
  intros Hrun Hupd Hsent.
  destruct (main_returns _ _ _ _ _ _ _ _ _ Hrun)
    as (_ & selected & tr1 & contacts' & tr2 & Hf & Hne & Hs & ->).
  pose proof (selected_indices_NoDup _ _ _ _ _ _ Hf) as Hnd.
  destruct (send_loop_marks _ _ _ _ _ _ _ _ _ _ _ _ _ _ Hnd Hs)
    as (evs & -> & Hsaved & Hlen & Hkeep & Hsettled).
  rewrite Hupd. replace (0 <? sent stats) with true by (symmetry; apply Z.ltb_lt; lia).
  cbn [andb].
  exists selected, tr1, ([ClockRead] ++ evs), contacts'.
  split; [exact Hf|]. split; [rewrite <- !app_assoc; reflexivity|].
  split; [exact Hsaved|]. split; [exact Hlen|]. split; [|exact Hsettled].
  intros j Hj. apply Hkeep. unfold original_indices. intros Hin.
  apply list_elem_of_In, list_elem_of_fmap in Hin as ([idx [i c]] & -> & Hin).
  apply list_elem_of_In, enumerate_lookup in Hin as [_ Hl]. cbn [fst snd] in Hj.
  apply (Hj c). apply list_elem_of_In. eapply list_elem_of_lookup_2. exact Hl.
Qed.


(** A run of [main] ends the process in two places only: with status 1
    at the check of the attachment, before anything else has happened,
    and with status 0 after the filter loop, when the loop has selected
    nobody.  In both cases nothing has been sent, no pause taken and
    the contacts file not written, and the rows logged all report
    invalid emails.  Neither loop ends the process, whatever the relay
    and the name service do. *)
Theorem run_exit_statuses (tr tr' : list event) (code : Z) :
  main w args env_vars subject_template html_template contacts tr = (SysExit code, tr') ->
  (code = 1 /\ attachment_missing w args = true /\ tr' = tr)
  \/ (code = 0 /\ attachment_missing w args = false
      /\ filter_loop w args (enumerate 0 contacts) [] tr = (Return [], tr')
      /\ exists evs, tr' = tr ++ evs /\ attempted evs = [] /\ slept evs = 0
                     /\ saved evs = [] /\ Forall is_invalid_email_row (log_rows evs)).
Proof.
  rewrite main_eq.
  destruct (attachment_missing w args).
  { intros H. injection H as <- <-. left. auto. }
  intros H. right.
  destruct (filter_loop_effects w args (enumerate 0 contacts) [] tr)
    as (evs & Hsnd & Hatt & Hslept & Hsaved & Hrows).
  destruct (filter_loop w args (enumerate 0 contacts) [] tr)
    as [[selected|c|e] tr1] eqn:Hf; cbn [snd] in Hsnd.
  - destruct selected as [|first rest].
    + injection H as <- <-. split; [reflexivity|]. split; [reflexivity|].
      split; [reflexivity|]. exists evs. auto.
    + exfalso.
      destruct (send_loop _ _ _ _ _ _ _ _ _ _ _) as [[[contacts' stats]|c|e] tr2] eqn:Hs;
        try discriminate.
      exact (send_loop_never_exits w args env_vars subject_template html_template
               _ _ _ _ _ _ _ _ Hs).
  - exfalso. exact (filter_loop_never_exits w args _ _ _ _ _ Hf).
  - discriminate.
Qed.

End RunTheorems.

Lemma run_counters_agree_with_log_witness :
  exists selected tr1 evs,
    filter_loop (sample_world_with relay_once) (sample_args false true)
      (enumerate 0 sample_contacts) [] [] = (Return selected, tr1)
    /\ selected <> []
    /\ snd sample_run = tr1 ++ evs
    /\ log_email <$> log_rows evs = (fun row => email (snd row)) <$> selected
    /\ 1 = Z.of_nat (length (List.filter (fun row => negb (reports_error row))
                               (log_rows evs)))
    /\ 1 = Z.of_nat (length (List.filter reports_error (log_rows evs)))
    /\ 1 + 1 = Z.of_nat (length selected)
    /\ 0 = 0
    /\ Forall (fun row => log_status row = "ERROR" \/ log_status row = "SENT")
         (log_rows evs).
Proof.
  apply (run_counters_agree_with_log (sample_world_with relay_once)
           (sample_args false true) sample_env
           "Hello {{contact_name}}" "<p>{{hotel_name}}, {{today}}</p>" sample_contacts
           {| sent := 1; failed := 1; skipped := 0 |} [] (snd sample_run)).
  vm_compute. reflexivity.
Defined.

Lemma saved_file_marks_the_delivered_witness :
  exists selected tr1 evs contacts',
    filter_loop (sample_world_with relay_once) (sample_args false true)
      (enumerate 0 sample_contacts) [] [] = (Return selected, tr1)
    /\ snd sample_run = tr1 ++ evs ++ [SaveContacts "contacts.csv" contacts']
    /\ saved evs = []
    /\ length contacts' = length sample_contacts
    /\ (forall j, (forall c, ~ In (j, c) selected)
                  -> contacts' !! j = sample_contacts !! j)
    /\ Forall2 (settled (sample_world_with relay_once) (sample_args false true)
                  sample_contacts contacts') (enumerate 1 selected) (log_rows evs).
Proof.
  apply (saved_file_marks_the_delivered (sample_world_with relay_once)
           (sample_args false true) sample_env
           "Hello {{contact_name}}" "<p>{{hotel_name}}, {{today}}</p>" sample_contacts
           {| sent := 1; failed := 1; skipped := 0 |} [] (snd sample_run)).
  - vm_compute. reflexivity.
  - reflexivity.
  - cbn. lia.
Defined.


Lemma run_exit_statuses_witness :
  let contacts := [sample_contact "a@bad.com" "" ""; sample_contact "b@good.com" "" "SENT"] in
  let run := main (sample_world_with relay_once) (sample_args false true) sample_env
               "Hello {{contact_name}}" "<p>{{hotel_name}}, {{today}}</p>" contacts [] in
  run = (SysExit 0, snd run)
  /\ ((0 = 1 /\ attachment_missing (sample_world_with relay_once) (sample_args false true)
               = true /\ snd run = [])
      \/ (0 = 0
          /\ attachment_missing (sample_world_with relay_once) (sample_args false true)
             = false
          /\ filter_loop (sample_world_with relay_once) (sample_args false true)
               (enumerate 0 contacts) [] [] = (Return [], snd run)
          /\ exists evs, snd run = [] ++ evs /\ attempted evs = [] /\ slept evs = 0
                         /\ saved evs = []
                         /\ Forall is_invalid_email_row (log_rows evs))).
Proof.
  intros contacts run.
  assert (Hrun : run = (SysExit 0, snd run)) by (vm_compute; reflexivity).
  split; [exact Hrun|].
  exact (run_exit_statuses (sample_world_with relay_once) (sample_args false true)
           sample_env "Hello {{contact_name}}" "<p>{{hotel_name}}, {{today}}</p>"
           contacts [] (snd run) 0 Hrun).
Defined.

(** ** The messages of a run, and a negative [--sleep] *)




(** ** Configuration *)

Lemma contains_char (sep : ascii) (s : string) :
  Py.contains (String sep EmptyString) s = negb (free_of sep s).
Proof.
  induction s as [|c s IH]; [reflexivity|].
  cbn [Py.contains Py.startswith free_of]. rewrite IH, (Ascii.eqb_sym sep c).
  destruct (Ascii.eqb c sep); [|reflexivity].
  destruct s; reflexivity.
Qed.

Lemma split_first_at (sep : ascii) (a b : string) :
  free_of sep a = true -> split_first sep (a +:+ String sep b) = [a; b].
Proof.
  induction a as [|c a IH]; intros H.
  - rewrite append_nil. cbn [split_first]. rewrite Ascii.eqb_refl. reflexivity.
  - apply free_of_cons in H as [Hc Ha].
    rewrite append_cons. cbn [split_first]. rewrite Ascii.eqb_sym, Hc, (IH Ha).
    reflexivity.
Qed.

Lemma split_first_found (sep : ascii) (s : string) :
  free_of sep s = false ->
  exists a b, s = a +:+ String sep b /\ free_of sep a = true.
Proof.
  induction s as [|c s IH]; [discriminate|].
  cbn [free_of]. destruct (Ascii.eqb c sep) eqn:E.
  - intros _. apply Ascii.eqb_eq in E as ->. exists EmptyString, s.
    split; reflexivity.
  - cbn [negb andb]. intros H. destruct (IH H) as (a & b & -> & Ha).
    exists (String c a), b. split; [reflexivity|].
    cbn [free_of]. rewrite E, Ha. reflexivity.
Qed.

(** The loop over the lines of the file comes to its end: the
    unpacking never fails, since it is tried on lines with a "=" only. *)
Lemma read_env_lines_returns (lines : list string) :
  forall (env_vars : gmap string string) (tr : list event),
  exists env_vars', read_env_lines lines env_vars tr = (Return env_vars', tr).
Proof.
  induction lines as [|line lines IH]; intros env_vars tr.
  - exists env_vars. reflexivity.
  - cbn [read_env_lines]. cbn zeta.
    destruct (truthy (Py.strip line) && negb (Py.startswith "#" (Py.strip line)));
      cbn [andb]; [|apply IH].
    rewrite contains_char.
    destruct (free_of "=" (Py.strip line)) eqn:E; cbn [negb]; [apply IH|].
    destruct (split_first_found _ _ E) as (key & value & -> & Hkey).
    rewrite split_first_at by exact Hkey. apply IH.
Qed.

Lemma read_env_lines_app (lines lines' : list string) :
  forall (env_vars : gmap string string) (tr : list event),
  exists env_vars1,
    read_env_lines lines env_vars tr = (Return env_vars1, tr)
    /\ read_env_lines (lines ++ lines') env_vars tr
       = read_env_lines lines' env_vars1 tr.
Proof.
  induction lines as [|line lines IH]; intros env_vars tr.
  - exists env_vars. split; reflexivity.
  - cbn [app read_env_lines]. cbn zeta.
    destruct (truthy (Py.strip line) && negb (Py.startswith "#" (Py.strip line)));
      cbn [andb]; [|apply IH].
    rewrite contains_char.
    destruct (free_of "=" (Py.strip line)) eqn:E; cbn [negb]; [apply IH|].
    destruct (split_first_found _ _ E) as (key & value & -> & Hkey).
    rewrite split_first_at by exact Hkey. apply IH.
Qed.

(** A line that reads [key=value] after stripping, with no "=" in
    [key] and no "#" at its start, is an assignment, whatever else the
    value holds: the loop binds the stripped key to the stripped value,
    over anything an earlier line bound it to, and leaves the other
    keys as the earlier lines left them. *)
Theorem env_file_last_assignment_wins (lines : list string) (line key value : string)
  (env_vars : gmap string string) (tr : list event) :
  Py.strip line = key +:+ "=" +:+ value ->
  free_of "=" key = true ->
  Py.startswith "#" key = false ->
  exists before,
    read_env_lines lines env_vars tr = (Return before, tr)
    /\ read_env_lines (lines ++ [line]) env_vars tr
       = (Return (<[Py.strip key := Py.strip value]> before), tr).
Proof.
  intros Hline Hkey Hhash.
  change (key +:+ "=" +:+ value) with (key +:+ String "=" value) in Hline.
  destruct (read_env_lines_app lines [line] env_vars tr) as (before & Hbefore & ->).
  exists before. split; [exact Hbefore|].
  cbn [read_env_lines]. cbn zeta. rewrite Hline, contains_char.
  assert (Hfree : free_of "=" (key +:+ String "=" value) = false).
  { clear -Hkey. induction key as [|c key IH]; [reflexivity|].
    apply free_of_cons in Hkey as [Hc Hk]. rewrite append_cons. cbn [free_of].
    rewrite (Ascii.eqb_sym c), Hc. cbn [negb andb]. apply IH, Hk. }
  assert (Htruthy : truthy (key +:+ String "=" value) = true).
  { destruct key; reflexivity. }
  assert (Hstart : Py.startswith "#" (key +:+ String "=" value) = false).
  { destruct key as [|c key]; [reflexivity|]. exact Hhash. }
  rewrite Hfree, Htruthy, Hstart. cbn [negb andb].
  rewrite split_first_at by exact Hkey. reflexivity.
Qed.

Lemma env_file_last_assignment_wins_witness :
  exists before,
    read_env_lines ["SMTP_PASS=old"; "# a comment"; "no assignment"]
      (∅ : gmap string string) [] = (Return before, [])
    /\ read_env_lines (["SMTP_PASS=old"; "# a comment"; "no assignment"]
                       ++ ["  SMTP_PASS = a=b # c " +:+ nbsp]) ∅ []
       = (Return (<[Py.strip "SMTP_PASS " := Py.strip " a=b # c"]> before), []).
Proof.
  apply (env_file_last_assignment_wins ["SMTP_PASS=old"; "# a comment"; "no assignment"]
           ("  SMTP_PASS = a=b # c " +:+ nbsp) "SMTP_PASS " " a=b # c" ∅ []);
    reflexivity.
Defined.

Lemma truthy_true (s : string) : truthy s = true <-> s <> EmptyString.
Proof.
  unfold truthy. destruct s; cbn; split; intros H; congruence.
Qed.

Section ConfigurationProperties.

Variable environ : gmap string string.
Variable w : Collaborators.
Variable read_lines : string -> reading.

(** The test [all(system_vars.values())]. *)
Lemma system_vars_complete :
  forallb (fun item : string * option string =>
             match snd item with
             | Some value => truthy value
             | None => false
             end) ((fun var => (var, environ !! var)) <$> required_vars) = true
  <-> Forall (fun var => exists value, environ !! var = Some value
                                       /\ value <> EmptyString) required_vars.
Proof.
  rewrite forallb_forall, Forall_forall. split.
  - intros H var Hvar.
    assert (Hin : In (var, environ !! var)
                    ((fun var => (var, environ !! var)) <$> required_vars)).
    { apply list_elem_of_In, list_elem_of_fmap. exists var.
      split; [reflexivity|exact Hvar]. }
    apply H in Hin. cbn [snd] in Hin.
    destruct (environ !! var) as [value|]; [|discriminate].
    exists value. split; [reflexivity|]. apply truthy_true, Hin.
  - intros H item Hitem.
    apply list_elem_of_In, list_elem_of_fmap in Hitem as (var & -> & Hvar).
    destruct (H var Hvar) as (value & -> & Hvalue). cbn [snd].
    apply truthy_true, Hvalue.
Qed.

(** With the six variables set in the environment, the result is made
    of the environment alone. *)
Lemma load_env_config_system (env_path : option string) (tr : list event) :
  Forall (fun var => exists value, environ !! var = Some value
                                   /\ value <> EmptyString) required_vars ->
  exists env_vars,
    load_env_config environ w read_lines env_path tr = (Return env_vars, tr)
    /\ (forall var, var ∈ required_vars -> env_vars !! var = environ !! var)
    /\ env_vars !! "SMTP_SSL" = Some (default "true" (environ !! "SMTP_SSL"))
    /\ (forall key, is_Some (env_vars !! key)
                    -> key = "SMTP_SSL" \/ key ∈ required_vars).
Proof.
  intros Hall. pose proof Hall as Htest. apply system_vars_complete in Htest.
  unfold load_env_config. rewrite Htest. clear Htest.
  eexists. split; [reflexivity|].
  unfold required_vars in *.
  repeat match goal with
         | H : Forall _ (_ :: _) |- _ =>
             apply Forall_cons in H as [(? & ? & _) H]
         end.
  cbn [fmap list_fmap omap list_omap fst snd].
  repeat match goal with H : environ !! _ = Some _ |- _ => rewrite H end.
  cbn [fmap option_fmap option_map list_to_map foldr uncurry fst snd].
  split; [|split].
  - intros var Hvar.
    repeat (apply elem_of_cons in Hvar as [-> | Hvar]); simplify_map_eq; try done.
    inversion Hvar.
  - simplify_map_eq. reflexivity.
  - intros key [value Hkey].
    repeat (apply lookup_insert_Some in Hkey as [[<- _] | [_ Hkey]];
            [set_solver|]).
    rewrite lookup_empty in Hkey. discriminate.
Qed.

Lemma incomplete_environment (var : string) :
  var ∈ required_vars ->
  environ !! var = None \/ environ !! var = Some EmptyString ->
  forallb (fun item : string * option string =>
             match snd item with
             | Some value => truthy value
             | None => false
             end) ((fun var => (var, environ !! var)) <$> required_vars) = false.
Proof.
  intros Hvar Hunset. apply not_true_is_false. intros Htest.
  apply system_vars_complete in Htest.
  rewrite Forall_forall in Htest. destruct (Htest var Hvar) as (value & Hv & Hne).
  destruct Hunset as [H|H]; congruence.
Qed.

(** [load_env_config] without the environment: the file alone. *)
Lemma load_env_config_file (env_path : option string) (tr : list event) :
  forallb (fun item : string * option string =>
             match snd item with
             | Some value => truthy value
             | None => false
             end) ((fun var => (var, environ !! var)) <$> required_vars) = false ->
  load_env_config environ w read_lines env_path tr =
  match env_path with
  | Some path =>
      if truthy path && path_exists w path then
        match read_lines path with
        | ReadRaised e => (Raise e, tr)
        | Lines lines =>
            match read_env_lines lines ∅ tr with
            | (Return env_vars, tr') =>
                if forallb (fun var => bool_decide (is_Some (env_vars !! var)))
                     required_vars
                then (Return env_vars, tr')
                else (SysExit 1, tr')
            | (SysExit code, tr') => (SysExit code, tr')
            | (Raise e, tr') => (Raise e, tr')
            end
        end
      else (SysExit 1, tr)
  | None => (SysExit 1, tr)
  end.
Proof.
  intros Htest. unfold load_env_config. rewrite Htest.
  destruct env_path as [path|]; [|reflexivity].
  destruct (truthy path && path_exists w path); [|reflexivity].
  destruct (read_lines path) as [lines|e]; [|reflexivity].
  unfold bind.
  destruct (read_env_lines lines ∅ tr) as [[env_vars|?|?] tr'];
    [|reflexivity..].
  assert (E : forall l : list string,
            match List.filter (fun var => negb (bool_decide (is_Some (env_vars !! var)))) l
            with [] => true | _ => false end
            = forallb (fun var => bool_decide (is_Some (env_vars !! var))) l).
  { induction l as [|x l IH]; [reflexivity|]. cbn [List.filter forallb].
    destruct (bool_decide (is_Some (env_vars !! x))); cbn [negb andb]; [exact IH|reflexivity]. }
  rewrite <- E.
  destruct (List.filter _ required_vars); reflexivity.
Qed.

End ConfigurationProperties.

(** When the six required variables are all set and not empty in the
    environment, [load_env_config] returns them as they are in the
    environment, with SMTP_SSL from the environment too, "true" when it
    is not set, and nothing else: neither the path of the file nor the
    file has a part in the result. *)
Theorem system_environment_wins (environ : gmap string string) (w : Collaborators)
  (read_lines : string -> reading) (env_path : option string) (tr : list event) :
  Forall (fun var => exists value, environ !! var = Some value
                                   /\ value <> EmptyString) required_vars ->
  exists env_vars,
    load_env_config environ w read_lines env_path tr = (Return env_vars, tr)
    /\ (forall var, var ∈ required_vars -> env_vars !! var = environ !! var)
    /\ env_vars !! "SMTP_SSL" = Some (default "true" (environ !! "SMTP_SSL"))
    /\ (forall key, is_Some (env_vars !! key)
                    -> key = "SMTP_SSL" \/ key ∈ required_vars).
Proof. apply load_env_config_system. Qed.

Lemma system_environment_wins_witness :
  exists env_vars,
    load_env_config sample_environ sample_world (fun _ => Lines ["SMTP_HOST=other"])
      (Some ".env") [] = (Return env_vars, [])
    /\ (forall var, var ∈ required_vars -> env_vars !! var = sample_environ !! var)
    /\ env_vars !! "SMTP_SSL" = Some (default "true" (sample_environ !! "SMTP_SSL"))
    /\ (forall key, is_Some (env_vars !! key)
                    -> key = "SMTP_SSL" \/ key ∈ required_vars).
Proof.
  apply (system_environment_wins sample_environ sample_world
           (fun _ => Lines ["SMTP_HOST=other"]) (Some ".env") []).
  unfold required_vars.
  repeat (apply Forall_cons; split;
          [eexists; split; [vm_compute; reflexivity|discriminate]|]).
  apply Forall_nil. exact I.
Defined.

(** When one of the six required variables is unset or empty in the
    environment, the environment has no part in the result: the call
    comes to what it comes to with an empty environment, so that the
    variables that are set are not merged with those of the file. *)
Theorem incomplete_environment_is_ignored (environ : gmap string string)
  (w : Collaborators) (read_lines : string -> reading) (var : string)
  (env_path : option string) (tr : list event) :
  var ∈ required_vars ->
  environ !! var = None \/ environ !! var = Some EmptyString ->
  load_env_config environ w read_lines env_path tr
  = load_env_config ∅ w read_lines env_path tr.
Proof.
  intros Hvar Hunset.
  rewrite (load_env_config_file environ w read_lines env_path tr
             (incomplete_environment environ var Hvar Hunset)).
  rewrite (load_env_config_file ∅ w read_lines env_path tr); [reflexivity|].
  apply (incomplete_environment ∅ "SMTP_HOST"); [constructor|].
  left. apply lookup_empty.
Qed.

Lemma incomplete_environment_is_ignored_witness :
  load_env_config (<["SMTP_PASS" := EmptyString]> sample_environ) sample_world
    (fun _ => Lines ["SMTP_HOST=other"]) (Some ".env") []
  = load_env_config ∅ sample_world (fun _ => Lines ["SMTP_HOST=other"]) (Some ".env") [].
Proof.
  apply (incomplete_environment_is_ignored (<["SMTP_PASS" := EmptyString]> sample_environ)
           sample_world (fun _ => Lines ["SMTP_HOST=other"]) "SMTP_PASS" (Some ".env") []).
  - unfold required_vars. do 3 right. left.
  - right. vm_compute. reflexivity.
Defined.

(** [load_env_config] has no effect the trace records.  What it
    returns binds each of the six required variables; when it ends the
    process, the status is 1; and it raises nothing of its own: an
    exception that leaves it is one that opening or reading the file
    at [env_path] has raised, which happens only when the environment
    is incomplete and the path exists. *)
Theorem loaded_config_is_complete (environ : gmap string string) (w : Collaborators)
  (read_lines : string -> reading) (env_path : option string) (tr : list event) :
  match load_env_config environ w read_lines env_path tr with
  | (Return env_vars, tr') =>
      tr' = tr /\ Forall (fun var => is_Some (env_vars !! var)) required_vars
  | (SysExit code, tr') => tr' = tr /\ code = 1
  | (Raise e, tr') =>
      tr' = tr
      /\ exists path, env_path = Some path /\ path_exists w path = true
                      /\ read_lines path = ReadRaised e
                      /\ exists var, var ∈ required_vars
                                     /\ (environ !! var = None
                                         \/ environ !! var = Some EmptyString)
  end.
Proof.
  destruct (forallb (fun item : string * option string =>
              match snd item with
              | Some value => truthy value
              | None => false
              end) ((fun var => (var, environ !! var)) <$> required_vars)) eqn:Htest.
  - pose proof Htest as Hall. apply system_vars_complete in Hall.
    destruct (load_env_config_system environ w read_lines env_path tr Hall)
      as (env_vars & -> & Hvars & _).
    split; [reflexivity|]. apply Forall_forall. intros var Hvar.
    rewrite (Hvars var Hvar). rewrite Forall_forall in Hall.
    destruct (Hall var Hvar) as (value & -> & _). eexists; reflexivity.
  - rewrite (load_env_config_file environ w read_lines env_path tr Htest).
    destruct env_path as [path|]; [|split; reflexivity].
    destruct (truthy path && path_exists w path) eqn:Hpath; [|split; reflexivity].
    destruct (read_lines path) as [lines|e] eqn:Hread.
    2:{ split; [reflexivity|]. exists path. split; [reflexivity|].
        apply andb_true_iff in Hpath as [_ Hpath]. split; [exact Hpath|].
        split; [exact Hread|].
        clear -Htest. revert Htest. generalize required_vars as vars.
        induction vars as [|var vars IH]; [discriminate|].
        cbn [fmap list_fmap forallb snd].
        destruct (environ !! var) as [[|c value]|] eqn:Hvar.
        - intros _. exists var. split; [left|right; exact Hvar].
        - cbn [truthy String.eqb negb andb]. intros H.
          destruct (IH H) as (var' & Hin & Hno).
          exists var'. split; [right; exact Hin|exact Hno].
        - intros _. exists var. split; [left|left; exact Hvar]. }
    destruct (read_env_lines_returns lines ∅ tr) as [env_vars ->].
    destruct (forallb _ required_vars) eqn:Hreq; [|split; reflexivity].
    split; [reflexivity|]. apply Forall_forall. intros var Hvar.
    rewrite forallb_forall in Hreq.
    assert (Hin : In var required_vars) by (apply list_elem_of_In; exact Hvar).
    apply Hreq, bool_decide_eq_true in Hin. exact Hin.
Qed.

(** ** The log file on disk *)

(** What one call of [log_to_file] leaves in the file it writes to, and
    in the others. *)
Lemma log_to_file_lookup (log_path path : string) (entry : LogEntry)
  (disk : Disk.files) :
  Disk.log_to_file log_path entry disk !! path =
  if String.eqb log_path path
  then Some (default [Disk.Header Disk.fieldnames] (disk !! path) ++ [Disk.Row entry])
  else disk !! path.
Proof.
  unfold Disk.log_to_file, Disk.files in *. cbn zeta.
  destruct (String.eqb log_path path) eqn:E.
  - apply String.eqb_eq in E as ->. rewrite lookup_insert_eq.
    destruct (disk !! path) as [f|] eqn:Hf; cbn [default].
    + rewrite bool_decide_eq_true_2 by (eexists; reflexivity). reflexivity.
    + rewrite bool_decide_eq_false_2 by (intros [? ?]; discriminate). reflexivity.
  - apply String.eqb_neq in E. rewrite lookup_insert_ne by exact E. reflexivity.
Qed.

Lemma replay_lookup (tr : list event) :
  forall (disk : Disk.files) (log_path : string),
  Disk.replay tr disk !! log_path =
  match rows_at log_path tr with
  | [] => disk !! log_path
  | rows => Some (default [Disk.Header Disk.fieldnames] (disk !! log_path)
                  ++ (Disk.Row <$> rows))
  end.
Proof.
  induction tr as [|ev tr IH]; intros disk log_path; [reflexivity|].
  destruct ev as [msg|pause| |path entry|csv_path contacts];
    cbn [Disk.replay rows_at]; try apply IH.
  rewrite IH, log_to_file_lookup.
  destruct (String.eqb path log_path); [|reflexivity].
  destruct (rows_at log_path tr) as [|row rows]; [reflexivity|].
  cbn [default id fmap list_fmap]. rewrite <- app_assoc. reflexivity.
Qed.

(** The same for all the writes of a trace, at a path that no write of
    the contacts file names. *)
Lemma run_lookup (fieldnames : list string) (tr : list event) :
  forall (disk : Disk.files) (log_path : string),
  Forall (fun item => fst item <> log_path) (saved tr) ->
  Disk.run fieldnames tr disk !! log_path =
  match rows_at log_path tr with
  | [] => disk !! log_path
  | rows => Some (default [Disk.Header Disk.fieldnames] (disk !! log_path)
                  ++ (Disk.Row <$> rows))
  end.
Proof.
  induction tr as [|ev tr IH]; intros disk log_path Hsaved; [reflexivity|].
  destruct ev as [msg|pause| |path entry|csv_path contacts];
    cbn [Disk.run rows_at saved] in *; try (apply IH; exact Hsaved).
  - rewrite IH by exact Hsaved. rewrite log_to_file_lookup.
    destruct (String.eqb path log_path); [|reflexivity].
    destruct (rows_at log_path tr) as [|row rows]; [reflexivity|].
    cbn [default id fmap list_fmap]. rewrite <- app_assoc. reflexivity.
  - apply Forall_cons in Hsaved as [Hne Hsaved]. cbn [fst] in Hne.
    rewrite IH by exact Hsaved.
    unfold Disk.save_contacts, Disk.files in *.
    rewrite lookup_insert_ne by exact Hne. reflexivity.
Qed.

(** After the calls of [log_to_file] of a trace, a file no call names
    is as it was; a file some call names holds what it held before, or
    the header alone when it was not there, followed by the rows of the
    calls that name it, in their order.  So the header is written once,
    by the first call on a file that is not there, and a file that is
    there but empty gets rows and no header. *)
Theorem log_header_is_written_once (tr : list event) (disk : Disk.files)
  (log_path : string) :
  Disk.replay tr disk !! log_path =
  match rows_at log_path tr with
  | [] => disk !! log_path
  | rows => Some (default [Disk.Header Disk.fieldnames] (disk !! log_path)
                  ++ (Disk.Row <$> rows))
  end.
Proof. apply replay_lookup. Qed.

Lemma logs_to_rows (log_path : string) (evs : list event) :
  Forall (logs_to log_path) evs ->
  rows_at log_path evs = log_rows evs
  /\ forall path, path <> log_path -> rows_at path evs = [].
Proof.
  induction 1 as [|ev evs Hev _ [IH1 IH2]]; [split; reflexivity|].
  destruct ev as [msg|pause| |path entry|csv_path contacts];
    cbn [rows_at log_rows]; try (split; assumption).
  cbn in Hev. subst path. rewrite String.eqb_refl, IH1. split; [reflexivity|].
  intros path Hne. apply not_eq_sym, String.eqb_neq in Hne. rewrite Hne.
  apply IH2. apply String.eqb_neq in Hne. congruence.
Qed.

Lemma located_rows (locate : string -> string) (log_path : string)
  (evs : list event) :
  Forall (logs_to log_path) evs ->
  rows_at (locate log_path) (located locate <$> evs) = log_rows evs.
Proof.
  induction 1 as [|ev evs Hev _ IH]; [reflexivity|].
  destruct ev as [msg|pause| |path entry|csv_path contacts];
    cbn [fmap list_fmap located rows_at log_rows]; try exact IH.
  cbn in Hev. subst path. rewrite String.eqb_refl. f_equal. exact IH.
Qed.

Lemma located_saved (locate : string -> string) (csv_path : string)
  (evs : list event) :
  Forall (fun item => fst item = csv_path) (saved evs) ->
  Forall (fun item => fst item = locate csv_path) (saved (located locate <$> evs)).
Proof.
  induction evs as [|ev evs IH]; [constructor|].
  destruct ev as [msg|pause| |path entry|path contacts];
    cbn [fmap list_fmap located saved]; try exact IH.
  intros H. apply Forall_cons in H as [Hp H]. cbn [fst] in Hp. subst path.
  constructor; [reflexivity|exact (IH H)].
Qed.

Lemma logs_nothing (log_path : string) (evs : list event) :
  log_rows evs = [] -> Forall (logs_to log_path) evs.
Proof.
  induction evs as [|ev evs IH]; [constructor|].
  destruct ev; cbn [log_rows]; try discriminate;
    intros H; (constructor; [exact I|apply IH, H]).
Qed.

Lemma filter_loop_logs_to (w : Collaborators) (args : Args)
  (rows : list (nat * Contact)) :
  forall (contacts_to_send : list (nat * Contact)) (tr : list event),
  exists evs,
    snd (filter_loop w args rows contacts_to_send tr) = tr ++ evs
    /\ Forall (logs_to (arg_log args)) evs.
Proof.
  induction rows as [|[idx contact] rows IH]; intros acc tr.
  - exists []. rewrite app_nil_r. split; constructor.
  - rewrite filter_loop_cons, filter_body_eq.
    destruct (examined args (idx, contact)); [|apply IH].
    destruct (verdict w (email contact)) as [[|]|c|e].
    + cbn zeta. destruct (max_reached args _); [|apply IH].
      exists []. rewrite app_nil_r. split; constructor.
    + destruct (IH acc (tr ++ [ClockRead;
                  LogRow (arg_log args)
                    (invalid_email_row contact (isoformat w (clock w tr)))]))
        as (evs & Hsnd & Hlogs).
      exists ([ClockRead;
               LogRow (arg_log args)
                 (invalid_email_row contact (isoformat w (clock w tr)))] ++ evs).
      rewrite Hsnd, <- app_assoc. split; [reflexivity|].
      repeat constructor. exact Hlogs.
    + exists []. rewrite app_nil_r. split; constructor.
    + exists []. rewrite app_nil_r. split; constructor.
Qed.

Lemma send_loop_logs_to (w : Collaborators) (args : Args) (env_vars : EnvVars)
  (subject_template html_template today : string) (total : nat)
  (todo : list (nat * (nat * Contact))) :
  forall (contacts : list Contact) (stats : Stats) (tr : list event),
  exists evs,
    snd (send_loop w args env_vars subject_template html_template today total
           todo contacts stats tr) = tr ++ evs
    /\ Forall (logs_to (arg_log args)) evs.
Proof.
  induction todo as [|[idx [i c]] todo IH]; intros contacts stats tr.
  - exists []. rewrite app_nil_r. split; constructor.
  - rewrite send_loop_cons, send_body_eq.
    destruct (retry_of_main_effects w args env_vars
                (compose w args env_vars subject_template html_template today c) tr)
      as (evs0 & Hsnd & _ & Hrows & _).
    apply (logs_nothing (arg_log args)) in Hrows.
    destruct (send_email_with_retry _ _ _ _ _ tr) as [[[success info]|?|?] tr1];
      cbn [snd] in Hsnd; subst tr1.
    2,3: (exists evs0; split; [reflexivity|exact Hrows]).
    cbn zeta.
    set (row := send_row args c success info (isoformat w (clock w (tr ++ evs0)))).
    set (evs1 := evs0 ++ (if success && arg_update_contacts args
                          then [ClockRead; ClockRead] else [ClockRead])
                 ++ [LogRow (arg_log args) row]).
    assert (Hevs1 : Forall (logs_to (arg_log args)) evs1).
    { apply Forall_app. split; [exact Hrows|].
      destruct (success && arg_update_contacts args); repeat constructor. }
    assert (Htr : (if success && arg_update_contacts args
                   then (tr ++ evs0) ++ [ClockRead] ++ [ClockRead]
                   else (tr ++ evs0) ++ [ClockRead])
                  ++ [LogRow (arg_log args) row] = tr ++ evs1).
    { unfold evs1. destruct (success && arg_update_contacts args);
        rewrite <- !app_assoc; reflexivity. }
    rewrite <- !app_assoc in Htr |- *. cbn [app] in Htr |- *.
    destruct (idx <? total)%nat.
    + match goal with
      | |- context [time_sleep ?s ?t] =>
          destruct (time_sleep_cases s t) as [[_ ->]|[_ [e ->]]]
      end.
      2:{ exists evs1. split; [|exact Hevs1]. cbn [snd].
          rewrite <- Htr. destruct (success && arg_update_contacts args);
            rewrite <- ?app_assoc; reflexivity. }
      * match goal with
        | |- context [send_loop _ _ _ _ _ _ _ _ ?cs ?st ?t] =>
            destruct (IH cs st t) as (evs & Hrun & Hlogs)
        end.
        exists (evs1 ++ [Sleep (arg_sleep args)] ++ evs).
        rewrite Hrun. split.
        { unfold evs1. destruct (success && arg_update_contacts args);
            rewrite <- !app_assoc; reflexivity. }
        apply Forall_app. split; [exact Hevs1|]. constructor; [exact I|exact Hlogs].
    + match goal with
      | |- context [send_loop _ _ _ _ _ _ _ _ ?cs ?st ?t] =>
          destruct (IH cs st t) as (evs & Hrun & Hlogs)
      end.
      exists (evs1 ++ evs). rewrite Hrun. split.
      { unfold evs1. destruct (success && arg_update_contacts args);
          rewrite <- !app_assoc; reflexivity. }
      apply Forall_app. split; assumption.
Qed.

(** Whatever its outcome, a run of [main] calls [log_to_file] on the
    path of [--log] and on no other, and writes the contacts file at
    the path of [--csv] or not at all.  So when the two paths lead to
    different files, the log holds after the run what it held before,
    or the header alone when it was not there, followed by the rows of
    the run in their order, and it is as it was when the run logged
    nothing. *)
Theorem run_logs_to_its_log_file_only (w : Collaborators) (args : Args)
  (env_vars : EnvVars) (subject_template html_template : string)
  (contacts : list Contact) (tr : list event) :
  exists evs,
    snd (main w args env_vars subject_template html_template contacts tr) = tr ++ evs
    /\ Forall (logs_to (arg_log args)) evs
    /\ Forall (fun item => fst item = arg_csv args) (saved evs)
    /\ forall locate : string -> string,
         locate (arg_log args) <> locate (arg_csv args) ->
         forall (fieldnames : list string) (disk : Disk.files),
           Disk.run fieldnames (located locate <$> evs) disk !! locate (arg_log args)
           = match log_rows evs with
             | [] => disk !! locate (arg_log args)
             | rows => Some (default [Disk.Header Disk.fieldnames]
                               (disk !! locate (arg_log args))
                             ++ (Disk.Row <$> rows))
             end.
Proof.
  assert (Hmain : exists evs,
            snd (main w args env_vars subject_template html_template contacts tr)
            = tr ++ evs /\ Forall (logs_to (arg_log args)) evs).
  { rewrite main_eq.
    destruct (attachment_missing w args).
    { exists []. rewrite app_nil_r. split; constructor. }
    destruct (filter_loop_logs_to w args (enumerate 0 contacts) [] tr)
      as (evs1 & Hsnd1 & Hlogs1).
    destruct (filter_loop w args (enumerate 0 contacts) [] tr)
      as [[selected|?|?] tr1]; cbn [snd] in Hsnd1; subst tr1.
    2,3: (exists evs1; split; [reflexivity|exact Hlogs1]).
    destruct selected as [|first rest].
    { exists evs1. split; [reflexivity|exact Hlogs1]. }
    destruct (send_loop_logs_to w args env_vars subject_template html_template
                (strftime w (clock w (tr ++ evs1)) "%d/%m/%Y")
                (length (first :: rest)) (enumerate 1 (first :: rest)) contacts
                {| sent := 0; failed := 0; skipped := 0 |}
                ((tr ++ evs1) ++ [ClockRead])) as (evs2 & Hsnd2 & Hlogs2).
    assert (Hboth : Forall (logs_to (arg_log args)) (evs1 ++ [ClockRead] ++ evs2)).
    { apply Forall_app. split; [exact Hlogs1|]. constructor; [exact I|exact Hlogs2]. }
    destruct (send_loop _ _ _ _ _ _ _ _ _ _ _) as [[[contacts' stats]|?|?] tr2];
      cbn [snd] in Hsnd2; subst tr2; cbn [snd].
    2,3: (exists (evs1 ++ [ClockRead] ++ evs2); rewrite <- !app_assoc;
          split; [reflexivity|exact Hboth]).
    destruct (arg_update_contacts args && (0 <? sent stats)).
    - exists ((evs1 ++ [ClockRead] ++ evs2) ++ [SaveContacts (arg_csv args) contacts']).
      rewrite <- !app_assoc. split; [reflexivity|].
      rewrite !app_assoc. apply Forall_app. split; [|repeat constructor].
      rewrite <- !app_assoc. exact Hboth.
    - exists (evs1 ++ [ClockRead] ++ evs2). rewrite <- !app_assoc.
      split; [reflexivity|exact Hboth]. }
  destruct Hmain as (evs & Hsnd & Hlogs).
  assert (Hsaved : Forall (fun item => fst item = arg_csv args) (saved evs)).
  { destruct (main_effects w args env_vars subject_template html_template contacts tr)
      as (evs' & Hsnd' & _ & _ & Hs).
    rewrite Hsnd in Hsnd'. apply app_inv_head in Hsnd'. subst evs'.
    destruct Hs as [->|(stats & contacts' & evs0 & _ & _ & _ & -> & Hs0)];
      [constructor|].
    rewrite saved_app, Hs0. cbn. repeat constructor. }
  exists evs. split; [exact Hsnd|]. split; [exact Hlogs|]. split; [exact Hsaved|].
  intros locate Hne fieldnames disk. rewrite run_lookup.
  - rewrite (located_rows locate _ _ Hlogs). reflexivity.
  - eapply Forall_impl; [exact (located_saved locate _ _ Hsaved)|].
    cbn beta. intros item ->. congruence.
Qed.

Lemma run_logs_to_its_log_file_only_witness :
  exists evs,
    snd sample_run = [] ++ evs
    /\ Forall (logs_to "outbox_log.csv") evs
    /\ Forall (fun item => fst item = "contacts.csv") (saved evs)
    /\ forall locate : string -> string,
         locate "outbox_log.csv" <> locate "contacts.csv" ->
         forall (fieldnames : list string) (disk : Disk.files),
           Disk.run fieldnames (located locate <$> evs) disk !! locate "outbox_log.csv"
           = match log_rows evs with
             | [] => disk !! locate "outbox_log.csv"
             | rows => Some (default [Disk.Header Disk.fieldnames]
                               (disk !! locate "outbox_log.csv")
                             ++ (Disk.Row <$> rows))
             end.
Proof.
  exact (run_logs_to_its_log_file_only (sample_world_with relay_once)
           (sample_args false true) sample_env
           "Hello {{contact_name}}" "<p>{{hotel_name}}, {{today}}</p>" sample_contacts []).
Defined.
